(** * Space roguelite: the per-frame simulation of [src/app/page.tsx]

    A shallow embedding of the game state, of the frame callback [gameLoop],
    of the wave spawner [spawnWave] with its deferred [setTimeout] callbacks
    and of the keyboard handlers, followed by the properties of the
    simulation that the specification states.

    Conventions of the embedding.
    - A JavaScript [number] is a rational ([Q]).  Where a decision of the
      program depends on the rounding of IEEE doubles, the operation is
      rounded as binary64 does ([fl]: to nearest, ties to even, 53
      significant bits): the distance and the sum of radii of the
      collision tests ([hypot], [fadd]) and the score award ([award]).
      Elsewhere comparisons, [Math.max], [Math.min] and sums are taken on
      exact values.  Overflow, subnormal numbers and NaN are not modelled.
      Counters that the program only initialises with integers and only
      changes by [++] or by adding a [Math.floor] ([score], [wave],
      [waveProgress], [enemiesThisWave], [enemiesKilled]) are integers
      ([Z]).
    - [Math.cos], [Math.sin], [Math.atan2], [Math.PI] and the stream of
      values returned by [Math.random] are the members of the interface
      [MathLib]; [Math.sqrt] is the correctly rounded [fsqrt];
      [Math.floor], [Math.max] and [Math.min] are [Qfloor], [Qmax] and
      [Qmin].
    - Arrays are lists; [a.splice(i, 1)] is [splice1 i a], [a.push(v)] is
      [a ++ [v]], and the in-place update of the object stored at [a[i]]
      is [set_nth i v a].
    - Rendering only reads the state and is left out. *)

From Stdlib Require Import QArith Qminmax Qround ZArith List Bool String Lia Lqa.
Import ListNotations.
Open Scope Q_scope.

Definition number : Set := Q.

(** ** Comparisons of numbers as booleans *)

Definition Qltb (a b : Q) : bool := negb (Qle_bool b a).
Definition Qgtb (a b : Q) : bool := Qltb b a.
Definition Qleb (a b : Q) : bool := Qle_bool a b.

(** ** Double precision

    [fl q] is the binary64 number nearest to [q]: 53 significant bits,
    ties to the even significand, the exponent unbounded. *)

(** [N / D] rounded to an integer, ties to even, for [0 <= N], [0 < D]. *)
Definition nearest_even (N D : Z) : Z :=
  let q := (N / D)%Z in
  let r := (N mod D)%Z in
  if (2 * r <? D)%Z then q
  else if (D <? 2 * r)%Z then (q + 1)%Z
  else if Z.even q then q else (q + 1)%Z.

(** [n / (d * 2 ^ e)] as a fraction of integers. *)
Definition scaled (n d e : Z) : Z * Z :=
  if (0 <=? e)%Z then (n, d * 2 ^ e)%Z else (n * 2 ^ (- e), d)%Z.

(** The exponent [e] with [2 ^ 52 <= n / d / 2 ^ e < 2 ^ 53]. *)
Definition exponent (n d : Z) : Z :=
  let e0 := (Z.log2 n - Z.log2 d - 53)%Z in
  let (N, D) := scaled n d e0 in
  if (2 ^ 53 * D <=? N)%Z then (e0 + 1)%Z else e0.

(** [n / d] rounded to a multiple of [2 ^ e]. *)
Definition round_at (n d e : Z) : Q :=
  let (N, D) := scaled n d e in
  let m := nearest_even N D in
  if (0 <=? e)%Z then inject_Z (m * 2 ^ e)
  else Qred (m # Z.to_pos (2 ^ (- e))).

Definition round53 (n d : Z) : Q := round_at n d (exponent n d).

Definition fl (q : Q) : Q :=
  let r := Qred q in
  match Qnum r with
  | Z0 => 0
  | Zpos n => round53 (Zpos n) (Zpos (Qden r))
  | Zneg n => - round53 (Zpos n) (Zpos (Qden r))
  end.

(** The arithmetic of doubles: the exact result, rounded. *)
Definition fadd (a b : Q) : Q := fl (a + b).
Definition fmul (a b : Q) : Q := fl (a * b).
Definition fdiv (a b : Q) : Q := fl (a / b).

(** [Math.sqrt]: the root of [q * 4 ^ k] is taken to more than 60 bits,
    with a last bit that records whether it is inexact, and rounded. *)
Definition fsqrt (q : Q) : Q :=
  let r := Qred q in
  match Qnum r with
  | Zpos n =>
      let n := Zpos n in
      let d := Zpos (Qden r) in
      let k := Z.max 0 ((122 - Z.log2 n + Z.log2 d) / 2) in
      let F := (n * 4 ^ k / d)%Z in
      let m0 := Z.sqrt F in
      let exact := ((n * 4 ^ k mod d =? 0) && (m0 * m0 =? F))%Z in
      fl ((2 * m0 + (if exact then 0 else 1)) # Z.to_pos (2 * 2 ^ k))
  | _ => 0
  end.

(** ** The [Math] object *)

Class MathLib := {
  Mcos : Q -> Q;
  Msin : Q -> Q;
  Matan2 : Q -> Q -> Q;
  MPI : Q;
  (** [Math.random()] returns a value in the interval [0, 1): its [n]-th
      value is the fractional part of [Mdraw n], see [Mrandom]. *)
  Mdraw : nat -> Q
}.

(** The value of the [n]-th call of [Math.random()]. *)
Definition Mrandom {M : MathLib} (n : nat) : Q :=
  Mdraw n - inject_Z (Qfloor (Mdraw n)).

(** ** Arrays *)

Section Arrays.
Context {A : Type}.

Definition splice1 (i : nat) (l : list A) : list A :=
  firstn i l ++ skipn (S i) l.

Definition set_nth (i : nat) (v : A) (l : list A) : list A :=
  match nth_error l i with
  | Some _ => firstn i l ++ v :: skipn (S i) l
  | None => l
  end.

Definition push (l : list A) (v : A) : list A := l ++ [v].

(** [for (let i = n - 1; i >= 0; i--) body(i)] *)
Fixpoint for_down {St : Type} (n : nat) (body : nat -> St -> St) (s : St)
    : St :=
  match n with
  | O => s
  | S i => for_down i body (body i s)
  end.

(** The same loop when the body may [break]: the body returns [true]
    after a [break]. *)
Fixpoint for_down_break {St : Type} (n : nat)
    (body : nat -> St -> St * bool) (s : St) : St :=
  match n with
  | O => s
  | S j =>
      let (s', stop) := body j s in
      if stop then s' else for_down_break j body s'
  end.
End Arrays.

(** ** Data model *)

Module Vector2.
Record t : Set := mk { x : number; y : number }.
End Vector2.

Module Player.
Record t : Set := mk {
  pos : Vector2.t;
  vel : Vector2.t;
  radius : number;
  health : number;
  maxHealth : number;
  fireRate : number;
  damage : number;
  speed : number;
  lastFired : number;
  invulnerable : number
}.

Definition set_pos (v : Vector2.t) (p : t) : t :=
  mk v (vel p) (radius p) (health p) (maxHealth p) (fireRate p) (damage p)
     (speed p) (lastFired p) (invulnerable p).
Definition set_vel (v : Vector2.t) (p : t) : t :=
  mk (pos p) v (radius p) (health p) (maxHealth p) (fireRate p) (damage p)
     (speed p) (lastFired p) (invulnerable p).
Definition set_health (v : number) (p : t) : t :=
  mk (pos p) (vel p) (radius p) v (maxHealth p) (fireRate p) (damage p)
     (speed p) (lastFired p) (invulnerable p).
Definition set_fireRate (v : number) (p : t) : t :=
  mk (pos p) (vel p) (radius p) (health p) (maxHealth p) v (damage p)
     (speed p) (lastFired p) (invulnerable p).
Definition set_damage (v : number) (p : t) : t :=
  mk (pos p) (vel p) (radius p) (health p) (maxHealth p) (fireRate p) v
     (speed p) (lastFired p) (invulnerable p).
Definition set_speed (v : number) (p : t) : t :=
  mk (pos p) (vel p) (radius p) (health p) (maxHealth p) (fireRate p)
     (damage p) v (lastFired p) (invulnerable p).
Definition set_lastFired (v : number) (p : t) : t :=
  mk (pos p) (vel p) (radius p) (health p) (maxHealth p) (fireRate p)
     (damage p) (speed p) v (invulnerable p).
Definition set_invulnerable (v : number) (p : t) : t :=
  mk (pos p) (vel p) (radius p) (health p) (maxHealth p) (fireRate p)
     (damage p) (speed p) (lastFired p) v.
End Player.

Inductive EnemyType : Set := basic | fast | tank | shooter.

Module Enemy.
Record t : Set := mk {
  pos : Vector2.t;
  vel : Vector2.t;
  radius : number;
  health : number;
  maxHealth : number;
  speed : number;
  type : EnemyType;
  (** [lastFired?: number]: [None] is [undefined]. *)
  lastFired : option number;
  color : string
}.

Definition set_pos (v : Vector2.t) (e : t) : t :=
  mk v (vel e) (radius e) (health e) (maxHealth e) (speed e) (type e)
     (lastFired e) (color e).
Definition set_vel (v : Vector2.t) (e : t) : t :=
  mk (pos e) v (radius e) (health e) (maxHealth e) (speed e) (type e)
     (lastFired e) (color e).
Definition set_health (v : number) (e : t) : t :=
  mk (pos e) (vel e) (radius e) v (maxHealth e) (speed e) (type e)
     (lastFired e) (color e).
Definition set_lastFired (v : number) (e : t) : t :=
  mk (pos e) (vel e) (radius e) (health e) (maxHealth e) (speed e) (type e)
     (Some v) (color e).
End Enemy.

Module Bullet.
Record t : Set := mk {
  pos : Vector2.t;
  vel : Vector2.t;
  radius : number;
  damage : number;
  isPlayerBullet : bool
}.

Definition set_pos (v : Vector2.t) (b : t) : t :=
  mk v (vel b) (radius b) (damage b) (isPlayerBullet b).
End Bullet.

Module Particle.
Record t : Set := mk {
  pos : Vector2.t;
  vel : Vector2.t;
  radius : number;
  life : number;
  maxLife : number;
  color : string
}.
End Particle.

Inductive PowerUpType : Set := health | damage | firerate | speed.

Module PowerUp.
Record t : Set := mk {
  pos : Vector2.t;
  vel : Vector2.t;
  radius : number;
  type : PowerUpType;
  color : string
}.

Definition set_pos (v : Vector2.t) (u : t) : t :=
  mk v (vel u) (radius u) (type u) (color u).
End PowerUp.

(** [keys: Set<string>] is a duplicate-free list of key codes. *)
Definition KeySet : Set := list string.

Definition has (k : KeySet) (code : string) : bool :=
  existsb (String.eqb code) k.
Definition add (k : KeySet) (code : string) : KeySet :=
  if has k code then k else k ++ [code].
Definition delete (k : KeySet) (code : string) : KeySet :=
  filter (fun c => negb (String.eqb code c)) k.

Record GameState : Set := mkGameState {
  player : Player.t;
  enemies : list Enemy.t;
  bullets : list Bullet.t;
  particles : list Particle.t;
  powerUps : list PowerUp.t;
  score : Z;
  wave : Z;
  waveProgress : Z;
  enemiesThisWave : Z;
  enemiesKilled : Z;
  gameOver : bool;
  paused : bool;
  keys : KeySet;
  (** Not a field of the source: the number of [Math.random()] calls made
      so far, which selects the next value of the stream [Mrandom]. *)
  draws : nat
}.

Definition set_player (v : Player.t) (s : GameState) : GameState :=
  mkGameState v (enemies s) (bullets s) (particles s) (powerUps s) (score s)
    (wave s) (waveProgress s) (enemiesThisWave s) (enemiesKilled s)
    (gameOver s) (paused s) (keys s) (draws s).
Definition set_enemies (v : list Enemy.t) (s : GameState) : GameState :=
  mkGameState (player s) v (bullets s) (particles s) (powerUps s) (score s)
    (wave s) (waveProgress s) (enemiesThisWave s) (enemiesKilled s)
    (gameOver s) (paused s) (keys s) (draws s).
Definition set_bullets (v : list Bullet.t) (s : GameState) : GameState :=
  mkGameState (player s) (enemies s) v (particles s) (powerUps s) (score s)
    (wave s) (waveProgress s) (enemiesThisWave s) (enemiesKilled s)
    (gameOver s) (paused s) (keys s) (draws s).
Definition set_particles (v : list Particle.t) (s : GameState) : GameState :=
  mkGameState (player s) (enemies s) (bullets s) v (powerUps s) (score s)
    (wave s) (waveProgress s) (enemiesThisWave s) (enemiesKilled s)
    (gameOver s) (paused s) (keys s) (draws s).
Definition set_powerUps (v : list PowerUp.t) (s : GameState) : GameState :=
  mkGameState (player s) (enemies s) (bullets s) (particles s) v (score s)
    (wave s) (waveProgress s) (enemiesThisWave s) (enemiesKilled s)
    (gameOver s) (paused s) (keys s) (draws s).
Definition set_score (v : Z) (s : GameState) : GameState :=
  mkGameState (player s) (enemies s) (bullets s) (particles s) (powerUps s) v
    (wave s) (waveProgress s) (enemiesThisWave s) (enemiesKilled s)
    (gameOver s) (paused s) (keys s) (draws s).
Definition set_wave (v : Z) (s : GameState) : GameState :=
  mkGameState (player s) (enemies s) (bullets s) (particles s) (powerUps s)
    (score s) v (waveProgress s) (enemiesThisWave s) (enemiesKilled s)
    (gameOver s) (paused s) (keys s) (draws s).
Definition set_waveProgress (v : Z) (s : GameState) : GameState :=
  mkGameState (player s) (enemies s) (bullets s) (particles s) (powerUps s)
    (score s) (wave s) v (enemiesThisWave s) (enemiesKilled s)
    (gameOver s) (paused s) (keys s) (draws s).
Definition set_enemiesThisWave (v : Z) (s : GameState) : GameState :=
  mkGameState (player s) (enemies s) (bullets s) (particles s) (powerUps s)
    (score s) (wave s) (waveProgress s) v (enemiesKilled s)
    (gameOver s) (paused s) (keys s) (draws s).
Definition set_enemiesKilled (v : Z) (s : GameState) : GameState :=
  mkGameState (player s) (enemies s) (bullets s) (particles s) (powerUps s)
    (score s) (wave s) (waveProgress s) (enemiesThisWave s) v
    (gameOver s) (paused s) (keys s) (draws s).
Definition set_gameOver (v : bool) (s : GameState) : GameState :=
  mkGameState (player s) (enemies s) (bullets s) (particles s) (powerUps s)
    (score s) (wave s) (waveProgress s) (enemiesThisWave s) (enemiesKilled s)
    v (paused s) (keys s) (draws s).
Definition set_paused (v : bool) (s : GameState) : GameState :=
  mkGameState (player s) (enemies s) (bullets s) (particles s) (powerUps s)
    (score s) (wave s) (waveProgress s) (enemiesThisWave s) (enemiesKilled s)
    (gameOver s) v (keys s) (draws s).
Definition set_keys (v : KeySet) (s : GameState) : GameState :=
  mkGameState (player s) (enemies s) (bullets s) (particles s) (powerUps s)
    (score s) (wave s) (waveProgress s) (enemiesThisWave s) (enemiesKilled s)
    (gameOver s) (paused s) v (draws s).
Definition set_draws (v : nat) (s : GameState) : GameState :=
  mkGameState (player s) (enemies s) (bullets s) (particles s) (powerUps s)
    (score s) (wave s) (waveProgress s) (enemiesThisWave s) (enemiesKilled s)
    (gameOver s) (paused s) (keys s) v.

(** The canvas, whose size a [resize] event changes. *)
Record Canvas : Set := mkCanvas { width : number; height : number }.

(** [initGame()]; [n] is the number of random values already consumed. *)
Definition initGame (canvas : Canvas) (n : nat) : GameState :=
  {| player :=
       {| Player.pos := Vector2.mk (width canvas / 2) (height canvas - 100);
          Player.vel := Vector2.mk 0 0;
          Player.radius := 15;
          Player.health := 100;
          Player.maxHealth := 100;
          Player.fireRate := 150;
          Player.damage := 10;
          Player.speed := 5;
          Player.lastFired := 0;
          Player.invulnerable := 0 |};
     enemies := [];
     bullets := [];
     particles := [];
     powerUps := [];
     score := 0;
     wave := 1;
     waveProgress := 0;
     enemiesThisWave := 5;
     enemiesKilled := 0;
     gameOver := false;
     paused := false;
     keys := [];
     draws := n |}.

(** ** The simulation *)

Section Simulation.
Context {M : MathLib}.

Definition QofZ (z : Z) : Q := inject_Z z.
Definition Qofnat (n : nat) : Q := inject_Z (Z.of_nat n).

(** [{ ...pos }] *)
Definition copy (v : Vector2.t) : Vector2.t :=
  Vector2.mk (Vector2.x v) (Vector2.y v).

(** [Math.sqrt(dx * dx + dy * dy)], where [dx] and [dy] are themselves
    differences of doubles. *)
Definition hypot (dx dy : Q) : Q :=
  let dx := fl dx in
  let dy := fl dy in
  fsqrt (fadd (fmul dx dx) (fmul dy dy)).

(** [Math.floor(10 * state.wave * (enemy.maxHealth / 20))] *)
Definition award (wave : Z) (maxHealth : Q) : Z :=
  Qfloor (fmul (fmul 10 (QofZ wave)) (fdiv maxHealth 20)).

(** *** [createParticles] *)

Fixpoint createParticles_from (todo i count : nat) (pos : Vector2.t)
    (color : string) (s : GameState) : GameState :=
  match todo with
  | O => s
  | S todo' =>
      let angle := (MPI * 2 * Qofnat i) / Qofnat count in
      let speed := 2 + Mrandom (draws s) * 3 in
      let radius := 2 + Mrandom (S (draws s)) * 3 in
      let particle :=
        {| Particle.pos := copy pos;
           Particle.vel :=
             Vector2.mk (Mcos angle * speed) (Msin angle * speed);
           Particle.radius := radius;
           Particle.life := 1;
           Particle.maxLife := 1;
           Particle.color := color |} in
      createParticles_from todo' (S i) count pos color
        (set_draws (S (S (draws s)))
           (set_particles (push (particles s) particle) s))
  end.

Definition createParticles (pos : Vector2.t) (color : string) (count : nat)
    (s : GameState) : GameState :=
  createParticles_from count 0 count pos color s.

(** *** [spawnPowerUp] *)

Definition types : list PowerUpType := [health; damage; firerate; speed].

Definition colors (t : PowerUpType) : string :=
  match t with
  | health => "#44ff44"
  | damage => "#ff4444"
  | firerate => "#4444ff"
  | speed => "#ffff44"
  end.

Definition spawnPowerUp (pos : Vector2.t) (s : GameState) : GameState :=
  let roll := Mrandom (draws s) in
  let s1 := set_draws (S (draws s)) s in
  if Qltb roll 0.3 then
    let pick := Mrandom (draws s1) in
    let s2 := set_draws (S (draws s1)) s1 in
    (* the index is below [types.length] because [pick < 1] *)
    let type := nth (Z.to_nat (Qfloor (pick * 4))) types health in
    set_powerUps
      (push (powerUps s2)
         {| PowerUp.pos := copy pos;
            PowerUp.vel := Vector2.mk 0 2;
            PowerUp.radius := 10;
            PowerUp.type := type;
            PowerUp.color := colors type |}) s2
  else s1.

(** *** [spawnEnemy] *)

Record Config : Set := mkConfig {
  cfg_health : number; cfg_speed : number; cfg_radius : number;
  cfg_color : string
}.

Definition configs (type : EnemyType) (wave : Z) : Config :=
  match type with
  | basic => mkConfig (20 + QofZ wave * 5) (2 + QofZ wave * 0.1) 15 "#ff4444"
  | fast => mkConfig (10 + QofZ wave * 3) (4 + QofZ wave * 0.2) 10 "#ff8844"
  | tank => mkConfig (50 + QofZ wave * 15) (1 + QofZ wave * 0.05) 25 "#ff2222"
  | shooter =>
      mkConfig (15 + QofZ wave * 4) (1.5 + QofZ wave * 0.1) 12 "#ff44ff"
  end.

Definition spawnEnemy (canvas : Canvas) (type : EnemyType) (wave : Z)
    (s : GameState) : GameState :=
  let config := configs type wave in
  let enemy :=
    {| Enemy.pos := Vector2.mk (Mrandom (draws s) * width canvas) (-30);
       Enemy.vel := Vector2.mk 0 (cfg_speed config);
       Enemy.radius := cfg_radius config;
       Enemy.health := cfg_health config;
       Enemy.maxHealth := cfg_health config;
       Enemy.speed := cfg_speed config;
       Enemy.type := type;
       Enemy.lastFired := Some 0;
       Enemy.color := cfg_color config |} in
  set_enemies (push (enemies s) enemy) (set_draws (S (draws s)) s).

(** *** [spawnWave]

    [spawnWave] resets the wave counters of the state and schedules
    [count] callbacks with [setTimeout]; [Scheduled] is one such call:
    its delay and the [wave] its closure captured. *)

Record Scheduled : Set := mkScheduled { delay : number; forWave : Z }.

Definition spawnWave (wave : Z) (s : GameState)
    : GameState * list Scheduled :=
  let count := (5 + wave * 2)%Z in
  let s := set_enemiesThisWave count s in
  let s := set_waveProgress 0 s in
  (s, map (fun i => mkScheduled (Qofnat i * 500) wave)
        (seq 0 (Z.to_nat count))).

(** *** [gameLoop]

    The body of the frame callback, phase by phase in the order of the
    source.  [canvas], [currentTime] and [deltaTime] are read-only during
    a frame. *)

Section Frame.
Variable canvas : Canvas.
Variables currentTime deltaTime : number.

(** Update player: velocity from the keys, move, boundary check. *)
Definition updatePlayer (s : GameState) : GameState :=
  let p := player s in
  let k := keys s in
  let vx := 0 in
  let vy := 0 in
  let vx := if has k "ArrowLeft" || has k "KeyA"
            then vx - Player.speed p else vx in
  let vx := if has k "ArrowRight" || has k "KeyD"
            then vx + Player.speed p else vx in
  let vy := if has k "ArrowUp" || has k "KeyW"
            then vy - Player.speed p else vy in
  let vy := if has k "ArrowDown" || has k "KeyS"
            then vy + Player.speed p else vy in
  let px := Vector2.x (Player.pos p) + vx in
  let py := Vector2.y (Player.pos p) + vy in
  let px := Qmax (Player.radius p)
              (Qmin (width canvas - Player.radius p) px) in
  let py := Qmax (Player.radius p)
              (Qmin (height canvas - Player.radius p) py) in
  set_player
    (Player.set_pos (Vector2.mk px py)
       (Player.set_vel (Vector2.mk vx vy) p)) s.

(** Shooting. *)
Definition shooting (s : GameState) : GameState :=
  let p := player s in
  if has (keys s) "Space"
     && Qgtb (currentTime - Player.lastFired p) (Player.fireRate p)
  then
    set_player (Player.set_lastFired currentTime p)
      (set_bullets
         (push (bullets s)
            {| Bullet.pos := copy (Player.pos p);
               Bullet.vel := Vector2.mk 0 (-10);
               Bullet.radius := 4;
               Bullet.damage := Player.damage p;
               Bullet.isPlayerBullet := true |}) s)
  else s.

(** [if (player.invulnerable > 0) player.invulnerable -= deltaTime] *)
Definition coolDown (s : GameState) : GameState :=
  let p := player s in
  if Qgtb (Player.invulnerable p) 0
  then set_player
         (Player.set_invulnerable (Player.invulnerable p - deltaTime) p) s
  else s.

(** Update enemies: the body of the loop at index [i]. *)
Definition updateEnemy (i : nat) (s : GameState) : GameState :=
  match nth_error (enemies s) i with
  | None => s
  | Some enemy =>
      let p := player s in
      let dx := Vector2.x (Player.pos p) - Vector2.x (Enemy.pos enemy) in
      let dy := Vector2.y (Player.pos p) - Vector2.y (Enemy.pos enemy) in
      let dist := hypot dx dy in
      let vel :=
        if Qgtb dist 100 then
          Vector2.mk ((dx / dist) * Enemy.speed enemy * 0.3)
                     ((dy / dist) * Enemy.speed enemy)
        else
          Vector2.mk (Vector2.x (Enemy.vel enemy) * 0.95)
                     (Enemy.speed enemy * 0.5) in
      let pos :=
        Vector2.mk (Vector2.x (Enemy.pos enemy) + Vector2.x vel)
                   (Vector2.y (Enemy.pos enemy) + Vector2.y vel) in
      let enemy := Enemy.set_pos pos (Enemy.set_vel vel enemy) in
      let lastFired :=
        match Enemy.lastFired enemy with Some t => t | None => 0 end in
      let fires :=
        match Enemy.type enemy with
        | shooter => Qgtb (currentTime - lastFired) 1000
        | _ => false
        end in
      let s :=
        if fires then
          let angle :=
            Matan2 (Vector2.y (Player.pos p) - Vector2.y pos)
                   (Vector2.x (Player.pos p) - Vector2.x pos) in
          set_enemies
            (set_nth i (Enemy.set_lastFired currentTime enemy) (enemies s))
            (set_bullets
               (push (bullets s)
                  {| Bullet.pos := copy pos;
                     Bullet.vel :=
                       Vector2.mk (Mcos angle * 4) (Msin angle * 4);
                     Bullet.radius := 5;
                     Bullet.damage := 5 + QofZ (wave s);
                     Bullet.isPlayerBullet := false |}) s)
        else set_enemies (set_nth i enemy (enemies s)) s in
      if Qgtb (Vector2.y pos) (height canvas + 50)
      then set_enemies (splice1 i (enemies s)) s
      else s
  end.

Definition updateEnemies (s : GameState) : GameState :=
  for_down (List.length (enemies s)) updateEnemy s.

(** Update bullets. *)
Definition updateBullet (i : nat) (s : GameState) : GameState :=
  match nth_error (bullets s) i with
  | None => s
  | Some bullet =>
      let pos :=
        Vector2.mk
          (Vector2.x (Bullet.pos bullet) + Vector2.x (Bullet.vel bullet))
          (Vector2.y (Bullet.pos bullet) + Vector2.y (Bullet.vel bullet))
      in
      let s :=
        set_bullets (set_nth i (Bullet.set_pos pos bullet) (bullets s)) s
      in
      if Qltb (Vector2.x pos) 0
         || Qgtb (Vector2.x pos) (width canvas)
         || Qltb (Vector2.y pos) 0
         || Qgtb (Vector2.y pos) (height canvas)
      then set_bullets (splice1 i (bullets s)) s
      else s
  end.

Definition updateBullets (s : GameState) : GameState :=
  for_down (List.length (bullets s)) updateBullet s.

(** Update particles. *)
Definition updateParticle (i : nat) (s : GameState) : GameState :=
  match nth_error (particles s) i with
  | None => s
  | Some particle =>
      let particle :=
        {| Particle.pos :=
             Vector2.mk
               (Vector2.x (Particle.pos particle)
                + Vector2.x (Particle.vel particle))
               (Vector2.y (Particle.pos particle)
                + Vector2.y (Particle.vel particle));
           Particle.vel :=
             Vector2.mk (Vector2.x (Particle.vel particle) * 0.98)
                        (Vector2.y (Particle.vel particle) * 0.98);
           Particle.radius := Particle.radius particle;
           Particle.life := Particle.life particle - deltaTime / 1000;
           Particle.maxLife := Particle.maxLife particle;
           Particle.color := Particle.color particle |} in
      let s := set_particles (set_nth i particle (particles s)) s in
      if Qleb (Particle.life particle) 0
      then set_particles (splice1 i (particles s)) s
      else s
  end.

Definition updateParticles (s : GameState) : GameState :=
  for_down (List.length (particles s)) updateParticle s.

(** Update power-ups. *)
Definition updatePowerUp (i : nat) (s : GameState) : GameState :=
  match nth_error (powerUps s) i with
  | None => s
  | Some powerUp =>
      let pos :=
        Vector2.mk (Vector2.x (PowerUp.pos powerUp))
          (Vector2.y (PowerUp.pos powerUp)
           + Vector2.y (PowerUp.vel powerUp)) in
      let s :=
        set_powerUps
          (set_nth i (PowerUp.set_pos pos powerUp) (powerUps s)) s in
      if Qgtb (Vector2.y pos) (height canvas + 50)
      then set_powerUps (splice1 i (powerUps s)) s
      else s
  end.

Definition updatePowerUps (s : GameState) : GameState :=
  for_down (List.length (powerUps s)) updatePowerUp s.

(** Collision: bullets vs enemies.  [hitEnemy i bullet j] is the body of
    the inner loop for the bullet found at index [i]; it returns [true]
    when it ends in [break]. *)
Definition hitEnemy (i : nat) (bullet : Bullet.t) (j : nat)
    (s : GameState) : GameState * bool :=
  match nth_error (enemies s) j with
  | None => (s, false)
  | Some enemy =>
      let dx := Vector2.x (Bullet.pos bullet) - Vector2.x (Enemy.pos enemy)
      in
      let dy := Vector2.y (Bullet.pos bullet) - Vector2.y (Enemy.pos enemy)
      in
      let dist := hypot dx dy in
      if Qltb dist (fadd (Bullet.radius bullet) (Enemy.radius enemy)) then
        let enemy :=
          Enemy.set_health (Enemy.health enemy - Bullet.damage bullet)
            enemy in
        let s := set_enemies (set_nth j enemy (enemies s)) s in
        let s := set_bullets (splice1 i (bullets s)) s in
        let s := createParticles (Bullet.pos bullet) (Enemy.color enemy) 5 s
        in
        let s :=
          if Qleb (Enemy.health enemy) 0 then
            let s :=
              set_score
                (score s + award (wave s) (Enemy.maxHealth enemy))%Z s in
            let s := set_enemiesKilled (enemiesKilled s + 1)%Z s in
            let s :=
              createParticles (Enemy.pos enemy) (Enemy.color enemy) 15 s in
            let s := spawnPowerUp (Enemy.pos enemy) s in
            set_enemies (splice1 j (enemies s)) s
          else s in
        (s, true)
      else (s, false)
  end.

Definition bulletVsEnemies (i : nat) (s : GameState) : GameState :=
  match nth_error (bullets s) i with
  | None => s
  | Some bullet =>
      if negb (Bullet.isPlayerBullet bullet) then s
      else for_down_break (List.length (enemies s)) (hitEnemy i bullet) s
  end.

Definition bulletsVsEnemies (s : GameState) : GameState :=
  for_down (List.length (bullets s)) bulletVsEnemies s.

(** Collision: enemy bullets vs player. *)
Definition bulletVsPlayer (i : nat) (s : GameState) : GameState :=
  match nth_error (bullets s) i with
  | None => s
  | Some bullet =>
      if Bullet.isPlayerBullet bullet then s
      else
        let p := player s in
        let dx := Vector2.x (Bullet.pos bullet) - Vector2.x (Player.pos p)
        in
        let dy := Vector2.y (Bullet.pos bullet) - Vector2.y (Player.pos p)
        in
        let dist := hypot dx dy in
        if Qltb dist (fadd (Bullet.radius bullet) (Player.radius p))
           && Qleb (Player.invulnerable p) 0
        then
          let p :=
            Player.set_health (Player.health p - Bullet.damage bullet) p in
          let p := Player.set_invulnerable 500 p in
          let s := set_player p s in
          let s := set_bullets (splice1 i (bullets s)) s in
          let s := createParticles (Bullet.pos bullet) "#4444ff" 8 s in
          if Qleb (Player.health p) 0 then
            let s := set_gameOver true s in
            createParticles (Player.pos p) "#44ffff" 30 s
          else s
        else s
  end.

Definition bulletsVsPlayer (s : GameState) : GameState :=
  for_down (List.length (bullets s)) bulletVsPlayer s.

(** Collision: player vs enemies. *)
Definition playerVsEnemy (i : nat) (s : GameState) : GameState :=
  match nth_error (enemies s) i with
  | None => s
  | Some enemy =>
      let p := player s in
      let dx := Vector2.x (Player.pos p) - Vector2.x (Enemy.pos enemy) in
      let dy := Vector2.y (Player.pos p) - Vector2.y (Enemy.pos enemy) in
      let dist := hypot dx dy in
      if Qltb dist (fadd (Player.radius p) (Enemy.radius enemy))
         && Qleb (Player.invulnerable p) 0
      then
        let p :=
          Player.set_health (Player.health p - (10 + QofZ (wave s) * 2)) p
        in
        let p := Player.set_invulnerable 1000 p in
        let s := set_player p s in
        let s := createParticles (Enemy.pos enemy) (Enemy.color enemy) 10 s
        in
        let s := set_enemies (splice1 i (enemies s)) s in
        if Qleb (Player.health p) 0 then
          let s := set_gameOver true s in
          createParticles (Player.pos p) "#44ffff" 30 s
        else s
      else s
  end.

Definition playerVsEnemies (s : GameState) : GameState :=
  for_down (List.length (enemies s)) playerVsEnemy s.

(** Collision: player vs power-ups.  [applyPowerUp] is the [switch]. *)
Definition applyPowerUp (type : PowerUpType) (p : Player.t) : Player.t :=
  match type with
  | health =>
      Player.set_health
        (Qmin (Player.maxHealth p) (Player.health p + 20)) p
  | damage => Player.set_damage (Player.damage p + 2) p
  | firerate =>
      Player.set_fireRate (Qmax 50 (Player.fireRate p - 15)) p
  | speed => Player.set_speed (Qmin 8 (Player.speed p + 0.3)) p
  end.

Definition playerVsPowerUp (i : nat) (s : GameState) : GameState :=
  match nth_error (powerUps s) i with
  | None => s
  | Some powerUp =>
      let p := player s in
      let dx := Vector2.x (Player.pos p) - Vector2.x (PowerUp.pos powerUp)
      in
      let dy := Vector2.y (Player.pos p) - Vector2.y (PowerUp.pos powerUp)
      in
      let dist := hypot dx dy in
      if Qltb dist (fadd (Player.radius p) (PowerUp.radius powerUp)) then
        let s :=
          createParticles (PowerUp.pos powerUp) (PowerUp.color powerUp) 8 s
        in
        let s := set_player (applyPowerUp (PowerUp.type powerUp) p) s in
        set_powerUps (splice1 i (powerUps s)) s
      else s
  end.

Definition playerVsPowerUps (s : GameState) : GameState :=
  for_down (List.length (powerUps s)) playerVsPowerUp s.

(** Wave management. *)
Definition waveManagement (s : GameState) : GameState * list Scheduled :=
  if (enemiesThisWave s <=? waveProgress s)%Z
     && (List.length (enemies s) =? 0)%nat
  then
    let s := set_wave (wave s + 1)%Z s in
    spawnWave (wave s) s
  else (s, []).

(** Everything between the pause/game-over gate and wave management. *)
Definition movement (s : GameState) : GameState :=
  updatePowerUps
    (updateParticles
       (updateBullets
          (updateEnemies (coolDown (shooting (updatePlayer s)))))).

Definition combat (s : GameState) : GameState :=
  playerVsPowerUps
    (playerVsEnemies (bulletsVsPlayer (bulletsVsEnemies s))).

Definition gameLoop (s : GameState) : GameState * list Scheduled :=
  if paused s || gameOver s then (s, [])
  else waveManagement (combat (movement s)).
End Frame.

End Simulation.

(** ** The page: state references, timers and event handlers

    [gameStateRef.current] is a reference to a state object; [initGame]
    allocates a new object on restart while the callbacks scheduled by an
    earlier [spawnWave] keep the reference [state] they captured.  The store
    holds every state object allocated so far. *)

Record Timer : Set := mkTimer {
  call : Scheduled;
  (** the [state] captured by the closure *)
  closure : nat
}.

Record World : Set := mkWorld {
  store : list GameState;
  gameStateRef : nat;
  pending : list Timer;
  lastTime : number;
  screen : Canvas
}.

Inductive Event : Set :=
| AnimationFrame (currentTime : number)
| Timeout (k : nat)
| KeyDown (code : string)
| KeyUp (code : string)
| Resize (innerWidth innerHeight : number).

Section Page.
Context {M : MathLib}.

Definition current (w : World) : option GameState :=
  nth_error (store w) (gameStateRef w).

Definition set_current (s : GameState) (w : World) : World :=
  mkWorld (set_nth (gameStateRef w) s (store w)) (gameStateRef w)
    (pending w) (lastTime w) (screen w).

(** The callback passed to [setTimeout] by [spawnWave]. *)
Definition spawnCallback (t : Timer) (w : World) : World :=
  match current w with
  | None => w
  | Some cur =>
      if gameOver cur then w
      else
        let wave := forWave (call t) in
        let rand := Mrandom (draws cur) in
        let cur := set_draws (S (draws cur)) cur in
        let type :=
          if (3 <=? wave)%Z && Qltb rand 0.3 then shooter
          else if (2 <=? wave)%Z && Qltb rand 0.5 then fast
          else if (4 <=? wave)%Z && Qltb rand 0.6 then tank
          else basic in
        (* spawnEnemy works on gameStateRef.current *)
        let w := set_current (spawnEnemy (screen w) type wave cur) w in
        (* state.waveProgress++ works on the captured state *)
        match nth_error (store w) (closure t) with
        | None => w
        | Some state =>
            mkWorld
              (set_nth (closure t)
                 (set_waveProgress (waveProgress state + 1)%Z state)
                 (store w))
              (gameStateRef w) (pending w) (lastTime w) (screen w)
        end
  end.

(** The [k]-th pending timer fires. *)
Definition fire (k : nat) (w : World) : World :=
  match nth_error (pending w) k with
  | None => w
  | Some t =>
      spawnCallback t
        (mkWorld (store w) (gameStateRef w) (splice1 k (pending w))
           (lastTime w) (screen w))
  end.

Definition handleKeyDown (code : string) (w : World) : World :=
  match current w with
  | None => w
  | Some cur =>
      if String.eqb code "Space" && gameOver cur then
        mkWorld (push (store w) (initGame (screen w) (draws cur)))
          (List.length (store w)) (pending w) (lastTime w) (screen w)
      else if String.eqb code "KeyP" then
        set_current (set_paused (negb (paused cur)) cur) w
      else set_current (set_keys (add (keys cur) code) cur) w
  end.

Definition handleKeyUp (code : string) (w : World) : World :=
  match current w with
  | None => w
  | Some cur => set_current (set_keys (delete (keys cur) code) cur) w
  end.

Definition handleResize (innerWidth innerHeight : number) (w : World)
    : World :=
  mkWorld (store w) (gameStateRef w) (pending w) (lastTime w)
    (mkCanvas innerWidth innerHeight).

(** One call of the frame callback by [requestAnimationFrame]. *)
Definition animationFrame (currentTime : number) (w : World) : World :=
  match current w with
  | None => w
  | Some state =>
      let deltaTime := currentTime - lastTime w in
      let (state', scheduled) :=
        gameLoop (screen w) currentTime deltaTime state in
      mkWorld (set_nth (gameStateRef w) state' (store w)) (gameStateRef w)
        (pending w ++ map (fun c => mkTimer c (gameStateRef w)) scheduled)
        currentTime (screen w)
  end.

Definition step (w : World) (e : Event) : World :=
  match e with
  | AnimationFrame currentTime => animationFrame currentTime w
  | Timeout k => fire k w
  | KeyDown code => handleKeyDown code w
  | KeyUp code => handleKeyUp code w
  | Resize innerWidth innerHeight => handleResize innerWidth innerHeight w
  end.

Definition run (w : World) (es : list Event) : World := fold_left step es w.

(** The effect body: the first state, the first wave, the first frame
    time. *)
Definition mount (canvas : Canvas) (now : number) : World :=
  let (state, scheduled) := spawnWave 1 (initGame canvas 0) in
  mkWorld [state] 0 (map (fun c => mkTimer c 0%nat) scheduled) now canvas.
End Page.

(** ** A sample [Math]

    Used to run the simulation on concrete scenes: sine and cosine are
    short Taylor polynomials, and the random stream is read off a given
    list. *)

Module Sample.
Definition cos (t : Q) : Q :=
  1 - t * t / 2 + t * t * t * t / 24 - t * t * t * t * t * t / 720.

Definition sin (t : Q) : Q :=
  t - t * t * t / 6 + t * t * t * t * t / 120
  - t * t * t * t * t * t * t / 5040.

Definition PI : Q := 355 # 113.

Definition atan (z : Q) : Q := z / (1 + 0.28 * z * z).

Definition atan2 (y x : Q) : Q :=
  if Qltb 0 x then atan (y / x)
  else if Qltb x 0 then
    (if Qltb y 0 then atan (y / x) - PI else atan (y / x) + PI)
  else if Qltb 0 y then PI / 2
  else if Qltb y 0 then - (PI / 2)
  else 0.

(** [draw l] is the random stream that returns the values of [l], then 0. *)
Definition draw (l : list Q) (n : nat) : Q := nth n l 0.

Definition math (l : list Q) : MathLib :=
  {| Mcos := cos; Msin := sin; Matan2 := atan2; MPI := PI;
     Mdraw := draw l |}.
End Sample.

(** ** Notions used in the statements *)

(** A sequence of pick-ups, applied in order. *)
Definition pickups (ks : list PowerUpType) (p : Player.t) : Player.t :=
  fold_left (fun p k => applyPowerUp k p) ks p.

(** The player after a hit that costs [damage] and opens an invulnerability
    window of [window] milliseconds. *)
Definition struck (window damage : number) (p : Player.t) : Player.t :=
  Player.set_invulnerable window
    (Player.set_health (Player.health p - damage) p).

(** The contact penalty of the body-contact pass. *)
Definition contactPenalty (s : GameState) : number := 10 + QofZ (wave s) * 2.

(** What the two damaging passes of one frame can do to the player of [s]:
    nothing, one hit by an enemy-fired bullet of [s], or one body contact. *)
Inductive frameDamage (s : GameState) : Player.t -> Prop :=
| unharmed : frameDamage s (player s)
| shot (b : Bullet.t) :
    In b (bullets s) -> Bullet.isPlayerBullet b = false ->
    Player.invulnerable (player s) <= 0 ->
    frameDamage s (struck 500 (Bullet.damage b) (player s))
| rammed :
    enemies s <> [] -> Player.invulnerable (player s) <= 0 ->
    frameDamage s (struck 1000 (contactPenalty s) (player s)).

(** The power-up that [spawnPowerUp] pushes at [pos] when its second
    random value is [pick]. *)
Definition dropped (pos : Vector2.t) (pick : Q) : PowerUp.t :=
  let type := nth (Z.to_nat (Qfloor (pick * 4))) types health in
  {| PowerUp.pos := Vector2.mk (Vector2.x pos) (Vector2.y pos);
     PowerUp.vel := Vector2.mk 0 2;
     PowerUp.radius := 10;
     PowerUp.type := type;
     PowerUp.color := colors type |}.

(** The invariant on stored health: no health above its maximum, a player
    with no health left only in a finished game, no enemy with no health
    left in the collection. *)
Definition healthy (s : GameState) : Prop :=
  Player.health (player s) <= Player.maxHealth (player s)
  /\ (Player.health (player s) <= 0 -> gameOver s = true)
  /\ Forall (fun e => 0 < Enemy.health e
                      /\ Enemy.health e <= Enemy.maxHealth e) (enemies s).

(** Damage is never negative. *)
Definition harmful (s : GameState) : Prop :=
  Forall (fun b => 0 <= Bullet.damage b) (bullets s) /\ (0 <= wave s)%Z.

(** The overlap test of the scan of enemies for a bullet. *)
Definition overlaps {M : MathLib} (b : Bullet.t) (e : Enemy.t) : bool :=
  Qltb (hypot (Vector2.x (Bullet.pos b) - Vector2.x (Enemy.pos e))
              (Vector2.y (Bullet.pos b) - Vector2.y (Enemy.pos e)))
       (fadd (Bullet.radius b) (Enemy.radius e)).

(** [e] at index [j] is the first enemy that the scan for [b] finds: the
    scan runs from the last index down. *)
Definition firstScanned {M : MathLib} (b : Bullet.t) (s : GameState)
    (j : nat) (e : Enemy.t) : Prop :=
  nth_error (enemies s) j = Some e
  /\ overlaps b e = true
  /\ forall k e', (j < k)%nat -> nth_error (enemies s) k = Some e' ->
                  overlaps b e' = false.

(** What no phase of a frame before wave management changes. *)
Definition steady (s s' : GameState) : Prop :=
  wave s' = wave s /\ waveProgress s' = waveProgress s
  /\ enemiesThisWave s' = enemiesThisWave s
  /\ paused s' = paused s /\ keys s' = keys s
  /\ Player.radius (player s') = Player.radius (player s)
  /\ Player.maxHealth (player s') = Player.maxHealth (player s).

(** What the phases that cannot hurt the player leave as it is. *)
Definition unhurt (s s' : GameState) : Prop :=
  gameOver s' = gameOver s
  /\ Player.health (player s') = Player.health (player s).

(** The player stays where it is. *)
Definition inPlace (s s' : GameState) : Prop :=
  Player.pos (player s') = Player.pos (player s).

(** A finished game has an open invulnerability window: the hit that sets
    the game-over flag also starts the countdown. *)
Definition sealed (s : GameState) : Prop :=
  gameOver s = true -> 0 < Player.invulnerable (player s).

(** Events other than the firing of a timer. *)
Definition noTimeout (e : Event) : Prop :=
  match e with Timeout _ => False | _ => True end.

(** Two states that differ at most in their particles and in the position
    in the random stream. *)
Definition cosmetic (s s' : GameState) : Prop :=
  exists ps n, s' = set_draws n (set_particles ps s).

(** *** The movement loops, one element at a time

    What an iteration of a movement loop does with the element it visits:
    [Some] of the updated element, or [None] when the iteration removes
    it. *)

Definition keep_or_drop {A : Type} (f : A -> option A) (l : list A) : list A :=
  flat_map (fun a => match f a with Some a' => [a'] | None => [] end) l.

Definition movedBullet (canvas : Canvas) (bullet : Bullet.t)
    : option Bullet.t :=
  let pos :=
    Vector2.mk
      (Vector2.x (Bullet.pos bullet) + Vector2.x (Bullet.vel bullet))
      (Vector2.y (Bullet.pos bullet) + Vector2.y (Bullet.vel bullet)) in
  if Qltb (Vector2.x pos) 0
     || Qgtb (Vector2.x pos) (width canvas)
     || Qltb (Vector2.y pos) 0
     || Qgtb (Vector2.y pos) (height canvas)
  then None
  else Some (Bullet.set_pos pos bullet).

Definition agedParticle (deltaTime : number) (particle : Particle.t)
    : option Particle.t :=
  let particle' :=
    {| Particle.pos :=
         Vector2.mk
           (Vector2.x (Particle.pos particle)
            + Vector2.x (Particle.vel particle))
           (Vector2.y (Particle.pos particle)
            + Vector2.y (Particle.vel particle));
       Particle.vel :=
         Vector2.mk (Vector2.x (Particle.vel particle) * 0.98)
                    (Vector2.y (Particle.vel particle) * 0.98);
       Particle.radius := Particle.radius particle;
       Particle.life := Particle.life particle - deltaTime / 1000;
       Particle.maxLife := Particle.maxLife particle;
       Particle.color := Particle.color particle |} in
  if Qleb (Particle.life particle') 0 then None else Some particle'.

Definition fallenPowerUp (canvas : Canvas) (powerUp : PowerUp.t)
    : option PowerUp.t :=
  let pos :=
    Vector2.mk (Vector2.x (PowerUp.pos powerUp))
      (Vector2.y (PowerUp.pos powerUp) + Vector2.y (PowerUp.vel powerUp)) in
  if Qgtb (Vector2.y pos) (height canvas + 50) then None
  else Some (PowerUp.set_pos pos powerUp).

(** A point of the canvas, borders included. *)
Definition onCanvas (canvas : Canvas) (v : Vector2.t) : Prop :=
  0 <= Vector2.x v /\ Vector2.x v <= width canvas
  /\ 0 <= Vector2.y v /\ Vector2.y v <= height canvas.

(** What the enemy loop does with the enemy it visits, for the player [p]
    of the frame. *)
Definition movedEnemy {M : MathLib} (canvas : Canvas) (currentTime : number)
    (p : Player.t) (enemy : Enemy.t) : option Enemy.t :=
  let dx := Vector2.x (Player.pos p) - Vector2.x (Enemy.pos enemy) in
  let dy := Vector2.y (Player.pos p) - Vector2.y (Enemy.pos enemy) in
  let dist := hypot dx dy in
  let vel :=
    if Qgtb dist 100 then
      Vector2.mk ((dx / dist) * Enemy.speed enemy * 0.3)
                 ((dy / dist) * Enemy.speed enemy)
    else
      Vector2.mk (Vector2.x (Enemy.vel enemy) * 0.95)
                 (Enemy.speed enemy * 0.5) in
  let pos :=
    Vector2.mk (Vector2.x (Enemy.pos enemy) + Vector2.x vel)
               (Vector2.y (Enemy.pos enemy) + Vector2.y vel) in
  let lastFired :=
    match Enemy.lastFired enemy with Some t => t | None => 0 end in
  let fires :=
    match Enemy.type enemy with
    | shooter => Qgtb (currentTime - lastFired) 1000
    | _ => false
    end in
  let enemy := Enemy.set_pos pos (Enemy.set_vel vel enemy) in
  if Qgtb (Vector2.y pos) (height canvas + 50) then None
  else Some (if fires then Enemy.set_lastFired currentTime enemy else enemy).

(** A bullet as shooter enemies fire it on wave [w]. *)
Definition enemyShot (w : Z) (b : Bullet.t) : Prop :=
  Bullet.isPlayerBullet b = false
  /\ Bullet.damage b = 5 + QofZ w
  /\ Bullet.radius b = 5.

(** The kind of enemy that a spawn callback picks for [wave] from the
    random value [rand]. *)
Definition archetype (wave : Z) (rand : Q) : EnemyType :=
  if (3 <=? wave)%Z && Qltb rand 0.3 then shooter
  else if (2 <=? wave)%Z && Qltb rand 0.5 then fast
  else if (4 <=? wave)%Z && Qltb rand 0.6 then tank
  else basic.

(** *** Restart

    A world whose pending timers all captured an earlier state object than
    the current one: none of them can add to the spawn progress of the
    current game, which is that of a fresh state. *)
Definition stalled (w : World) : Prop :=
  (gameStateRef w < List.length (store w))%nat
  /\ Forall (fun t => (closure t < gameStateRef w)%nat) (pending w)
  /\ exists cur,
       current w = Some cur /\ wave cur = 1%Z /\ waveProgress cur = 0%Z
       /\ enemiesThisWave cur = 5%Z.

(** A world with no pending timer, no enemy and an open quota. *)
Definition quiet (w : World) : Prop :=
  pending w = []
  /\ exists cur,
       current w = Some cur /\ enemies cur = []
       /\ (waveProgress cur < enemiesThisWave cur)%Z.

(** *** Spawning

    An enemy as a spawn callback scheduled for [wave] makes it. *)
Definition recruit (wave : Z) (e : Enemy.t) : Prop :=
  (exists rand, Enemy.type e = archetype wave rand)
  /\ Enemy.health e = cfg_health (configs (Enemy.type e) wave)
  /\ Enemy.maxHealth e = Enemy.health e
  /\ Enemy.speed e = cfg_speed (configs (Enemy.type e) wave)
  /\ Vector2.y (Enemy.pos e) = -30.

(** *** Pick-ups, counted by kind *)

Definition sameKind (a b : PowerUpType) : bool :=
  match a, b with
  | health, health | damage, damage | firerate, firerate | speed, speed =>
      true
  | _, _ => false
  end.

(** How many pick-ups of kind [k] the sequence [ks] holds. *)
Definition taken (k : PowerUpType) (ks : list PowerUpType) : number :=
  Qofnat (List.length (filter (sameKind k) ks)).

(** The number of pick-ups of kind [k] in [ks], and the same pick-ups taken
    kind by kind. *)
Definition times (k : PowerUpType) (ks : list PowerUpType) : nat :=
  List.length (filter (sameKind k) ks).

Definition by_kind (ks : list PowerUpType) (p : Player.t) : Player.t :=
  Nat.iter (times health ks) (applyPowerUp health)
    (Nat.iter (times damage ks) (applyPowerUp damage)
       (Nat.iter (times firerate ks) (applyPowerUp firerate)
          (Nat.iter (times speed ks) (applyPowerUp speed) p))).

(** An integer that a double holds exactly. *)
Definition whole (q : Q) : Prop :=
  exists z : Z, q == inject_Z z /\ (Z.abs z < 2 ^ 53)%Z.

(** *** What holds of every state the page can reach *)

(** The player's statistics stay within the range that the starting values
    and the clamps of the pick-ups give. *)
Definition fit (p : Player.t) : Prop :=
  Player.maxHealth p = 100 /\ Player.radius p = 15
  /\ 10 <= Player.damage p
  /\ 50 <= Player.fireRate p /\ Player.fireRate p <= 150
  /\ 5 <= Player.speed p /\ Player.speed p <= 8.

Definition sane (s : GameState) : Prop :=
  healthy s /\ harmful s /\ fit (player s)
  /\ (1 <= wave s)%Z /\ (0 <= score s)%Z /\ (0 <= enemiesKilled s)%Z
  /\ (0 <= waveProgress s)%Z.

(** Every state object allocated so far is sane, the current one exists,
    and every pending callback was scheduled for a wave from 1 on. *)
Definition saneWorld (w : World) : Prop :=
  Forall sane (store w)
  /\ (gameStateRef w < List.length (store w))%nat
  /\ Forall (fun t => (1 <= forWave (call t))%Z) (pending w).

(** *** Frames inside the invulnerability window

    Each frame of the run at the times [ts] starts, on the state the page
    has then, no earlier than the frame before and with a countdown larger
    than the time since that frame. *)
Fixpoint shielded {M : MathLib} (w : World) (ts : list number) : Prop :=
  match ts with
  | [] => True
  | t :: rest =>
      match current w with
      | None => False
      | Some cur =>
          0 <= t - lastTime w
          /\ t - lastTime w < Player.invulnerable (player cur)
          /\ shielded (animationFrame t w) rest
      end
  end.

(** *** Timers owed to a state

    The number of pending timers whose callback captured the state object
    at index [i]. *)
Definition owed (i : nat) (ts : list Timer) : nat :=
  List.length (filter (fun t => Nat.eqb (closure t) i) ts).

(** Every pending timer captured an allocated state; for every state
    object, the spawn progress and the timers still owed to it stay within
    its quota; and the quota is the one that [spawnWave] sets for the wave,
    or the one of a fresh state. *)
Definition booked (w : World) : Prop :=
  Forall (fun t => (closure t < List.length (store w))%nat) (pending w)
  /\ forall i s,
       nth_error (store w) i = Some s ->
       (waveProgress s + Z.of_nat (owed i (pending w)) <= enemiesThisWave s)%Z
       /\ (enemiesThisWave s = 5 + 2 * wave s
           \/ (wave s = 1 /\ enemiesThisWave s = 5))%Z.

(** *** The overlap tests against the player *)

(** The test of the enemy-bullet pass. *)
Definition strikes (b : Bullet.t) (p : Player.t) : bool :=
  Qltb (hypot (Vector2.x (Bullet.pos b) - Vector2.x (Player.pos p))
              (Vector2.y (Bullet.pos b) - Vector2.y (Player.pos p)))
       (fadd (Bullet.radius b) (Player.radius p)).

(** The test of the body-contact pass. *)
Definition rams (p : Player.t) (e : Enemy.t) : bool :=
  Qltb (hypot (Vector2.x (Player.pos p) - Vector2.x (Enemy.pos e))
              (Vector2.y (Player.pos p) - Vector2.y (Enemy.pos e)))
       (fadd (Player.radius p) (Enemy.radius e)).

(** ** Basic facts *)

Arguments createParticles : simpl never.
Arguments spawnPowerUp : simpl never.

(** ** Rounding *)

Lemma Qred_inject_Z (k : Z) : Qred (inject_Z k) = inject_Z k.
Proof.
  unfold Qred, inject_Z.
  pose proof (Z.ggcd_gcd k 1) as Hg.
  pose proof (Z.ggcd_correct_divisors k 1) as Hd.
  destruct (Z.ggcd k 1) as (g, (aa, bb)). cbn [fst snd] in *.
  rewrite Z.gcd_1_r in Hg. subst g. destruct Hd as [H1 H2].
  rewrite !Z.mul_1_l in *. now subst.
Qed.

Lemma fl_compat (p q : Q) : p == q -> fl p = fl q.
Proof. intros H. unfold fl. now rewrite (Qred_complete p q H). Qed.

Lemma nearest_even_nonneg (N D : Z) :
  (0 <= N)%Z -> (0 < D)%Z -> (0 <= nearest_even N D)%Z.
Proof.
  intros HN HD. unfold nearest_even.
  assert (0 <= N / D)%Z by (apply Z.div_pos; assumption).
  destruct (_ <? _)%Z; [assumption|].
  destruct (_ <? _)%Z; [lia|]. destruct (Z.even _); lia.
Qed.

Lemma scaled_pos (n d e : Z) :
  (0 < n)%Z -> (0 < d)%Z ->
  (0 < fst (scaled n d e))%Z /\ (0 < snd (scaled n d e))%Z.
Proof.
  intros Hn Hd. unfold scaled. destruct (0 <=? e)%Z eqn:E; cbn [fst snd].
  - apply Z.leb_le in E. split; [assumption|].
    apply Z.mul_pos_pos; [assumption|]. now apply Z.pow_pos_nonneg.
  - apply Z.leb_gt in E. split; [|assumption].
    apply Z.mul_pos_pos; [assumption|]. apply Z.pow_pos_nonneg; lia.
Qed.

Lemma round_at_nonneg (n d e : Z) :
  (0 < n)%Z -> (0 < d)%Z -> 0 <= round_at n d e.
Proof.
  intros Hn Hd. unfold round_at.
  destruct (scaled_pos n d e Hn Hd) as [H1 H2].
  destruct (scaled n d e) as [N D]. cbn [fst snd] in *.
  assert (Hm : (0 <= nearest_even N D)%Z)
    by (apply nearest_even_nonneg; lia).
  destruct (0 <=? e)%Z eqn:E.
  - apply Z.leb_le in E. change 0 with (inject_Z 0). rewrite <- Zle_Qle.
    apply Z.mul_nonneg_nonneg; [assumption|]. now apply Z.pow_nonneg.
  - rewrite Qred_correct. unfold Qle. cbn [Qnum Qden]. lia.
Qed.

Lemma fl_nonneg (q : Q) : 0 <= q -> 0 <= fl q.
Proof.
  intros H. unfold fl.
  assert (Hr : 0 <= Qred q) by now rewrite Qred_correct.
  destruct (Qred q) as [n d]. cbn [Qnum Qden].
  destruct n as [|n|n].
  - apply Qle_refl.
  - apply round_at_nonneg; reflexivity.
  - exfalso. unfold Qle in Hr. cbn in Hr. lia.
Qed.

Lemma round_at_integer (n e : Z) :
  (0 < n)%Z -> (e <= 0)%Z -> round_at n 1 e = inject_Z n.
Proof.
  intros Hn He. unfold round_at, scaled.
  destruct (0 <=? e)%Z eqn:E.
  - apply Z.leb_le in E. replace e with 0%Z by lia.
    change (1 * 2 ^ 0)%Z with 1%Z. unfold nearest_even.
    rewrite Z.div_1_r, Z.mod_1_r. cbn [Z.mul Z.ltb Z.compare].
    change (2 ^ 0)%Z with 1%Z. now rewrite Z.mul_1_r.
  - apply Z.leb_gt in E. unfold nearest_even.
    rewrite Z.div_1_r, Z.mod_1_r. cbn [Z.mul Z.ltb Z.compare].
    assert (Hp : (0 < 2 ^ (- e))%Z) by (apply Z.pow_pos_nonneg; lia).
    rewrite <- (Qred_complete (inject_Z n)).
    + apply Qred_inject_Z.
    + unfold Qeq, inject_Z. cbn [Qnum Qden]. rewrite Z2Pos.id by assumption.
      lia.
Qed.

Lemma exponent_integer (n : Z) :
  (0 < n < 2 ^ 53)%Z -> (exponent n 1 <= 0)%Z.
Proof.
  intros [Hn Hlt]. unfold exponent.
  assert (Z.log2 n < 53)%Z by (apply Z.log2_lt_pow2; lia).
  change (Z.log2 1) with 0%Z.
  destruct (scaled n 1 (Z.log2 n - 0 - 53)) as [N D].
  destruct (_ <=? _)%Z; lia.
Qed.

Lemma fl_int (k : Z) : (Z.abs k < 2 ^ 53)%Z -> fl (inject_Z k) = inject_Z k.
Proof.
  intros H. unfold fl.
  rewrite Qred_inject_Z.
  cbn [inject_Z Qnum Qden]. destruct k as [|p|p]; [reflexivity| |].
  - unfold round53. apply round_at_integer; [reflexivity|].
    apply exponent_integer. lia.
  - unfold round53. rewrite round_at_integer; [reflexivity|reflexivity|].
    apply exponent_integer. lia.
Qed.

Lemma fl_integer (q : Q) (k : Z) :
  q == inject_Z k -> (Z.abs k < 2 ^ 53)%Z -> fl q = inject_Z k.
Proof. intros E H. rewrite (fl_compat _ _ E). now apply fl_int. Qed.

Lemma fsqrt_compat (p q : Q) : p == q -> fsqrt p = fsqrt q.
Proof. intros H. unfold fsqrt. now rewrite (Qred_complete p q H). Qed.

Lemma fsqrt_square (c : Z) :
  (0 <= c < 2 ^ 53)%Z -> fsqrt (inject_Z (c * c)) = inject_Z c.
Proof.
  intros [H0 Hlt]. unfold fsqrt.
  rewrite Qred_inject_Z.
  cbn [inject_Z Qnum Qden].
  destruct c as [|p|p]; [reflexivity| |lia].
  change (Z.pos p * Z.pos p)%Z with (Z.pos (p * p)).
  cbv beta iota zeta.
  set (k := Z.max 0 ((122 - Z.log2 (Z.pos (p * p)) + Z.log2 1) / 2)).
  assert (Hk : (0 <= k)%Z) by apply Z.le_max_l.
  assert (Hp : (0 < 2 ^ k)%Z) by now apply Z.pow_pos_nonneg.
  assert (Hsq : (Z.pos (p * p) * 4 ^ k = (Z.pos p * 2 ^ k) * (Z.pos p * 2 ^ k))%Z).
  { change 4%Z with (2 * 2)%Z. rewrite Z.pow_mul_l.
    change (Z.pos (p * p)) with (Z.pos p * Z.pos p)%Z. ring. }
  rewrite Z.div_1_r, Z.mod_1_r, Hsq, Z.sqrt_square by lia.
  rewrite !Z.eqb_refl. cbn [andb].
  apply fl_integer; [|lia].
  unfold Qeq, inject_Z. cbn [Qnum Qden].
  rewrite Z2Pos.id by lia. ring.
Qed.

Lemma hypot_exact (dx dy : Q) (a b c : Z) :
  dx == inject_Z a -> dy == inject_Z b ->
  (a * a + b * b = c * c)%Z -> (0 <= c < 2 ^ 26)%Z ->
  hypot dx dy = inject_Z c.
Proof.
  intros Ha Hb Hc [H0 Hlt]. unfold hypot, fadd, fmul. cbv zeta.
  assert (Hcc : (c * c < 2 ^ 52)%Z).
  { change (2 ^ 52)%Z with (2 ^ 26 * 2 ^ 26)%Z. nia. }
  assert (Haa : (0 <= a * a <= c * c)%Z) by nia.
  assert (Hbb : (0 <= b * b <= c * c)%Z) by nia.
  assert (Hab : (Z.abs a < 2 ^ 53)%Z) by nia.
  assert (Hbb' : (Z.abs b < 2 ^ 53)%Z) by nia.
  rewrite (fl_integer dx a Ha Hab), (fl_integer dy b Hb Hbb').
  rewrite (fl_integer (inject_Z a * inject_Z a) (a * a))
    by (rewrite ?inject_Z_mult; try reflexivity; lia).
  rewrite (fl_integer (inject_Z b * inject_Z b) (b * b))
    by (rewrite ?inject_Z_mult; try reflexivity; lia).
  rewrite (fl_integer (inject_Z (a * a) + inject_Z (b * b)) (c * c))
    by (rewrite <- ?inject_Z_plus, ?Hc; try reflexivity; lia).
  apply fsqrt_square. lia.
Qed.

Lemma award_nonneg (w : Z) (m : Q) :
  (0 <= w)%Z -> 0 <= m -> (0 <= award w m)%Z.
Proof.
  intros Hw Hm. unfold award, fmul, fdiv.
  change 0%Z with (Qfloor 0). apply Qfloor_resp_le.
  apply fl_nonneg. apply Qmult_le_0_compat; apply fl_nonneg.
  - apply Qmult_le_0_compat; [discriminate|].
    unfold QofZ. change 0 with (inject_Z 0). now rewrite <- Zle_Qle.
  - apply Qle_shift_div_l; [reflexivity|]. now rewrite Qmult_0_l.
Qed.

(** Where 20 divides [maxHealth], nothing is rounded. *)
Lemma award_exact (w k : Z) (m : Q) :
  m == inject_Z (20 * k) -> (0 <= w)%Z -> (0 <= k)%Z ->
  (10 * w * k < 2 ^ 53)%Z -> (10 * w < 2 ^ 53)%Z -> (k < 2 ^ 53)%Z ->
  award w m = (10 * w * k)%Z.
Proof.
  intros Hm Hw Hk Hlt Hw' Hk'. unfold award, fmul, fdiv, QofZ.
  rewrite (fl_integer (10 * inject_Z w) (10 * w))
    by (rewrite ?inject_Z_mult; try reflexivity; lia).
  rewrite (fl_integer (m / 20) k).
  - rewrite (fl_integer (inject_Z (10 * w) * inject_Z k) (10 * w * k))
      by (rewrite <- ?inject_Z_mult; try reflexivity; lia).
    apply Qfloor_Z.
  - rewrite Hm, inject_Z_mult. field.
  - lia.
Qed.

Lemma fl_opp (q : Q) : fl (- q) = - fl q.
Proof.
  unfold fl. rewrite Qred_opp.
  destruct (Qred q) as [n d]. cbn [Qopp Qnum Qden].
  destruct n as [|n|n]; cbn [Z.opp]; try reflexivity.
  destruct (round53 (Z.pos n) (Z.pos d)) as [a b]. unfold Qopp.
  cbn [Qnum Qden]. now rewrite Z.opp_involutive.
Qed.

(** The distance does not depend on which centre is subtracted from
    which. *)
Lemma hypot_sym (x1 y1 x2 y2 : Q) :
  hypot (x1 - x2) (y1 - y2) = hypot (x2 - x1) (y2 - y1).
Proof.
  unfold hypot, fadd, fmul. cbv zeta.
  replace (fl (x2 - x1)) with (- fl (x1 - x2))
    by (rewrite <- fl_opp; apply fl_compat; ring).
  replace (fl (y2 - y1)) with (- fl (y1 - y2))
    by (rewrite <- fl_opp; apply fl_compat; ring).
  f_equal. f_equal. f_equal; apply fl_compat; ring.
Qed.

Lemma fadd_int (r1 r2 : Q) (a b : Z) :
  r1 == inject_Z a -> r2 == inject_Z b -> (Z.abs (a + b) < 2 ^ 53)%Z ->
  fadd r1 r2 = inject_Z (a + b).
Proof.
  intros Ha Hb H. unfold fadd. apply fl_integer; [|exact H].
  now rewrite Ha, Hb, inject_Z_plus.
Qed.

(** From here on the rounding is used through these laws, or evaluated on
    concrete numbers. *)
Opaque fl fsqrt.

Lemma Qltb_iff (a b : Q) : Qltb a b = true <-> a < b.
Proof.
  unfold Qltb. rewrite negb_true_iff, <- not_true_iff_false, Qle_bool_iff.
  split; [apply Qnot_le_lt | apply Qlt_not_le].
Qed.

Lemma Qltb_false_iff (a b : Q) : Qltb a b = false <-> b <= a.
Proof.
  unfold Qltb. rewrite negb_false_iff. apply Qle_bool_iff.
Qed.

Lemma Qgtb_iff (a b : Q) : Qgtb a b = true <-> b < a.
Proof. apply Qltb_iff. Qed.

Lemma Qleb_iff (a b : Q) : Qleb a b = true <-> a <= b.
Proof. apply Qle_bool_iff. Qed.

Lemma Qleb_false_iff (a b : Q) : Qleb a b = false <-> b < a.
Proof.
  unfold Qleb. rewrite <- not_true_iff_false, Qle_bool_iff.
  split; [apply Qnot_le_lt | apply Qlt_not_le].
Qed.

Lemma for_down_ind {St : Type} (P : St -> Prop) (body : nat -> St -> St) :
  (forall i s, P s -> P (body i s)) ->
  forall n s, P s -> P (for_down n body s).
Proof.
  intros Hbody n; induction n as [|n IH]; intros s Hs; simpl; auto.
Qed.

Lemma for_down_break_ind {St : Type} (P : St -> Prop)
    (body : nat -> St -> St * bool) :
  (forall j s, P s -> P (fst (body j s))) ->
  forall n s, P s -> P (for_down_break n body s).
Proof.
  intros Hbody n; induction n as [|n IH]; intros s Hs; simpl; auto.
  specialize (Hbody n s Hs). destruct (body n s) as [s' stop]; simpl in *.
  destruct stop; auto.
Qed.

Lemma Mrandom_range {M : MathLib} (n : nat) :
  0 <= Mrandom n /\ Mrandom n < 1.
Proof.
  unfold Mrandom.
  pose proof (Qfloor_le (Mdraw n)) as Hle.
  pose proof (Qlt_floor (Mdraw n)) as Hlt.
  rewrite inject_Z_plus in Hlt.
  change (inject_Z 1) with 1 in Hlt.
  split; lra.
Qed.

(** The index that [spawnPowerUp] computes is an index of [types]. *)
Lemma types_index_in_range {M : MathLib} (n : nat) :
  (Z.to_nat (Qfloor (Mrandom n * 4)) < List.length types)%nat.
Proof.
  destruct (Mrandom_range n) as [H0 H1].
  assert (Hlo : (0 <= Qfloor (Mrandom n * 4))%Z).
  { change 0%Z with (Qfloor 0). apply Qfloor_resp_le. lra. }
  assert (Hhi : (Qfloor (Mrandom n * 4) < 4)%Z).
  { rewrite Zlt_Qlt. eapply Qle_lt_trans; [apply Qfloor_le|].
    change (inject_Z 4) with 4. lra. }
  cbn [types List.length]. lia.
Qed.

Lemma cosmetic_refl s : cosmetic s s.
Proof. exists (particles s), (draws s). now destruct s. Qed.

Lemma cosmetic_trans s1 s2 s3 :
  cosmetic s1 s2 -> cosmetic s2 s3 -> cosmetic s1 s3.
Proof.
  intros (ps & n & ->) (ps' & n' & ->). now exists ps', n'.
Qed.

Section Properties.
Context {M : MathLib}.

Lemma createParticles_from_cosmetic todo : forall i count pos color s,
  cosmetic s (createParticles_from todo i count pos color s).
Proof.
  induction todo as [|todo IH]; intros i count pos color s; simpl.
  - apply cosmetic_refl.
  - eapply cosmetic_trans; [|apply IH].
    now eexists _, _.
Qed.

Lemma createParticles_cosmetic pos color count s :
  cosmetic s (createParticles pos color count s).
Proof. apply createParticles_from_cosmetic. Qed.

Lemma createParticles_eq pos color count s :
  exists ps n,
    createParticles pos color count s = set_draws n (set_particles ps s).
Proof. apply createParticles_cosmetic. Qed.

End Properties.

(** ** Arrays and cosmetic changes *)

Lemma nth_error_lt {A : Type} (l : list A) (i : nat) (v : A) :
  nth_error l i = Some v -> (i < List.length l)%nat.
Proof. intros H. apply nth_error_Some. congruence. Qed.

Lemma splice1_length {A : Type} (l : list A) (i : nat) :
  (i < List.length l)%nat ->
  List.length (splice1 i l) = pred (List.length l).
Proof.
  intros H. unfold splice1.
  rewrite length_app, length_firstn, length_skipn. lia.
Qed.

Lemma splice1_neq {A : Type} (l : list A) (i : nat) (v : A) :
  nth_error l i = Some v -> splice1 i l <> l.
Proof.
  intros H E. apply nth_error_lt in H.
  pose proof (splice1_length l i H) as HL. rewrite E in HL. lia.
Qed.

Lemma In_splice1 {A : Type} (l : list A) (i : nat) (v : A) :
  In v (splice1 i l) -> In v l.
Proof.
  revert l; induction i as [|i IH]; intros [|a l]; simpl; auto.
  unfold splice1 in *; simpl. intros [H|H]; auto.
Qed.

Lemma cosmetic_fields s s' :
  cosmetic s s' ->
  player s' = player s /\ enemies s' = enemies s /\ bullets s' = bullets s
  /\ powerUps s' = powerUps s /\ score s' = score s /\ wave s' = wave s
  /\ waveProgress s' = waveProgress s
  /\ enemiesThisWave s' = enemiesThisWave s
  /\ enemiesKilled s' = enemiesKilled s /\ gameOver s' = gameOver s
  /\ paused s' = paused s /\ keys s' = keys s.
Proof. intros (ps & n & ->). simpl. repeat split. Qed.

Ltac fields H :=
  apply cosmetic_fields in H;
  cbn [player enemies bullets powerUps score wave waveProgress
       enemiesThisWave enemiesKilled gameOver paused keys
       set_player set_enemies set_bullets set_powerUps set_score set_wave
       set_waveProgress set_enemiesThisWave set_enemiesKilled set_gameOver
       set_paused set_keys] in H;
  let Hp := fresh "Hplayer" in
  let He := fresh "Henemies" in
  let Hb := fresh "Hbullets" in
  let Hu := fresh "HpowerUps" in
  let Hsc := fresh "Hscore" in
  let Hw := fresh "Hwave" in
  let Hwp := fresh "HwaveProgress" in
  let Het := fresh "HenemiesThisWave" in
  let Hek := fresh "HenemiesKilled" in
  let Hgo := fresh "HgameOver" in
  let Hpa := fresh "Hpaused" in
  let Hk := fresh "Hkeys" in
  destruct H as (Hp & He & Hb & Hu & Hsc & Hw & Hwp & Het & Hek & Hgo
                 & Hpa & Hk).

Ltac cosmetics :=
  repeat match goal with
  | |- context [createParticles ?pos ?c ?k ?s] =>
      let ps := fresh "ps" in
      let n := fresh "n" in
      let E := fresh "E" in
      destruct (createParticles_eq pos c k s) as (ps & n & E);
      rewrite E in *; clear E
  end.

(** ** The overlap tests of the four collision passes *)

Section Collision.
Context {M : MathLib}.

Lemma bulletVsPlayer_miss i s :
  (forall b, nth_error (bullets s) i = Some b ->
     Bullet.isPlayerBullet b = true
     \/ Qltb (hypot
                (Vector2.x (Bullet.pos b) - Vector2.x (Player.pos (player s)))
                (Vector2.y (Bullet.pos b) - Vector2.y (Player.pos (player s))))
             (fadd (Bullet.radius b) (Player.radius (player s))) = false
     \/ Qleb (Player.invulnerable (player s)) 0 = false) ->
  bulletVsPlayer i s = s.
Proof.
  intros H. unfold bulletVsPlayer.
  destruct (nth_error (bullets s) i) as [b|]; [|reflexivity].
  destruct (H b eq_refl) as [E|[E|E]]; rewrite E; try reflexivity.
  - destruct (Bullet.isPlayerBullet b); reflexivity.
  - destruct (Bullet.isPlayerBullet b); [reflexivity|].
    now rewrite andb_false_r.
Qed.

Lemma bulletVsPlayer_hit i s b :
  nth_error (bullets s) i = Some b ->
  Bullet.isPlayerBullet b = false ->
  Qltb (hypot (Vector2.x (Bullet.pos b) - Vector2.x (Player.pos (player s)))
              (Vector2.y (Bullet.pos b) - Vector2.y (Player.pos (player s))))
       (fadd (Bullet.radius b) (Player.radius (player s))) = true ->
  Qleb (Player.invulnerable (player s)) 0 = true ->
  cosmetic
    (set_gameOver
       (Qleb (Player.health (player s) - Bullet.damage b) 0 || gameOver s)
       (set_bullets (splice1 i (bullets s))
          (set_player
             (Player.set_invulnerable 500
                (Player.set_health
                   (Player.health (player s) - Bullet.damage b) (player s)))
             s)))
    (bulletVsPlayer i s).
Proof.
  intros Hb Hown Hd Hinv. unfold bulletVsPlayer.
  rewrite Hb, Hown, Hd, Hinv.
  cbn [andb Player.health Player.set_invulnerable Player.set_health].
  destruct (Qleb (Player.health (player s) - Bullet.damage b) 0);
    cosmetics; destruct s; eexists _, _; reflexivity.
Qed.

Lemma playerVsEnemy_miss i s :
  (forall e, nth_error (enemies s) i = Some e ->
     Qltb (hypot
             (Vector2.x (Player.pos (player s)) - Vector2.x (Enemy.pos e))
             (Vector2.y (Player.pos (player s)) - Vector2.y (Enemy.pos e)))
          (fadd (Player.radius (player s)) (Enemy.radius e)) = false
     \/ Qleb (Player.invulnerable (player s)) 0 = false) ->
  playerVsEnemy i s = s.
Proof.
  intros H. unfold playerVsEnemy.
  destruct (nth_error (enemies s) i) as [e|]; [|reflexivity].
  destruct (H e eq_refl) as [E|E]; rewrite E; try reflexivity.
  now rewrite andb_false_r.
Qed.

Lemma playerVsEnemy_hit i s e :
  nth_error (enemies s) i = Some e ->
  Qltb (hypot (Vector2.x (Player.pos (player s)) - Vector2.x (Enemy.pos e))
              (Vector2.y (Player.pos (player s)) - Vector2.y (Enemy.pos e)))
       (fadd (Player.radius (player s)) (Enemy.radius e)) = true ->
  Qleb (Player.invulnerable (player s)) 0 = true ->
  cosmetic
    (set_gameOver
       (Qleb (Player.health (player s) - (10 + QofZ (wave s) * 2)) 0
        || gameOver s)
       (set_enemies (splice1 i (enemies s))
          (set_player
             (Player.set_invulnerable 1000
                (Player.set_health
                   (Player.health (player s) - (10 + QofZ (wave s) * 2))
                   (player s)))
             s)))
    (playerVsEnemy i s).
Proof.
  intros He Hd Hinv. unfold playerVsEnemy.
  rewrite He, Hd, Hinv.
  cbn [andb Player.health Player.set_invulnerable Player.set_health].
  destruct (Qleb (Player.health (player s) - (10 + QofZ (wave s) * 2)) 0);
    cosmetics; destruct s; eexists _, _; reflexivity.
Qed.

Lemma playerVsPowerUp_miss i s :
  (forall u, nth_error (powerUps s) i = Some u ->
     Qltb (hypot
             (Vector2.x (Player.pos (player s)) - Vector2.x (PowerUp.pos u))
             (Vector2.y (Player.pos (player s)) - Vector2.y (PowerUp.pos u)))
          (fadd (Player.radius (player s)) (PowerUp.radius u)) = false) ->
  playerVsPowerUp i s = s.
Proof.
  intros H. unfold playerVsPowerUp.
  destruct (nth_error (powerUps s) i) as [u|]; [|reflexivity].
  now rewrite (H u eq_refl).
Qed.

Lemma playerVsPowerUp_hit i s u :
  nth_error (powerUps s) i = Some u ->
  Qltb (hypot (Vector2.x (Player.pos (player s)) - Vector2.x (PowerUp.pos u))
              (Vector2.y (Player.pos (player s)) - Vector2.y (PowerUp.pos u)))
       (fadd (Player.radius (player s)) (PowerUp.radius u)) = true ->
  cosmetic
    (set_powerUps (splice1 i (powerUps s))
       (set_player (applyPowerUp (PowerUp.type u) (player s)) s))
    (playerVsPowerUp i s).
Proof.
  intros Hu Hd. unfold playerVsPowerUp.
  rewrite Hu, Hd. cosmetics. destruct s; eexists _, _; reflexivity.
Qed.

End Collision.

Section CollisionTest.
Context {M : MathLib}.

Lemma Qltb_boundary (a b : Q) : a == b -> Qltb a b = false.
Proof. intros H. apply Qltb_false_iff. rewrite H. apply Qle_refl. Qed.

Lemma cosmetic_changes_bullets s t s' :
  cosmetic t s' -> bullets t <> bullets s -> s' <> s.
Proof.
  intros Hc Hne E. subst s'.
  apply cosmetic_fields in Hc. apply Hne. symmetry. apply Hc.
Qed.

Lemma cosmetic_changes_enemies s t s' :
  cosmetic t s' -> enemies t <> enemies s -> s' <> s.
Proof.
  intros Hc Hne E. subst s'.
  apply cosmetic_fields in Hc. apply Hne. symmetry. apply Hc.
Qed.

Lemma cosmetic_changes_powerUps s t s' :
  cosmetic t s' -> powerUps t <> powerUps s -> s' <> s.
Proof.
  intros Hc Hne E. subst s'.
  apply cosmetic_fields in Hc. apply Hne. symmetry. apply Hc.
Qed.

(** C8, in the form the code satisfies: each of the four overlap tests of
    the resolver succeeds exactly when the distance [D] that the code
    computes between the two centres, [Math.sqrt(dx * dx + dy * dy)] with
    every operation rounded to a double, is strictly below the computed
    sum of the radii, and fails when that [D] equals the sum.  The
    bullet-enemy test is observed by the [break] of the scan, the other
    tests by a change of the state; the two tests against the player are
    combined by the code with the condition that the player is not
    invulnerable.  The computed distance is the distance itself where
    the offsets and the distance are integers below 2^26, it is the same
    from either centre, and the sum of two integer radii is exact. *)
Theorem C8_collision_strict (s : GameState) (i j : nat) :
  (forall b e, nth_error (enemies s) j = Some e ->
     let D := hypot (Vector2.x (Bullet.pos b) - Vector2.x (Enemy.pos e))
                    (Vector2.y (Bullet.pos b) - Vector2.y (Enemy.pos e)) in
     (snd (hitEnemy i b j s) = true
      <-> D < fadd (Bullet.radius b) (Enemy.radius e))
     /\ (D == fadd (Bullet.radius b) (Enemy.radius e) ->
         hitEnemy i b j s = (s, false)))
  /\ (forall b, nth_error (bullets s) i = Some b ->
      Bullet.isPlayerBullet b = false ->
      let p := player s in
      let D := hypot (Vector2.x (Bullet.pos b) - Vector2.x (Player.pos p))
                     (Vector2.y (Bullet.pos b) - Vector2.y (Player.pos p)) in
      (bulletVsPlayer i s <> s
       <-> D < fadd (Bullet.radius b) (Player.radius p)
           /\ Player.invulnerable p <= 0)
      /\ (D == fadd (Bullet.radius b) (Player.radius p) ->
          bulletVsPlayer i s = s))
  /\ (forall e, nth_error (enemies s) j = Some e ->
      let p := player s in
      let D := hypot (Vector2.x (Player.pos p) - Vector2.x (Enemy.pos e))
                     (Vector2.y (Player.pos p) - Vector2.y (Enemy.pos e)) in
      (playerVsEnemy j s <> s
       <-> D < fadd (Player.radius p) (Enemy.radius e)
           /\ Player.invulnerable p <= 0)
      /\ (D == fadd (Player.radius p) (Enemy.radius e) ->
          playerVsEnemy j s = s))
  /\ (forall u, nth_error (powerUps s) i = Some u ->
      let p := player s in
      let D := hypot (Vector2.x (Player.pos p) - Vector2.x (PowerUp.pos u))
                     (Vector2.y (Player.pos p) - Vector2.y (PowerUp.pos u)) in
      (playerVsPowerUp i s <> s
       <-> D < fadd (Player.radius p) (PowerUp.radius u))
      /\ (D == fadd (Player.radius p) (PowerUp.radius u) ->
          playerVsPowerUp i s = s))
  /\ (forall (dx dy : Q) (a b c : Z),
        dx == inject_Z a -> dy == inject_Z b ->
        (a * a + b * b = c * c)%Z -> (0 <= c < 2 ^ 26)%Z ->
        hypot dx dy = inject_Z c)
  /\ (forall x1 y1 x2 y2 : Q,
        hypot (x1 - x2) (y1 - y2) = hypot (x2 - x1) (y2 - y1))
  /\ (forall (r1 r2 : Q) (a b : Z),
        r1 == inject_Z a -> r2 == inject_Z b ->
        (Z.abs (a + b) < 2 ^ 53)%Z ->
        fadd r1 r2 = inject_Z (a + b)).
Proof.
  repeat apply conj.
  - intros b e He D. unfold hitEnemy. rewrite He. fold D.
    destruct (Qltb D (fadd (Bullet.radius b) (Enemy.radius e))) eqn:E.
    + apply Qltb_iff in E. cbn [snd]. split; [tauto|].
      intros HD. rewrite HD in E. exfalso. revert E. apply Qlt_irrefl.
    + cbn [snd]. split; [|reflexivity]. split; [discriminate|].
      intros HD. apply Qltb_iff in HD. congruence.
  - intros b Hb Hown p D. split; [split|].
    + intros Hne.
      destruct (Qltb D (fadd (Bullet.radius b) (Player.radius p))) eqn:E;
        [destruct (Qleb (Player.invulnerable p) 0) eqn:E'|].
      * split; [now apply Qltb_iff | now apply Qleb_iff].
      * exfalso. apply Hne, bulletVsPlayer_miss. intros b' Hb'.
        right; right. exact E'.
      * exfalso. apply Hne, bulletVsPlayer_miss. intros b' Hb'.
        replace b' with b by congruence. right; left. exact E.
    + intros [HD Hinv]. apply Qltb_iff in HD. apply Qleb_iff in Hinv.
      eapply cosmetic_changes_bullets;
        [eapply bulletVsPlayer_hit; eauto|].
      cbn [bullets set_gameOver set_bullets]. eapply splice1_neq; eauto.
    + intros HD. apply bulletVsPlayer_miss. intros b' Hb'.
      right; left. replace b' with b by congruence.
      apply Qltb_boundary. exact HD.
  - intros e He p D. split; [split|].
    + intros Hne.
      destruct (Qltb D (fadd (Player.radius p) (Enemy.radius e))) eqn:E;
        [destruct (Qleb (Player.invulnerable p) 0) eqn:E'|].
      * split; [now apply Qltb_iff | now apply Qleb_iff].
      * exfalso. apply Hne, playerVsEnemy_miss. intros e' He'.
        right. exact E'.
      * exfalso. apply Hne, playerVsEnemy_miss. intros e' He'.
        replace e' with e by congruence. left. exact E.
    + intros [HD Hinv]. apply Qltb_iff in HD. apply Qleb_iff in Hinv.
      eapply cosmetic_changes_enemies;
        [eapply playerVsEnemy_hit; eauto|].
      cbn [enemies set_gameOver set_enemies]. eapply splice1_neq; eauto.
    + intros HD. apply playerVsEnemy_miss. intros e' He'.
      left. replace e' with e by congruence.
      apply Qltb_boundary. exact HD.
  - intros u Hu p D. split; [split|].
    + intros Hne.
      destruct (Qltb D (fadd (Player.radius p) (PowerUp.radius u))) eqn:E.
      * now apply Qltb_iff.
      * exfalso. apply Hne, playerVsPowerUp_miss. intros u' Hu'.
        replace u' with u by congruence. exact E.
    + intros HD. apply Qltb_iff in HD.
      eapply cosmetic_changes_powerUps;
        [eapply playerVsPowerUp_hit; eauto|].
      cbn [powerUps set_powerUps]. eapply splice1_neq; eauto.
    + intros HD. apply playerVsPowerUp_miss. intros u' Hu'.
      replace u' with u by congruence.
      apply Qltb_boundary. exact HD.
  - apply hypot_exact.
  - apply hypot_sym.
  - apply fadd_int.
Qed.

End CollisionTest.

(** ** Power-up effects *)

Section PowerUps.
Context {M : MathLib}.

(** An iteration of the power-up pass that changes the state is a pick-up:
    it stores the player that the [switch] computes. *)
Lemma playerVsPowerUp_cases i s :
  playerVsPowerUp i s = s
  \/ exists u,
       nth_error (powerUps s) i = Some u
       /\ player (playerVsPowerUp i s)
          = applyPowerUp (PowerUp.type u) (player s)
       /\ powerUps (playerVsPowerUp i s) = splice1 i (powerUps s).
Proof.
  destruct (nth_error (powerUps s) i) as [u|] eqn:Hu.
  2:{ left. apply playerVsPowerUp_miss. intros u Hu'. congruence. }
  destruct (Qltb
        (hypot (Vector2.x (Player.pos (player s)) - Vector2.x (PowerUp.pos u))
           (Vector2.y (Player.pos (player s)) - Vector2.y (PowerUp.pos u)))
        (fadd (Player.radius (player s)) (PowerUp.radius u))) eqn:Hd.
  2:{ left. apply playerVsPowerUp_miss. intros u' Hu'.
      replace u' with u by congruence. exact Hd. }
  right. exists u. split; [reflexivity|].
  pose proof (playerVsPowerUp_hit i s u Hu Hd) as Hc. fields Hc.
  now split.
Qed.

Lemma applyPowerUp_firerate_floor (p : Player.t) :
  50 <= Player.fireRate (applyPowerUp firerate p).
Proof. simpl. apply Q.le_max_l. Qed.

Lemma applyPowerUp_speed_cap (p : Player.t) :
  Player.speed (applyPowerUp speed p) <= 8.
Proof. simpl. apply Q.le_min_l. Qed.

Lemma applyPowerUp_health_cap (p : Player.t) :
  Player.health (applyPowerUp health p) <= Player.maxHealth p.
Proof. simpl. apply Q.le_min_l. Qed.

(** A pick-up of any kind keeps a fire interval that is at least 50 and a
    speed that is at most 8. *)
Lemma applyPowerUp_keeps_clamps (k : PowerUpType) (p : Player.t) :
  (50 <= Player.fireRate p -> 50 <= Player.fireRate (applyPowerUp k p))
  /\ (Player.speed p <= 8 -> Player.speed (applyPowerUp k p) <= 8).
Proof.
  destruct k; simpl; split; intros H; auto;
    [apply Q.le_max_l | apply Q.le_min_l].
Qed.

Lemma pickups_keep_clamps (ks : list PowerUpType) : forall p,
  50 <= Player.fireRate p -> Player.speed p <= 8 ->
  50 <= Player.fireRate (pickups ks p) /\ Player.speed (pickups ks p) <= 8.
Proof.
  induction ks as [|k ks IH]; intros p Hf Hs; simpl; [now split|].
  destruct (applyPowerUp_keeps_clamps k p) as [Hf' Hs']. apply IH; auto.
Qed.

(** C7: after any positive number of fire-rate pick-ups the fire interval is
    at least 50, after any positive number of speed pick-ups the speed is at
    most 8, whatever the starting values; one fire-rate pick-up stores
    max(50, fireRate - 15), one speed pick-up stores min(8, speed + 0.3) and
    one health pick-up stores min(maxHealth, health + 20), which is at most
    maxHealth; and what an iteration of the power-up pass stores on a
    pick-up is the result of that [switch]. *)
Theorem C7_powerup_clamps (p : Player.t) (n : nat) :
  (forall i s,
     playerVsPowerUp i s = s
     \/ exists u,
          nth_error (powerUps s) i = Some u
          /\ player (playerVsPowerUp i s)
             = applyPowerUp (PowerUp.type u) (player s)
          /\ powerUps (playerVsPowerUp i s) = splice1 i (powerUps s))
  /\ 50 <= Player.fireRate (Nat.iter (S n) (applyPowerUp firerate) p)
  /\ Player.speed (Nat.iter (S n) (applyPowerUp speed) p) <= 8
  /\ Player.fireRate (applyPowerUp firerate p)
     = Qmax 50 (Player.fireRate p - 15)
  /\ Player.speed (applyPowerUp speed p) = Qmin 8 (Player.speed p + 0.3)
  /\ Player.health (applyPowerUp health p)
     = Qmin (Player.maxHealth p) (Player.health p + 20)
  /\ Player.health (applyPowerUp health p) <= Player.maxHealth p
  /\ Player.maxHealth (applyPowerUp health p) = Player.maxHealth p.
Proof.
  split; [apply playerVsPowerUp_cases|].
  repeat split.
  - simpl. apply applyPowerUp_firerate_floor.
  - simpl. apply applyPowerUp_speed_cap.
  - apply applyPowerUp_health_cap.
Qed.

End PowerUps.

(** ** Damage to the player *)

Section PlayerDamage.
Context {M : MathLib}.

Lemma for_down_fix {St : Type} (body : nat -> St -> St) (s : St) :
  (forall i, body i s = s) -> forall n, for_down n body s = s.
Proof.
  intros H n; induction n as [|n IH]; simpl; [reflexivity|].
  now rewrite H.
Qed.

(** A loop in which only the iteration at [i] does anything. *)
Lemma for_down_at {St : Type} (body : nat -> St -> St) (s : St) (i : nat) :
  (forall k, body k (body i s) = body i s) ->
  forall n, (i < n)%nat ->
    (forall j, (i < j < n)%nat -> body j s = s) ->
    for_down n body s = body i s.
Proof.
  intros Hfix n. induction n as [|n IH]; intros Hi Hj; [lia|].
  cbn [for_down]. destruct (Nat.eq_dec i n) as [->|Hne].
  - now apply for_down_fix.
  - rewrite (Hj n) by lia. apply IH; [lia|]. intros j Hjn. apply Hj. lia.
Qed.

(** One iteration of the enemy-bullet pass either changes nothing or is a
    hit by an enemy-fired bullet on a player that is not invulnerable. *)
Lemma bulletVsPlayer_cases i s :
  bulletVsPlayer i s = s
  \/ exists b,
       nth_error (bullets s) i = Some b
       /\ Bullet.isPlayerBullet b = false
       /\ Player.invulnerable (player s) <= 0
       /\ cosmetic
            (set_gameOver
               (Qleb (Player.health (player s) - Bullet.damage b) 0
                || gameOver s)
               (set_bullets (splice1 i (bullets s))
                  (set_player (struck 500 (Bullet.damage b) (player s)) s)))
            (bulletVsPlayer i s).
Proof.
  destruct (nth_error (bullets s) i) as [b|] eqn:Hb.
  2:{ left. apply bulletVsPlayer_miss. intros b Hb'. congruence. }
  destruct (Bullet.isPlayerBullet b) eqn:Hown.
  { left. apply bulletVsPlayer_miss. intros b' Hb'.
    left. congruence. }
  destruct (Qleb (Player.invulnerable (player s)) 0) eqn:Hinv.
  2:{ left. apply bulletVsPlayer_miss. intros b' Hb'. now right; right. }
  match goal with
  | |- _ \/ exists b, _ /\ _ /\ _ /\ cosmetic _ _ =>
      destruct (Qltb
        (hypot (Vector2.x (Bullet.pos b) - Vector2.x (Player.pos (player s)))
           (Vector2.y (Bullet.pos b) - Vector2.y (Player.pos (player s))))
        (fadd (Bullet.radius b) (Player.radius (player s)))) eqn:Hd
  end.
  2:{ left. apply bulletVsPlayer_miss. intros b' Hb'.
      replace b' with b by congruence. now right; left. }
  right. exists b. repeat split; auto.
  - now apply Qleb_iff.
  - now apply bulletVsPlayer_hit.
Qed.

Lemma playerVsEnemy_cases i s :
  playerVsEnemy i s = s
  \/ exists e,
       nth_error (enemies s) i = Some e
       /\ Player.invulnerable (player s) <= 0
       /\ cosmetic
            (set_gameOver
               (Qleb (Player.health (player s) - contactPenalty s) 0
                || gameOver s)
               (set_enemies (splice1 i (enemies s))
                  (set_player (struck 1000 (contactPenalty s) (player s)) s)))
            (playerVsEnemy i s).
Proof.
  destruct (nth_error (enemies s) i) as [e|] eqn:He.
  2:{ left. apply playerVsEnemy_miss. intros e He'. congruence. }
  destruct (Qleb (Player.invulnerable (player s)) 0) eqn:Hinv.
  2:{ left. apply playerVsEnemy_miss. intros e' He'. now right. }
  destruct (Qltb
        (hypot (Vector2.x (Player.pos (player s)) - Vector2.x (Enemy.pos e))
           (Vector2.y (Player.pos (player s)) - Vector2.y (Enemy.pos e)))
        (fadd (Player.radius (player s)) (Enemy.radius e))) eqn:Hd.
  2:{ left. apply playerVsEnemy_miss. intros e' He'.
      replace e' with e by congruence. now left. }
  right. exists e. repeat split; auto.
  - now apply Qleb_iff.
  - now apply playerVsEnemy_hit with (e := e).
Qed.

Lemma invulnerable_blocks_bullet i s :
  0 < Player.invulnerable (player s) -> bulletVsPlayer i s = s.
Proof.
  intros H. apply bulletVsPlayer_miss. intros b _. right; right.
  now apply Qleb_false_iff.
Qed.

Lemma invulnerable_blocks_body i s :
  0 < Player.invulnerable (player s) -> playerVsEnemy i s = s.
Proof.
  intros H. apply playerVsEnemy_miss. intros e _. right.
  now apply Qleb_false_iff.
Qed.

Lemma invulnerable_blocks_bullets s :
  0 < Player.invulnerable (player s) -> bulletsVsPlayer s = s.
Proof.
  intros H. apply for_down_fix. intros i.
  now apply invulnerable_blocks_bullet.
Qed.

Lemma invulnerable_blocks_bodies s :
  0 < Player.invulnerable (player s) -> playerVsEnemies s = s.
Proof.
  intros H. apply for_down_fix. intros i.
  now apply invulnerable_blocks_body.
Qed.

End PlayerDamage.

Section OneHitPerFrame.
Context {M : MathLib}.

Lemma struck_invulnerable window damage p :
  Player.invulnerable (struck window damage p) = window.
Proof. reflexivity. Qed.

Lemma struck_health window damage p :
  Player.health (struck window damage p) = Player.health p - damage.
Proof. reflexivity. Qed.

(** The enemy-bullet pass: the rest of the state and what it does to the
    player. *)
Lemma bulletsVsPlayer_effect s :
  let s' := bulletsVsPlayer s in
  enemies s' = enemies s /\ wave s' = wave s
  /\ incl (bullets s') (bullets s)
  /\ ((player s' = player s /\ gameOver s' = gameOver s)
      \/ exists b,
           In b (bullets s) /\ Bullet.isPlayerBullet b = false
           /\ Player.invulnerable (player s) <= 0
           /\ player s' = struck 500 (Bullet.damage b) (player s)
           /\ gameOver s'
              = Qleb (Player.health (player s) - Bullet.damage b) 0
                || gameOver s).
Proof.
  unfold bulletsVsPlayer.
  apply for_down_ind with (s := s) (n := List.length (bullets s))
    (P := fun s' =>
      enemies s' = enemies s /\ wave s' = wave s
      /\ incl (bullets s') (bullets s)
      /\ ((player s' = player s /\ gameOver s' = gameOver s)
          \/ exists b,
               In b (bullets s) /\ Bullet.isPlayerBullet b = false
               /\ Player.invulnerable (player s) <= 0
               /\ player s' = struck 500 (Bullet.damage b) (player s)
               /\ gameOver s'
                  = Qleb (Player.health (player s) - Bullet.damage b) 0
                    || gameOver s)).
  2:{ repeat split; auto using incl_refl. }
  intros i t (He & Hw & Hincl & Hp).
  destruct (bulletVsPlayer_cases i t) as [E|(b & Hb & Hown & Hinv & Hc)].
  { rewrite E. auto. }
  fields Hc.
  rewrite Henemies, Hwave, Hbullets, Hplayer, HgameOver.
  repeat split; auto.
  - intros x Hx. apply Hincl. eapply In_splice1; eauto.
  - destruct Hp as [[Hp Hg]|(b0 & _ & _ & _ & Hp & _)].
    + right. exists b. rewrite Hp, Hg in *. repeat split; auto.
      apply Hincl. eapply nth_error_In; eauto.
    + exfalso. rewrite Hp, struck_invulnerable in Hinv.
      revert Hinv. apply Qlt_not_le. reflexivity.
Qed.

Lemma playerVsEnemies_effect s :
  let s' := playerVsEnemies s in
  wave s' = wave s /\ bullets s' = bullets s
  /\ ((player s' = player s /\ gameOver s' = gameOver s)
      \/ (enemies s <> [] /\ Player.invulnerable (player s) <= 0
          /\ player s' = struck 1000 (contactPenalty s) (player s)
          /\ gameOver s'
             = Qleb (Player.health (player s) - contactPenalty s) 0
               || gameOver s)).
Proof.
  unfold playerVsEnemies.
  assert (Hgen : forall n t,
    incl (enemies t) (enemies s) ->
    wave t = wave s /\ bullets t = bullets s
    /\ ((player t = player s /\ gameOver t = gameOver s)
        \/ (enemies s <> [] /\ Player.invulnerable (player s) <= 0
            /\ player t = struck 1000 (contactPenalty s) (player s)
            /\ gameOver t
               = Qleb (Player.health (player s) - contactPenalty s) 0
                 || gameOver s)) ->
    let s' := for_down n playerVsEnemy t in
    wave s' = wave s /\ bullets s' = bullets s
    /\ ((player s' = player s /\ gameOver s' = gameOver s)
        \/ (enemies s <> [] /\ Player.invulnerable (player s) <= 0
            /\ player s' = struck 1000 (contactPenalty s) (player s)
            /\ gameOver s'
               = Qleb (Player.health (player s) - contactPenalty s) 0
                 || gameOver s))).
  { induction n as [|n IH]; intros t Hne Ht; [exact Ht|].
    cbn [for_down].
    destruct (playerVsEnemy_cases n t) as [E|(e & He & Hinv & Hc)].
    { rewrite E. now apply IH. }
    destruct Ht as (Hw & Hb & Hp).
    destruct Hp as [[Hp Hg]|(_ & _ & Hp & _)].
    2:{ exfalso. rewrite Hp, struck_invulnerable in Hinv.
        revert Hinv. apply Qlt_not_le. reflexivity. }
    assert (Hs : 0 < Player.invulnerable (player (playerVsEnemy n t))).
    { fields Hc. rewrite Hplayer. reflexivity. }
    rewrite (for_down_fix playerVsEnemy _ (fun i =>
               invulnerable_blocks_body i _ Hs)).
    fields Hc. rewrite Hwave, Hbullets, Hplayer, HgameOver.
    repeat split; auto. right.
    unfold contactPenalty in *. rewrite Hw, Hp, Hg in *.
    repeat split; auto.
    intros Hnil. apply nth_error_In, Hne in He.
    rewrite Hnil in He. exact He. }
  apply Hgen; auto using incl_refl.
Qed.

End OneHitPerFrame.

Section Invulnerability.
Context {M : MathLib}.

(** In one frame the two damaging passes land at most one hit. *)
Lemma one_hit_per_frame s :
  frameDamage s (player (playerVsEnemies (bulletsVsPlayer s))).
Proof.
  destruct (bulletsVsPlayer_effect s) as (He & Hw & Hincl & Hp).
  destruct (playerVsEnemies_effect (bulletsVsPlayer s)) as (Hw' & Hb' & Hp').
  destruct Hp as [[Hp Hg]|(b & Hin & Hown & Hinv & Hp & Hg)].
  - destruct Hp' as [[Hp' _]|(Hne & Hinv' & Hp' & _)].
    + rewrite Hp', Hp. constructor.
    + rewrite Hp'. unfold contactPenalty. rewrite Hw, Hp.
      rewrite He in Hne. rewrite Hp in Hinv'. now constructor.
  - assert (Hs : 0 < Player.invulnerable (player (bulletsVsPlayer s))).
    { rewrite Hp. reflexivity. }
    rewrite (invulnerable_blocks_bodies _ Hs), Hp. now constructor.
Qed.

(** What a landed hit of an enemy bullet does, and what it blocks. *)
Lemma bullet_lands i s b :
  nth_error (bullets s) i = Some b -> Bullet.isPlayerBullet b = false ->
  strikes b (player s) = true -> Player.invulnerable (player s) <= 0 ->
  player (bulletVsPlayer i s) = struck 500 (Bullet.damage b) (player s)
  /\ bullets (bulletVsPlayer i s) = splice1 i (bullets s)
  /\ (forall k, bulletVsPlayer k (bulletVsPlayer i s) = bulletVsPlayer i s)
  /\ (forall k, playerVsEnemy k (bulletVsPlayer i s) = bulletVsPlayer i s).
Proof.
  intros Hb Hown Hd Hinv. apply Qleb_iff in Hinv.
  pose proof (bulletVsPlayer_hit i s b Hb Hown Hd Hinv) as Hc. fields Hc.
  assert (Hw : 0 < Player.invulnerable (player (bulletVsPlayer i s)))
    by (rewrite Hplayer; reflexivity).
  split; [exact Hplayer|]. split; [exact Hbullets|]. split; intros k.
  - now apply invulnerable_blocks_bullet.
  - now apply invulnerable_blocks_body.
Qed.

(** What a landed body contact does, and what it blocks. *)
Lemma body_lands j s e :
  nth_error (enemies s) j = Some e ->
  rams (player s) e = true -> Player.invulnerable (player s) <= 0 ->
  player (playerVsEnemy j s) = struck 1000 (contactPenalty s) (player s)
  /\ enemies (playerVsEnemy j s) = splice1 j (enemies s)
  /\ (forall k, playerVsEnemy k (playerVsEnemy j s) = playerVsEnemy j s).
Proof.
  intros He Hd Hinv. apply Qleb_iff in Hinv.
  pose proof (playerVsEnemy_hit j s e He Hd Hinv) as Hc. fields Hc.
  assert (Hw : 0 < Player.invulnerable (player (playerVsEnemy j s)))
    by (rewrite Hplayer; reflexivity).
  split; [exact Hplayer|]. split; [exact Henemies|].
  intros k. now apply invulnerable_blocks_body.
Qed.

(** The frame in which the enemy bullet at [i] is the first to land. *)
Lemma frame_shot i s b :
  nth_error (bullets s) i = Some b -> Bullet.isPlayerBullet b = false ->
  strikes b (player s) = true -> Player.invulnerable (player s) <= 0 ->
  (forall j b', (i < j)%nat -> nth_error (bullets s) j = Some b' ->
     Bullet.isPlayerBullet b' = true \/ strikes b' (player s) = false) ->
  playerVsEnemies (bulletsVsPlayer s) = bulletVsPlayer i s.
Proof.
  intros Hb Hown Hd Hinv Hhigher.
  destruct (bullet_lands i s b Hb Hown Hd Hinv) as (Hp & _ & Hk & Hk').
  assert (E : bulletsVsPlayer s = bulletVsPlayer i s).
  { unfold bulletsVsPlayer. apply for_down_at; [exact Hk| |].
    - eapply nth_error_lt; exact Hb.
    - intros j Hj. apply bulletVsPlayer_miss. intros b' Hb'.
      destruct (Hhigher j b' (proj1 Hj) Hb') as [H|H]; [now left|].
      right; left. exact H. }
  rewrite E. unfold playerVsEnemies. now apply for_down_fix.
Qed.

(** The frame in which no enemy bullet lands and the enemy at [j] is the
    first to touch the player. *)
Lemma frame_rammed j s e :
  nth_error (enemies s) j = Some e ->
  rams (player s) e = true -> Player.invulnerable (player s) <= 0 ->
  (forall i b, nth_error (bullets s) i = Some b ->
     Bullet.isPlayerBullet b = true \/ strikes b (player s) = false) ->
  (forall k e', (j < k)%nat -> nth_error (enemies s) k = Some e' ->
     rams (player s) e' = false) ->
  playerVsEnemies (bulletsVsPlayer s) = playerVsEnemy j s.
Proof.
  intros He Hd Hinv Hnone Hhigher.
  destruct (body_lands j s e He Hd Hinv) as (_ & _ & Hk).
  assert (E : bulletsVsPlayer s = s).
  { unfold bulletsVsPlayer. apply for_down_fix. intros i.
    apply bulletVsPlayer_miss. intros b Hb.
    destruct (Hnone i b Hb) as [H|H]; [now left|]. right; left. exact H. }
  rewrite E. unfold playerVsEnemies. apply for_down_at; [exact Hk| |].
  - eapply nth_error_lt; exact He.
  - intros k Hkj. apply playerVsEnemy_miss. intros e' He'. left.
    exact (Hhigher k e' (proj1 Hkj) He').
Qed.

(** C4: while the invulnerability countdown is positive, every iteration of
    the enemy-bullet pass and of the body-contact pass, and so both passes
    as a whole, leave the state unchanged.  An enemy bullet that overlaps a
    player whose countdown is not positive lands: it stores health - damage
    and a countdown of 500 and is removed; a body contact stores
    health - (10 + 2 wave) and a countdown of 1000 and removes the enemy.
    After a landed hit every further iteration of both passes is blocked,
    so that at the end of the frame's two passes the player has taken
    exactly the first hit scanned, whatever else overlaps; in one frame the
    two passes together land at most one hit. *)
Theorem C4_invulnerability_blocks_hits (s : GameState) :
  (0 < Player.invulnerable (player s) ->
   (forall i, bulletVsPlayer i s = s)
   /\ (forall i, playerVsEnemy i s = s)
   /\ playerVsEnemies (bulletsVsPlayer s) = s)
  /\ (forall i,
        bulletVsPlayer i s = s
        \/ exists b,
             nth_error (bullets s) i = Some b
             /\ player (bulletVsPlayer i s)
                = struck 500 (Bullet.damage b) (player s))
  /\ (forall i,
        playerVsEnemy i s = s
        \/ player (playerVsEnemy i s)
           = struck 1000 (contactPenalty s) (player s))
  /\ frameDamage s (player (playerVsEnemies (bulletsVsPlayer s)))
  /\ (forall i b,
        nth_error (bullets s) i = Some b ->
        Bullet.isPlayerBullet b = false ->
        strikes b (player s) = true ->
        Player.invulnerable (player s) <= 0 ->
        (player (bulletVsPlayer i s)
         = struck 500 (Bullet.damage b) (player s)
         /\ Player.health (player (bulletVsPlayer i s))
            = Player.health (player s) - Bullet.damage b
         /\ Player.invulnerable (player (bulletVsPlayer i s)) = 500
         /\ bullets (bulletVsPlayer i s) = splice1 i (bullets s)
         /\ (forall k,
               bulletVsPlayer k (bulletVsPlayer i s) = bulletVsPlayer i s)
         /\ (forall k,
               playerVsEnemy k (bulletVsPlayer i s) = bulletVsPlayer i s))
        /\ ((forall j b', (i < j)%nat -> nth_error (bullets s) j = Some b' ->
               Bullet.isPlayerBullet b' = true
               \/ strikes b' (player s) = false) ->
            player (playerVsEnemies (bulletsVsPlayer s))
            = struck 500 (Bullet.damage b) (player s)))
  /\ (forall j e,
        nth_error (enemies s) j = Some e ->
        rams (player s) e = true ->
        Player.invulnerable (player s) <= 0 ->
        (player (playerVsEnemy j s)
         = struck 1000 (contactPenalty s) (player s)
         /\ Player.health (player (playerVsEnemy j s))
            = Player.health (player s) - contactPenalty s
         /\ Player.invulnerable (player (playerVsEnemy j s)) = 1000
         /\ enemies (playerVsEnemy j s) = splice1 j (enemies s)
         /\ (forall k,
               playerVsEnemy k (playerVsEnemy j s) = playerVsEnemy j s))
        /\ ((forall i b, nth_error (bullets s) i = Some b ->
               Bullet.isPlayerBullet b = true
               \/ strikes b (player s) = false) ->
            (forall k e', (j < k)%nat -> nth_error (enemies s) k = Some e' ->
               rams (player s) e' = false) ->
            player (playerVsEnemies (bulletsVsPlayer s))
            = struck 1000 (contactPenalty s) (player s))).
Proof.
  repeat apply conj.
  - intros H. repeat split.
    + intros i. now apply invulnerable_blocks_bullet.
    + intros i. now apply invulnerable_blocks_body.
    + rewrite (invulnerable_blocks_bullets s H).
      now apply invulnerable_blocks_bodies.
  - intros i.
    destruct (bulletVsPlayer_cases i s) as [E|(b & Hb & _ & _ & Hc)];
      [now left|right].
    exists b. split; [exact Hb|]. fields Hc. exact Hplayer.
  - intros i.
    destruct (playerVsEnemy_cases i s) as [E|(e & _ & _ & Hc)];
      [now left|right].
    fields Hc. exact Hplayer.
  - apply one_hit_per_frame.
  - intros i b Hb Hown Hd Hinv.
    destruct (bullet_lands i s b Hb Hown Hd Hinv) as (H1 & H2 & H3 & H4).
    split.
    + split; [exact H1|]. rewrite H1.
      split; [reflexivity|]. split; [reflexivity|].
      split; [exact H2|]. split; assumption.
    + intros Hhigher.
      rewrite (frame_shot i s b Hb Hown Hd Hinv Hhigher). exact H1.
  - intros j e He Hd Hinv.
    destruct (body_lands j s e He Hd Hinv) as (H1 & H2 & H3).
    split.
    + split; [exact H1|]. rewrite H1.
      split; [reflexivity|]. split; [reflexivity|].
      split; assumption.
    + intros Hnone Hhigher.
      rewrite (frame_rammed j s e He Hd Hinv Hnone Hhigher). exact H1.
Qed.

End Invulnerability.

(** An enemy bullet lies on the player and an enemy touches it.  With
    200 ms of invulnerability left nothing happens.  With none left, and a
    second bullet on the same spot, the frame's two passes land the first
    bullet scanned and nothing else: health 100 - 8 and a countdown of
    500. *)
Lemma C4_invulnerability_blocks_hits_witness :
  let M := Sample.math [] in
  let canvas := mkCanvas 800 600 in
  let s0 := set_wave 3 (initGame canvas 0) in
  let b := Bullet.mk (Vector2.mk 400 500) (Vector2.mk 0 4) 5 8 false in
  let e := Enemy.mk (Vector2.mk 400 495) (Vector2.mk 0 2) 15 25 25 2 basic
             (Some 0) "#ff4444" in
  let s :=
    set_enemies [e]
      (set_bullets [b]
         (set_player (Player.set_invulnerable 200 (player s0)) s0)) in
  let t := set_enemies [e] (set_bullets [b; b] s0) in
  (0 < Player.invulnerable (player s)
   /\ playerVsEnemies (bulletsVsPlayer s) = s)
  /\ (strikes b (player t) = true /\ Player.invulnerable (player t) <= 0
      /\ player (playerVsEnemies (bulletsVsPlayer t))
         = struck 500 8 (player t)
      /\ Player.health (player (playerVsEnemies (bulletsVsPlayer t)))
         == 92).
Proof.
  intros M canvas s0 b e s t. split.
  - assert (H : 0 < Player.invulnerable (player s)) by reflexivity.
    split; [exact H|].
    exact (proj2 (proj2 (proj1 (C4_invulnerability_blocks_hits s) H))).
  - assert (Hd : strikes b (player t) = true) by (vm_compute; reflexivity).
    assert (Hinv : Player.invulnerable (player t) <= 0)
      by (vm_compute; discriminate).
    assert (Hhigher : forall j b', (1 < j)%nat ->
              nth_error (bullets t) j = Some b' ->
              Bullet.isPlayerBullet b' = true
              \/ strikes b' (player t) = false).
    { intros [|[|[|j]]] b' Hj Hb'; try lia; discriminate. }
    pose proof (proj2 (proj1 (proj2 (proj2 (proj2 (proj2
                   (C4_invulnerability_blocks_hits t)))))
                  1%nat b eq_refl eq_refl Hd Hinv) Hhigher) as Hp.
    split; [exact Hd|]. split; [exact Hinv|]. split; [exact Hp|].
    rewrite Hp. vm_compute. reflexivity.
Defined.

(** A bullet of radius 4 against a tank of radius 25.  With its centre 20
    right of and 21 below the tank's, the distance 29 equals the sum of
    the radii and the scan does not report a hit; one unit higher it
    does. *)
Lemma C8_collision_strict_witness :
  let M := Sample.math [] in
  let e := Enemy.mk (Vector2.mk 400 300) (Vector2.mk 0 1) 25 65 65 1 tank
             (Some 0) "#ff2222" in
  let b := Bullet.mk (Vector2.mk 420 321) (Vector2.mk 0 (-10)) 4 10 true in
  let b' := Bullet.mk (Vector2.mk 420 320) (Vector2.mk 0 (-10)) 4 10 true in
  let s := set_bullets [b] (set_enemies [e] (initGame (mkCanvas 800 600) 0)) in
  nth_error (enemies s) 0 = Some e
  /\ hypot (Vector2.x (Bullet.pos b) - Vector2.x (Enemy.pos e))
           (Vector2.y (Bullet.pos b) - Vector2.y (Enemy.pos e))
     = 29
  /\ fadd (Bullet.radius b) (Enemy.radius e) = 29
  /\ hitEnemy 0 b 0 s = (s, false)
  /\ snd (hitEnemy 0 b' 0 s) = true.
Proof.
  intros M e b b' s.
  assert (He : nth_error (enemies s) 0 = Some e) by reflexivity.
  destruct (C8_collision_strict s 0 0) as (T & _ & _ & _ & X & _ & R).
  assert (HD : hypot (Vector2.x (Bullet.pos b) - Vector2.x (Enemy.pos e))
                     (Vector2.y (Bullet.pos b) - Vector2.y (Enemy.pos e))
               = 29).
  { apply (X _ _ 20 21 29)%Z; [reflexivity|reflexivity|reflexivity|].
    split; [discriminate|reflexivity]. }
  assert (HR : fadd (Bullet.radius b) (Enemy.radius e) = 29).
  { apply (R _ _ 4 25)%Z; reflexivity. }
  split; [exact He|]. split; [exact HD|]. split; [exact HR|]. split.
  - apply (proj2 (T b e He)). rewrite HD, HR. reflexivity.
  - apply (proj1 (T b' e He)).
    change (Bullet.radius b') with (Bullet.radius b). rewrite HR.
    vm_compute. reflexivity.
Defined.

(** The claim as the spec states it fails on the code: the centres of this
    bullet and this enemy are less than 4 + 15 apart, and the computed
    distance is exactly 19, so that the scan does not report a hit. *)
Lemma C8_collision_strict_counterexample :
  let M := Sample.math [] in
  let e := Enemy.mk (Vector2.mk 400 300) (Vector2.mk 0 2) 15 25 25 2 basic
             (Some 0) "#ff4444" in
  let b := Bullet.mk
             (Vector2.mk (7371096688484761 # 17592186044416)
                         (5282078742373311 # 17592186044416))
             (Vector2.mk 0 (-10)) 4 10 true in
  let s := set_bullets [b] (set_enemies [e] (initGame (mkCanvas 800 600) 0)) in
  let dx := Vector2.x (Bullet.pos b) - Vector2.x (Enemy.pos e) in
  let dy := Vector2.y (Bullet.pos b) - Vector2.y (Enemy.pos e) in
  fl (Vector2.x (Bullet.pos b)) = Qred (Vector2.x (Bullet.pos b))
  /\ fl (Vector2.y (Bullet.pos b)) = Qred (Vector2.y (Bullet.pos b))
  /\ dx * dx + dy * dy
     < (Bullet.radius b + Enemy.radius e) * (Bullet.radius b + Enemy.radius e)
  /\ hypot dx dy = 19
  /\ hitEnemy 0 b 0 s = (s, false)
  /\ bulletVsEnemies 0 s = s
  /\ ~ (snd (hitEnemy 0 b 0 s) = true
        <-> dx * dx + dy * dy
            < (Bullet.radius b + Enemy.radius e)
              * (Bullet.radius b + Enemy.radius e)).
Proof.
  intros M e b s dx dy.
  assert (Hin : dx * dx + dy * dy
                < (Bullet.radius b + Enemy.radius e)
                  * (Bullet.radius b + Enemy.radius e))
    by (vm_compute; reflexivity).
  split; [vm_compute; reflexivity|]. split; [vm_compute; reflexivity|].
  split; [exact Hin|]. split; [vm_compute; reflexivity|].
  split; [vm_compute; reflexivity|]. split; [vm_compute; reflexivity|].
  intros [_ H]. specialize (H Hin). vm_compute in H. discriminate.
Qed.

(** ** Player bullets against enemies *)

Section Scan.
Context {M : MathLib}.

Lemma createParticles_from_exact todo : forall i count pos color s,
  exists ps,
    List.length ps = todo
    /\ createParticles_from todo i count pos color s
       = set_draws (2 * todo + draws s)
           (set_particles (particles s ++ ps) s).
Proof.
  induction todo as [|todo IH]; intros i count pos color s.
  - exists []. split; [reflexivity|]. rewrite app_nil_r. now destruct s.
  - cbn [createParticles_from].
    match goal with
    | |- context [set_particles (push _ ?p) _] =>
        destruct (IH (S i) count pos color
                    (set_draws (S (S (draws s)))
                       (set_particles (push (particles s) p) s)))
          as (ps & Hlen & E);
        rewrite E; exists (p :: ps)
    end.
    split; [cbn; now rewrite Hlen|].
    destruct s; unfold set_draws, set_particles, push; cbn.
    rewrite <- app_assoc. cbn. f_equal. lia.
Qed.

Lemma createParticles_exact pos color count s :
  exists ps,
    List.length ps = count
    /\ createParticles pos color count s
       = set_draws (2 * count + draws s)
           (set_particles (particles s ++ ps) s).
Proof. apply createParticles_from_exact. Qed.

Lemma spawnPowerUp_eq pos s :
  spawnPowerUp pos s
  = if Qltb (Mrandom (draws s)) 0.3
    then set_powerUps
           (powerUps s ++ [dropped pos (Mrandom (S (draws s)))])
           (set_draws (S (S (draws s))) s)
    else set_draws (S (draws s)) s.
Proof.
  unfold spawnPowerUp. cbn [draws set_draws].
  destruct (Qltb (Mrandom (draws s)) 0.3); reflexivity.
Qed.

Lemma splice1_set_nth {A : Type} (l : list A) (j : nat) (v : A) :
  splice1 j (set_nth j v l) = splice1 j l.
Proof.
  unfold set_nth. destruct (nth_error l j) as [a|] eqn:E; [|reflexivity].
  apply nth_error_lt in E. unfold splice1.
  assert (Hlen : List.length (firstn j l) = j)
    by (rewrite length_firstn; lia).
  rewrite firstn_app, skipn_app, Hlen, Nat.sub_diag.
  rewrite firstn_firstn, Nat.min_id. cbn [firstn].
  rewrite app_nil_r.
  rewrite (skipn_all2 (firstn j l)) by lia.
  replace (S j - j)%nat with 1%nat by lia. reflexivity.
Qed.

Lemma hitEnemy_miss i b j s :
  (forall e, nth_error (enemies s) j = Some e ->
     Qltb (hypot (Vector2.x (Bullet.pos b) - Vector2.x (Enemy.pos e))
                 (Vector2.y (Bullet.pos b) - Vector2.y (Enemy.pos e)))
          (fadd (Bullet.radius b) (Enemy.radius e)) = false) ->
  hitEnemy i b j s = (s, false).
Proof.
  intros H. unfold hitEnemy.
  destruct (nth_error (enemies s) j) as [e|]; [|reflexivity].
  now rewrite (H e eq_refl).
Qed.

(** A hit that leaves the enemy alive. *)
Lemma hitEnemy_wound i b j s e :
  nth_error (enemies s) j = Some e ->
  Qltb (hypot (Vector2.x (Bullet.pos b) - Vector2.x (Enemy.pos e))
              (Vector2.y (Bullet.pos b) - Vector2.y (Enemy.pos e)))
       (fadd (Bullet.radius b) (Enemy.radius e)) = true ->
  Qleb (Enemy.health e - Bullet.damage b) 0 = false ->
  exists ps,
    List.length ps = 5%nat
    /\ hitEnemy i b j s
       = (set_draws (10 + draws s)
            (set_particles (particles s ++ ps)
               (set_bullets (splice1 i (bullets s))
                  (set_enemies
                     (set_nth j
                        (Enemy.set_health (Enemy.health e - Bullet.damage b)
                           e) (enemies s)) s))), true).
Proof.
  intros He Hd Hh. unfold hitEnemy. rewrite He, Hd.
  cbn [Enemy.health Enemy.set_health Enemy.color Enemy.pos]. rewrite Hh.
  match goal with
  | |- context [createParticles ?pos ?c 5 ?t] =>
      destruct (createParticles_exact pos c 5 t) as (ps & Hlen & E)
  end.
  rewrite E. exists ps. split; [exact Hlen|].
  destruct s; reflexivity.
Qed.

(** A hit that takes the enemy's health to zero or below. *)
Lemma hitEnemy_kill i b j s e :
  nth_error (enemies s) j = Some e ->
  Qltb (hypot (Vector2.x (Bullet.pos b) - Vector2.x (Enemy.pos e))
              (Vector2.y (Bullet.pos b) - Vector2.y (Enemy.pos e)))
       (fadd (Bullet.radius b) (Enemy.radius e)) = true ->
  Qleb (Enemy.health e - Bullet.damage b) 0 = true ->
  let roll := Qltb (Mrandom (40 + draws s)) 0.3 in
  exists ps,
    List.length ps = 20%nat
    /\ hitEnemy i b j s
       = (set_draws (if roll then 42 + draws s else 41 + draws s)%nat
            (set_particles (particles s ++ ps)
               (set_powerUps
                  (powerUps s
                   ++ (if roll
                       then [dropped (Enemy.pos e) (Mrandom (41 + draws s))]
                       else []))
                  (set_enemies (splice1 j (enemies s))
                     (set_enemiesKilled (enemiesKilled s + 1)%Z
                        (set_score
                           (score s
                            + award (wave s) (Enemy.maxHealth e))%Z
                           (set_bullets (splice1 i (bullets s)) s)))))),
          true).
Proof.
  intros He Hd Hh roll. unfold hitEnemy. rewrite He, Hd.
  cbn [Enemy.health Enemy.set_health Enemy.color Enemy.pos Enemy.maxHealth].
  rewrite Hh.
  match goal with
  | |- context [createParticles ?pos ?c 5 ?t] =>
      destruct (createParticles_exact pos c 5 t) as (ps & Hlen & E)
  end.
  rewrite E.
  match goal with
  | |- context [createParticles ?pos ?c 15 ?t] =>
      destruct (createParticles_exact pos c 15 t) as (ps' & Hlen' & E')
  end.
  rewrite E'. rewrite spawnPowerUp_eq.
  exists (ps ++ ps'). split; [rewrite length_app, Hlen, Hlen'; reflexivity|].
  subst roll.
  match goal with
  | |- context [Mrandom (draws ?X)] =>
      change (draws X) with (40 + draws s)%nat
  end.
  destruct (Qltb (Mrandom (40 + draws s)) 0.3);
    cbn [player enemies bullets particles powerUps score wave waveProgress
         enemiesThisWave enemiesKilled gameOver paused keys draws
         set_player set_enemies set_bullets set_particles set_powerUps
         set_score set_wave set_waveProgress set_enemiesThisWave
         set_enemiesKilled set_gameOver set_paused set_keys set_draws];
    rewrite splice1_set_nth, <- app_assoc, ?app_nil_r; reflexivity.
Qed.

End Scan.

Section BulletsVsEnemies.
Context {M : MathLib}.

Lemma for_down_break_none {St : Type} (body : nat -> St -> St * bool)
    (s : St) (n : nat) :
  (forall k, (k < n)%nat -> body k s = (s, false)) ->
  for_down_break n body s = s.
Proof.
  induction n as [|n IH]; intros H; [reflexivity|].
  cbn [for_down_break]. rewrite (H n) by lia. apply IH.
  intros k Hk. apply H. lia.
Qed.

Lemma for_down_break_first {St : Type} (body : nat -> St -> St * bool)
    (s : St) (j n : nat) :
  (j < n)%nat -> snd (body j s) = true ->
  (forall k, (j < k < n)%nat -> body k s = (s, false)) ->
  for_down_break n body s = fst (body j s).
Proof.
  induction n as [|n IH]; intros Hj Hhit Hmiss; [lia|].
  cbn [for_down_break].
  destruct (Nat.eq_dec j n) as [->|Hne].
  - destruct (body n s) as [s' stop]; cbn in *. now subst stop.
  - rewrite (Hmiss n) by lia. apply IH; [lia|exact Hhit|].
    intros k Hk. apply Hmiss. lia.
Qed.

Lemma bulletVsEnemies_scan i s b :
  nth_error (bullets s) i = Some b -> Bullet.isPlayerBullet b = true ->
  bulletVsEnemies i s
  = for_down_break (List.length (enemies s)) (hitEnemy i b) s.
Proof. intros Hb Hown. unfold bulletVsEnemies. now rewrite Hb, Hown. Qed.

Lemma bulletVsEnemies_none i s b :
  nth_error (bullets s) i = Some b -> Bullet.isPlayerBullet b = true ->
  (forall e, In e (enemies s) -> overlaps b e = false) ->
  bulletVsEnemies i s = s.
Proof.
  intros Hb Hown Hnone. rewrite (bulletVsEnemies_scan i s b Hb Hown).
  apply for_down_break_none. intros k _. apply hitEnemy_miss.
  intros e He. apply Hnone. eapply nth_error_In; eauto.
Qed.

Lemma bulletVsEnemies_first i s b j e :
  nth_error (bullets s) i = Some b -> Bullet.isPlayerBullet b = true ->
  firstScanned b s j e ->
  bulletVsEnemies i s = fst (hitEnemy i b j s).
Proof.
  intros Hb Hown (He & Hov & Hfirst).
  rewrite (bulletVsEnemies_scan i s b Hb Hown).
  apply for_down_break_first.
  - eapply nth_error_lt; eauto.
  - unfold hitEnemy. rewrite He. unfold overlaps in Hov. now rewrite Hov.
  - intros k Hk. apply hitEnemy_miss. intros e' He'.
    apply (Hfirst k e'); [lia|exact He'].
Qed.

Lemma bulletVsEnemies_wound i s b j e :
  nth_error (bullets s) i = Some b -> Bullet.isPlayerBullet b = true ->
  firstScanned b s j e ->
  0 < Enemy.health e - Bullet.damage b ->
  let s' := bulletVsEnemies i s in
  enemies s'
  = set_nth j (Enemy.set_health (Enemy.health e - Bullet.damage b) e)
      (enemies s)
  /\ bullets s' = splice1 i (bullets s)
  /\ score s' = score s /\ enemiesKilled s' = enemiesKilled s
  /\ powerUps s' = powerUps s /\ player s' = player s
  /\ gameOver s' = gameOver s /\ wave s' = wave s.
Proof.
  intros Hb Hown Hfirst Hh s'. subst s'.
  rewrite (bulletVsEnemies_first i s b j e Hb Hown Hfirst).
  destruct Hfirst as (He & Hov & _).
  apply Qleb_false_iff in Hh.
  destruct (hitEnemy_wound i b j s e He Hov Hh) as (ps & _ & E).
  rewrite E. cbn [fst]. repeat split.
Qed.

Lemma bulletVsEnemies_kill i s b j e :
  nth_error (bullets s) i = Some b -> Bullet.isPlayerBullet b = true ->
  firstScanned b s j e ->
  Enemy.health e - Bullet.damage b <= 0 ->
  let s' := bulletVsEnemies i s in
  enemies s' = splice1 j (enemies s)
  /\ bullets s' = splice1 i (bullets s)
  /\ score s'
     = (score s + award (wave s) (Enemy.maxHealth e))%Z
  /\ enemiesKilled s' = (enemiesKilled s + 1)%Z
  /\ powerUps s'
     = powerUps s
       ++ (if Qltb (Mrandom (40 + draws s)) 0.3
           then [dropped (Enemy.pos e) (Mrandom (41 + draws s))]
           else [])
  /\ player s' = player s /\ gameOver s' = gameOver s /\ wave s' = wave s.
Proof.
  intros Hb Hown Hfirst Hh s'. subst s'.
  rewrite (bulletVsEnemies_first i s b j e Hb Hown Hfirst).
  destruct Hfirst as (He & Hov & _).
  apply Qleb_iff in Hh.
  destruct (hitEnemy_kill i b j s e He Hov Hh) as (ps & _ & E).
  rewrite E. cbn [fst]. repeat split.
Qed.

End BulletsVsEnemies.

Section ScenarioB.
Context {M : MathLib}.

(** An enemy with 20 of 20 health on wave 1 under two overlapping player
    bullets of damage 10: the pass removes it and awards 10. *)
Lemma two_hits_kill (s : GameState) (e : Enemy.t) (b1 b2 : Bullet.t) :
  wave s = 1%Z -> enemies s = [e] -> bullets s = [b1; b2] ->
  Enemy.health e = 20 -> Enemy.maxHealth e = 20 ->
  Bullet.isPlayerBullet b1 = true -> Bullet.damage b1 = 10 ->
  Bullet.isPlayerBullet b2 = true -> Bullet.damage b2 = 10 ->
  overlaps b1 e = true -> overlaps b2 e = true ->
  let s1 := bulletVsEnemies 1 s in
  let s2 := bulletVsEnemies 0 s1 in
  enemies s1 = [Enemy.set_health (20 - 10) e]
  /\ score s1 = score s
  /\ bulletsVsEnemies s = s2
  /\ enemies s2 = []
  /\ bullets s2 = []
  /\ score s2 = (score s + 10)%Z
  /\ enemiesKilled s2 = (enemiesKilled s + 1)%Z.
Proof.
  intros Hw He Hb Hh Hm Hown1 Hd1 Hown2 Hd2 Hov1 Hov2 s1 s2.
  assert (Hb2 : nth_error (bullets s) 1 = Some b2) by now rewrite Hb.
  assert (Hf2 : firstScanned b2 s 0 e).
  { split; [now rewrite He|]. split; [exact Hov2|].
    intros k e' Hk. rewrite He. destruct k as [|[|k]]; [lia| |];
      discriminate. }
  assert (Hlive : 0 < Enemy.health e - Bullet.damage b2)
    by (rewrite Hh, Hd2; reflexivity).
  destruct (bulletVsEnemies_wound 1 s b2 0 e Hb2 Hown2 Hf2 Hlive)
    as (He1 & Hb1 & Hs1 & Hk1 & _ & _ & _ & Hw1).
  fold s1 in He1, Hb1, Hs1, Hk1, Hw1.
  rewrite He, Hh, Hd2 in He1. rewrite Hb in Hb1.
  cbn in He1, Hb1.
  set (e' := Enemy.set_health (20 - 10) e) in *.
  assert (Hb1' : nth_error (bullets s1) 0 = Some b1) by now rewrite Hb1.
  assert (Hf1 : firstScanned b1 s1 0 e').
  { split; [now rewrite He1|]. split; [exact Hov1|].
    intros k e'' Hk. rewrite He1. destruct k as [|[|k]]; [lia| |];
      discriminate. }
  assert (Hdead : Enemy.health e' - Bullet.damage b1 <= 0).
  { rewrite Hd1. cbn. discriminate. }
  destruct (bulletVsEnemies_kill 0 s1 b1 0 e' Hb1' Hown1 Hf1 Hdead)
    as (He2 & Hb2' & Hs2 & Hk2 & _).
  fold s2 in He2, Hb2', Hs2, Hk2.
  rewrite He1 in He2. rewrite Hb1 in Hb2'. rewrite Hw1, Hw, Hs1 in Hs2.
  cbn [Enemy.maxHealth e' Enemy.set_health] in Hs2. rewrite Hm in Hs2.
  rewrite Hk1 in Hk2.
  repeat split; auto.
  unfold bulletsVsEnemies. rewrite Hb. reflexivity.
Qed.

(** C5, in the form the code satisfies: a player bullet that overlaps no
    enemy changes nothing; otherwise only the first overlapping enemy
    scanned (from the last index down) is affected: the bullet is removed
    and the enemy's health becomes health - damage; if that is positive the
    enemy stays and nothing else changes, and if it is at most 0 the enemy
    is removed, the score grows by [award], which is
    [Math.floor(10 * wave * (maxHealth / 20))] with the quotient and the
    products rounded to doubles, the kill counter grows by 1, and a
    power-up is pushed at the enemy's position exactly when the random roll
    is below 0.3.  In particular an enemy with 20 of 20 health on wave 1,
    hit by two bullets of damage 10, survives the first hit with health
    20 - 10 and is removed by the second, which awards 10.  The award is
    never negative, and where maxHealth is a multiple 20 k of 20 nothing
    is rounded and the award is 10 * wave * k. *)
Theorem C5_bullet_hits_one_enemy :
  (forall (s : GameState) (i : nat) (b : Bullet.t),
     nth_error (bullets s) i = Some b ->
     Bullet.isPlayerBullet b = true ->
     let s' := bulletVsEnemies i s in
     ((forall e, In e (enemies s) -> overlaps b e = false) -> s' = s)
     /\ (forall j e, firstScanned b s j e ->
           bullets s' = splice1 i (bullets s)
           /\ (0 < Enemy.health e - Bullet.damage b ->
               enemies s'
               = set_nth j
                   (Enemy.set_health (Enemy.health e - Bullet.damage b) e)
                   (enemies s)
               /\ score s' = score s
               /\ enemiesKilled s' = enemiesKilled s
               /\ powerUps s' = powerUps s)
           /\ (Enemy.health e - Bullet.damage b <= 0 ->
               enemies s' = splice1 j (enemies s)
               /\ score s'
                  = (score s + award (wave s) (Enemy.maxHealth e))%Z
               /\ enemiesKilled s' = (enemiesKilled s + 1)%Z
               /\ powerUps s'
                  = powerUps s
                    ++ (if Qltb (Mrandom (40 + draws s)) 0.3
                        then [dropped (Enemy.pos e) (Mrandom (41 + draws s))]
                        else []))))
  /\ (forall (s : GameState) (e : Enemy.t) (b1 b2 : Bullet.t),
        wave s = 1%Z -> enemies s = [e] -> bullets s = [b1; b2] ->
        Enemy.health e = 20 -> Enemy.maxHealth e = 20 ->
        Bullet.isPlayerBullet b1 = true -> Bullet.damage b1 = 10 ->
        Bullet.isPlayerBullet b2 = true -> Bullet.damage b2 = 10 ->
        overlaps b1 e = true -> overlaps b2 e = true ->
        enemies (bulletVsEnemies 1 s) = [Enemy.set_health (20 - 10) e]
        /\ score (bulletVsEnemies 1 s) = score s
        /\ enemies (bulletsVsEnemies s) = []
        /\ score (bulletsVsEnemies s) = (score s + 10)%Z)
  /\ (forall (w k : Z) (m : Q),
        m == inject_Z (20 * k) ->
        (0 <= w < 2 ^ 24)%Z -> (0 <= k < 2 ^ 24)%Z ->
        award w m = (10 * w * k)%Z)
  /\ (forall (w : Z) (m : Q), (0 <= w)%Z -> 0 <= m -> (0 <= award w m)%Z).
Proof.
  split; [|split; [|split]].
  - intros s i b Hb Hown s'. split.
    + now apply bulletVsEnemies_none with (b := b).
    + intros j e Hfirst.
      destruct (Qlt_le_dec 0 (Enemy.health e - Bullet.damage b)) as [Hh|Hh].
      * destruct (bulletVsEnemies_wound i s b j e Hb Hown Hfirst Hh)
          as (H1 & H2 & H3 & H4 & H5 & _).
        split; [exact H2|]. split; [auto|].
        intros Hh'. exfalso. revert Hh'. now apply Qlt_not_le.
      * destruct (bulletVsEnemies_kill i s b j e Hb Hown Hfirst Hh)
          as (H1 & H2 & H3 & H4 & H5 & _).
        split; [exact H2|]. split; [|auto].
        intros Hh'. exfalso. revert Hh. now apply Qlt_not_le.
  - intros s e b1 b2 Hw He Hb Hh Hm Hown1 Hd1 Hown2 Hd2 Hov1 Hov2.
    destruct (two_hits_kill s e b1 b2 Hw He Hb Hh Hm Hown1 Hd1 Hown2 Hd2
                Hov1 Hov2) as (H1 & H2 & H3 & H4 & H5 & H6 & H7).
    rewrite H3. auto.
  - intros w k m Hm [Hw0 Hw1] [Hk0 Hk1].
    assert (H24 : (2 ^ 24 = 16777216)%Z) by reflexivity.
    assert (H53 : (2 ^ 53 = 9007199254740992)%Z) by reflexivity.
    rewrite H24 in Hw1, Hk1.
    apply award_exact; rewrite ?H53; try assumption; nia.
  - apply award_nonneg.
Qed.

End ScenarioB.

(** Scenario B on a concrete scene. *)
Lemma C5_bullet_hits_one_enemy_witness :
  let M := Sample.math [0.5] in
  let e := Enemy.mk (Vector2.mk 400 300) (Vector2.mk 0 2) 15 20 20 2 basic
             (Some 0) "#ff4444" in
  let b := Bullet.mk (Vector2.mk 400 310) (Vector2.mk 0 (-10)) 4 10 true in
  let s := set_bullets [b; b] (set_enemies [e] (initGame (mkCanvas 800 600) 0))
  in
  (firstScanned b s 0 e
   /\ bullets (bulletVsEnemies 1 s) = splice1 1 (bullets s))
  /\ enemies (bulletVsEnemies 1 s) = [Enemy.set_health (20 - 10) e]
  /\ score (bulletVsEnemies 1 s) = score s
  /\ enemies (bulletsVsEnemies s) = []
  /\ score (bulletsVsEnemies s) = (score s + 10)%Z.
Proof.
  intros M e b s.
  assert (Hf : firstScanned b s 0 e).
  { split; [reflexivity|]. split; [vm_compute; reflexivity|].
    intros [|[|k]] e' Hk He'; [lia|discriminate|discriminate]. }
  split.
  - split; [exact Hf|].
    exact (proj1 (proj2 (proj1 C5_bullet_hits_one_enemy s 1%nat b
                           eq_refl eq_refl) 0%nat e Hf)).
  - assert (Hov : overlaps b e = true) by (vm_compute; reflexivity).
    exact (proj1 (proj2 C5_bullet_hits_one_enemy) s e b b eq_refl eq_refl
             eq_refl eq_refl eq_refl eq_refl eq_refl eq_refl eq_refl Hov Hov).
Defined.

(** The claim as the spec states it fails on the code: a shooter of wave 18
    has maxHealth 15 + 18 * 4 = 87; the quotient 87 / 20 is rounded down to
    a double below 4.35, the product with 180 to a double below 783, and
    the kill awards 782, not floor(10 * 18 * 87 / 20) = 783. *)
Lemma C5_bullet_hits_one_enemy_counterexample :
  let M := Sample.math [] in
  let e := Enemy.mk (Vector2.mk 400 300) (Vector2.mk 0 (33 # 10)) 12 7 87
             (33 # 10) shooter (Some 0) "#ff44ff" in
  let b := Bullet.mk (Vector2.mk 400 310) (Vector2.mk 0 (-10)) 4 10 true in
  let s := set_bullets [b]
             (set_enemies [e] (set_wave 18 (initGame (mkCanvas 800 600) 0)))
  in
  let s' := bulletsVsEnemies s in
  enemies s' = [] /\ enemiesKilled s' = (enemiesKilled s + 1)%Z
  /\ Qfloor (10 * QofZ (wave s) * Enemy.maxHealth e / 20) = 783%Z
  /\ score s' = (score s + 782)%Z
  /\ score s'
     <> (score s + Qfloor (10 * QofZ (wave s) * Enemy.maxHealth e / 20))%Z.
Proof.
  intros M e b s s'.
  split; [vm_compute; reflexivity|]. split; [vm_compute; reflexivity|].
  split; [vm_compute; reflexivity|]. split; [vm_compute; reflexivity|].
  vm_compute. discriminate.
Qed.

(** ** Bounds on stored health *)

Section HealthBounds.
Context {M : MathLib}.

Lemma Forall_splice1 {A : Type} (P : A -> Prop) (l : list A) (i : nat) :
  Forall P l -> Forall P (splice1 i l).
Proof.
  rewrite !Forall_forall. intros H x Hx. apply H.
  eapply In_splice1; eauto.
Qed.

Lemma Forall_set_nth {A : Type} (P : A -> Prop) (l : list A) (i : nat)
    (v : A) :
  Forall P l -> P v -> Forall P (set_nth i v l).
Proof.
  intros Hl Hv. unfold set_nth.
  destruct (nth_error l i); [|exact Hl].
  apply Forall_app. split.
  - rewrite <- (firstn_skipn i l) in Hl. now apply Forall_app in Hl.
  - constructor; [exact Hv|].
    rewrite <- (firstn_skipn (S i) l) in Hl. now apply Forall_app in Hl.
Qed.

Lemma contactPenalty_nonneg s : (0 <= wave s)%Z -> 0 <= contactPenalty s.
Proof.
  intros H. unfold contactPenalty, QofZ.
  assert (0 <= inject_Z (wave s)) by (change 0 with (inject_Z 0);
                                      now rewrite <- Zle_Qle).
  lra.
Qed.

Lemma healthy_bulletVsPlayer i s :
  healthy s -> harmful s ->
  healthy (bulletVsPlayer i s) /\ harmful (bulletVsPlayer i s).
Proof.
  intros (Hmax & Hover & Hen) (Hdmg & Hw).
  destruct (bulletVsPlayer_cases i s) as [E|(b & Hb & _ & _ & Hc)].
  { rewrite E. repeat split; auto. }
  assert (Hd : 0 <= Bullet.damage b).
  { rewrite Forall_forall in Hdmg. apply Hdmg. eapply nth_error_In; eauto. }
  fields Hc. unfold healthy, harmful.
  rewrite Hplayer, Henemies, Hbullets, HgameOver, Hwave.
  cbn [Player.health Player.maxHealth struck Player.set_health
       Player.set_invulnerable].
  repeat split; auto.
  - lra.
  - intros H. apply Qleb_iff in H. now rewrite H.
  - now apply Forall_splice1.
Qed.

Lemma healthy_playerVsEnemy i s :
  healthy s -> harmful s ->
  healthy (playerVsEnemy i s) /\ harmful (playerVsEnemy i s).
Proof.
  intros (Hmax & Hover & Hen) (Hdmg & Hw).
  destruct (playerVsEnemy_cases i s) as [E|(e & He & _ & Hc)].
  { rewrite E. repeat split; auto. }
  pose proof (contactPenalty_nonneg s Hw) as Hd.
  fields Hc. unfold healthy, harmful.
  rewrite Hplayer, Henemies, Hbullets, HgameOver, Hwave.
  cbn [Player.health Player.maxHealth struck Player.set_health
       Player.set_invulnerable].
  repeat split; auto.
  - lra.
  - intros H. apply Qleb_iff in H. now rewrite H.
  - now apply Forall_splice1.
Qed.

Lemma applyPowerUp_health_bounds k p :
  Player.health p <= Player.maxHealth p ->
  Player.health (applyPowerUp k p) <= Player.maxHealth (applyPowerUp k p)
  /\ (Player.health (applyPowerUp k p) <= 0 -> Player.health p <= 0).
Proof.
  intros H. destruct k; cbn; split; auto.
  - apply Q.le_min_l.
  - destruct (Q.min_spec (Player.maxHealth p) (Player.health p + 20))
      as [[_ E]|[_ E]]; rewrite E; lra.
Qed.

Lemma healthy_playerVsPowerUp i s :
  healthy s -> harmful s ->
  healthy (playerVsPowerUp i s) /\ harmful (playerVsPowerUp i s).
Proof.
  intros (Hmax & Hover & Hen) (Hdmg & Hw).
  destruct (nth_error (powerUps s) i) as [u|] eqn:Hu.
  2:{ rewrite playerVsPowerUp_miss; [repeat split; auto|].
      intros u Hu'. congruence. }
  match goal with
  | |- _ =>
      destruct (Qltb
        (hypot (Vector2.x (Player.pos (player s)) - Vector2.x (PowerUp.pos u))
           (Vector2.y (Player.pos (player s)) - Vector2.y (PowerUp.pos u)))
        (fadd (Player.radius (player s)) (PowerUp.radius u))) eqn:Hd
  end.
  2:{ rewrite playerVsPowerUp_miss; [repeat split; auto|].
      intros u' Hu'. replace u' with u by congruence. exact Hd. }
  pose proof (playerVsPowerUp_hit i s u Hu Hd) as Hc.
  destruct (applyPowerUp_health_bounds (PowerUp.type u) (player s) Hmax)
    as [Hmax' Hzero].
  fields Hc. unfold healthy, harmful.
  rewrite Hplayer, Henemies, Hbullets, HgameOver, Hwave.
  repeat split; auto.
Qed.

Lemma healthy_hitEnemy i b j s :
  0 <= Bullet.damage b ->
  healthy s /\ harmful s ->
  healthy (fst (hitEnemy i b j s)) /\ harmful (fst (hitEnemy i b j s)).
Proof.
  intros Hd [(Hmax & Hover & Hen) (Hdmg & Hw)].
  destruct (nth_error (enemies s) j) as [e|] eqn:He.
  2:{ rewrite hitEnemy_miss; [repeat split; auto|].
      intros e He'. congruence. }
  destruct (overlaps b e) eqn:Hov.
  2:{ rewrite hitEnemy_miss; [repeat split; auto|].
      intros e' He'. replace e' with e by congruence. exact Hov. }
  assert (Hbound : 0 < Enemy.health e /\ Enemy.health e <= Enemy.maxHealth e).
  { rewrite Forall_forall in Hen. apply Hen. eapply nth_error_In; eauto. }
  destruct (Qleb (Enemy.health e - Bullet.damage b) 0) eqn:Hh.
  - destruct (hitEnemy_kill i b j s e He Hov Hh) as (ps & _ & E).
    rewrite E. cbn [fst]. unfold healthy, harmful.
    destruct (Qltb (Mrandom (40 + draws s)) 0.3);
      cbn [player enemies bullets gameOver wave set_draws set_particles
           set_powerUps set_enemies set_enemiesKilled set_score set_bullets];
      repeat split; auto using Forall_splice1.
  - destruct (hitEnemy_wound i b j s e He Hov Hh) as (ps & _ & E).
    rewrite E. cbn [fst]. unfold healthy, harmful.
    cbn [player enemies bullets gameOver wave set_draws set_particles
         set_powerUps set_enemies set_enemiesKilled set_score set_bullets].
    apply Qleb_false_iff in Hh.
    repeat split; auto using Forall_splice1.
    apply Forall_set_nth; [exact Hen|].
    cbn [Enemy.health Enemy.maxHealth Enemy.set_health]. split; lra.
Qed.

Lemma healthy_bulletVsEnemies i s :
  healthy s /\ harmful s ->
  healthy (bulletVsEnemies i s) /\ harmful (bulletVsEnemies i s).
Proof.
  intros H. unfold bulletVsEnemies.
  destruct (nth_error (bullets s) i) as [b|] eqn:Hb; [|exact H].
  destruct (negb (Bullet.isPlayerBullet b)); [exact H|].
  apply for_down_break_ind with (P := fun t => healthy t /\ harmful t);
    [|exact H].
  intros j t Ht. apply healthy_hitEnemy; [|exact Ht].
  destruct H as [_ [Hdmg _]]. rewrite Forall_forall in Hdmg.
  apply Hdmg. eapply nth_error_In; eauto.
Qed.

Lemma healthy_combat s :
  healthy s -> harmful s -> healthy (combat s) /\ harmful (combat s).
Proof.
  intros H1 H2. unfold combat, playerVsPowerUps, playerVsEnemies,
    bulletsVsPlayer, bulletsVsEnemies.
  repeat match goal with
  | |- healthy (for_down ?n ?body ?t) /\ harmful (for_down ?n ?body ?t) =>
      apply (for_down_ind (fun x => healthy x /\ harmful x) body);
      [intros ? ? [? ?]; cbv beta|]
  end.
  - now apply healthy_playerVsPowerUp.
  - now apply healthy_playerVsEnemy.
  - now apply healthy_bulletVsPlayer.
  - now apply healthy_bulletVsEnemies.
  - now split.
Qed.

End HealthBounds.

Section HealthClaim.
Context {M : MathLib}.

(** C3, in the form the code satisfies: stored health never exceeds maxHealth, but damage is
    stored unclamped as health - damage and can be negative.  Starting from
    a state where health is at most maxHealth, a player without health
    exists only in a finished game, every enemy of the collection has
    health in (0, maxHealth] and no damage is negative, each iteration of
    the four collision passes, and the four passes in sequence, keep all
    of that: a player health of 0 or less is stored together with the
    game-over flag, an enemy health of 0 or less is never left in the
    collection, and a heal stores min(maxHealth, health + 20). *)
Theorem C3_health_bounds (s : GameState) :
  healthy s -> harmful s ->
  (forall i,
     healthy (bulletVsEnemies i s) /\ healthy (bulletVsPlayer i s)
     /\ healthy (playerVsEnemy i s) /\ healthy (playerVsPowerUp i s))
  /\ healthy (combat s)
  /\ (forall i,
        bulletVsPlayer i s = s
        \/ exists b,
             nth_error (bullets s) i = Some b
             /\ Player.health (player (bulletVsPlayer i s))
                = Player.health (player s) - Bullet.damage b)
  /\ (forall i,
        playerVsEnemy i s = s
        \/ Player.health (player (playerVsEnemy i s))
           = Player.health (player s) - contactPenalty s).
Proof.
  intros H1 H2. split; [|split; [|split]].
  - intros i.
    split; [apply (healthy_bulletVsEnemies i s); now split|].
    split; [now apply (healthy_bulletVsPlayer i s)|].
    split; [now apply (healthy_playerVsEnemy i s)|].
    now apply (healthy_playerVsPowerUp i s).
  - now apply (healthy_combat s).
  - intros i.
    destruct (bulletVsPlayer_cases i s) as [E|(b & Hb & _ & _ & Hc)];
      [now left|right].
    exists b. split; [exact Hb|]. fields Hc. now rewrite Hplayer.
  - intros i.
    destruct (playerVsEnemy_cases i s) as [E|(e & _ & _ & Hc)];
      [now left|right].
    fields Hc. now rewrite Hplayer.
Qed.

End HealthClaim.

(** On wave 3, a player with 4 health left under an enemy bullet of damage
    8: the pass stores -4, outside [0, maxHealth]. *)
Lemma C3_health_clamped_counterexample :
  let M := Sample.math [] in
  let s0 := set_wave 3 (initGame (mkCanvas 800 600) 0) in
  let s :=
    set_bullets [Bullet.mk (Vector2.mk 400 500) (Vector2.mk 0 4) 5 8 false]
      (set_player (Player.set_health 4 (player s0)) s0) in
  let p' := player (bulletVsPlayer 0 s) in
  Player.health p' == -4
  /\ ~ (0 <= Player.health p' /\ Player.health p' <= Player.maxHealth p').
Proof.
  intros M s0 s p'. split.
  - vm_compute. reflexivity.
  - intros [H _]. vm_compute in H. apply H. reflexivity.
Qed.

Lemma C3_health_bounds_witness :
  let M := Sample.math [] in
  let s0 := set_wave 3 (initGame (mkCanvas 800 600) 0) in
  let s :=
    set_bullets [Bullet.mk (Vector2.mk 400 500) (Vector2.mk 0 4) 5 8 false]
      (set_player (Player.set_health 4 (player s0)) s0) in
  healthy s /\ harmful s /\ healthy (combat s).
Proof.
  intros M s0 s.
  assert (H1 : healthy s).
  { repeat split; [vm_compute; discriminate| |constructor].
    intros H. vm_compute in H. exfalso. apply H. reflexivity. }
  assert (H2 : harmful s).
  { split; [|vm_compute; discriminate].
    repeat constructor. vm_compute. discriminate. }
  split; [exact H1|]. split; [exact H2|].
  exact (proj1 (proj2 (C3_health_bounds s H1 H2))).
Defined.

(** ** What each phase of a frame leaves unchanged *)

Section Frames.
Context {M : MathLib}.
Variable canvas : Canvas.
Variables currentTime deltaTime : number.

Lemma steady_refl s : steady s s.
Proof. repeat split. Qed.

Lemma steady_trans s1 s2 s3 : steady s1 s2 -> steady s2 s3 -> steady s1 s3.
Proof.
  unfold steady. intros (A1 & A2 & A3 & A4 & A5 & A6 & A7)
    (B1 & B2 & B3 & B4 & B5 & B6 & B7).
  repeat split; congruence.
Qed.

Lemma unhurt_refl s : unhurt s s.
Proof. repeat split. Qed.

Lemma unhurt_trans s1 s2 s3 : unhurt s1 s2 -> unhurt s2 s3 -> unhurt s1 s3.
Proof. unfold unhurt. intros [A1 A2] [B1 B2]. split; congruence. Qed.

Lemma inPlace_refl s : inPlace s s.
Proof. reflexivity. Qed.

Lemma inPlace_trans s1 s2 s3 :
  inPlace s1 s2 -> inPlace s2 s3 -> inPlace s1 s3.
Proof. unfold inPlace. congruence. Qed.

Lemma cosmetic_calm s s' :
  cosmetic s s' -> steady s s' /\ unhurt s s' /\ inPlace s s'.
Proof. intros (ps & n & ->). repeat split. Qed.

Lemma updatePlayer_frame s :
  steady s (updatePlayer canvas s) /\ unhurt s (updatePlayer canvas s).
Proof. repeat split. Qed.

Lemma shooting_frame s :
  steady s (shooting currentTime s) /\ unhurt s (shooting currentTime s)
  /\ inPlace s (shooting currentTime s).
Proof.
  unfold shooting. cbv zeta. destruct (_ && _); repeat split.
Qed.

Lemma coolDown_frame s :
  steady s (coolDown deltaTime s) /\ unhurt s (coolDown deltaTime s)
  /\ inPlace s (coolDown deltaTime s).
Proof.
  unfold coolDown. cbv zeta. destruct (Qgtb _ 0); repeat split.
Qed.

Lemma updateEnemy_frame i s :
  steady s (updateEnemy canvas currentTime i s)
  /\ unhurt s (updateEnemy canvas currentTime i s)
  /\ inPlace s (updateEnemy canvas currentTime i s).
Proof.
  unfold updateEnemy.
  destruct (nth_error (enemies s) i) as [e|]; [|repeat split].
  cbv zeta.
  destruct (Qgtb _ (height canvas + 50));
    destruct (match Enemy.type _ with shooter => _ | _ => false end);
    repeat split.
Qed.

Lemma updateBullet_frame i s :
  steady s (updateBullet canvas i s) /\ unhurt s (updateBullet canvas i s)
  /\ inPlace s (updateBullet canvas i s).
Proof.
  unfold updateBullet.
  destruct (nth_error (bullets s) i) as [b|]; [|repeat split].
  cbv zeta. destruct (_ || _); repeat split.
Qed.

Lemma updateParticle_frame i s :
  steady s (updateParticle deltaTime i s)
  /\ unhurt s (updateParticle deltaTime i s)
  /\ inPlace s (updateParticle deltaTime i s).
Proof.
  unfold updateParticle.
  destruct (nth_error (particles s) i) as [b|]; [|repeat split].
  cbv zeta. destruct (Qleb _ 0); repeat split.
Qed.

Lemma updatePowerUp_frame i s :
  steady s (updatePowerUp canvas i s) /\ unhurt s (updatePowerUp canvas i s)
  /\ inPlace s (updatePowerUp canvas i s).
Proof.
  unfold updatePowerUp.
  destruct (nth_error (powerUps s) i) as [b|]; [|repeat split].
  cbv zeta. destruct (Qgtb _ _); repeat split.
Qed.

Lemma for_down_calm (body : nat -> GameState -> GameState) :
  (forall i t, steady t (body i t) /\ unhurt t (body i t)
               /\ inPlace t (body i t)) ->
  forall n s,
    steady s (for_down n body s) /\ unhurt s (for_down n body s)
    /\ inPlace s (for_down n body s).
Proof.
  intros Hbody n s.
  apply (for_down_ind (fun t => steady s t /\ unhurt s t /\ inPlace s t)).
  - intros i t (H1 & H2 & H3). destruct (Hbody i t) as (B1 & B2 & B3).
    split; [|split];
      eauto using steady_trans, unhurt_trans, inPlace_trans.
  - split; [|split]; auto using steady_refl, unhurt_refl, inPlace_refl.
Qed.

Lemma movement_frame s :
  steady s (movement canvas currentTime deltaTime s)
  /\ unhurt s (movement canvas currentTime deltaTime s).
Proof.
  unfold movement, updatePowerUps, updateParticles, updateBullets,
    updateEnemies.
  destruct (updatePlayer_frame s) as (A1 & A2).
  set (s1 := updatePlayer canvas s) in *.
  destruct (shooting_frame s1) as (B1 & B2 & _).
  set (s2 := shooting currentTime s1) in *.
  destruct (coolDown_frame s2) as (C1 & C2 & _).
  set (s3 := coolDown deltaTime s2) in *.
  destruct (for_down_calm _ (updateEnemy_frame) (List.length (enemies s3)) s3)
    as (D1 & D2 & _).
  set (s4 := for_down _ (updateEnemy canvas currentTime) s3) in *.
  destruct (for_down_calm _ (updateBullet_frame) (List.length (bullets s4)) s4)
    as (E1 & E2 & _).
  set (s5 := for_down _ (updateBullet canvas) s4) in *.
  destruct (for_down_calm _ (updateParticle_frame)
              (List.length (particles s5)) s5) as (F1 & F2 & _).
  set (s6 := for_down _ (updateParticle deltaTime) s5) in *.
  destruct (for_down_calm _ (updatePowerUp_frame)
              (List.length (powerUps s6)) s6) as (G1 & G2 & _).
  split; eauto 10 using steady_trans, unhurt_trans.
Qed.

(** After [updatePlayer] the rest of the movement keeps the player in
    place. *)
Lemma movement_inPlace s :
  inPlace (updatePlayer canvas s) (movement canvas currentTime deltaTime s).
Proof.
  unfold movement, updatePowerUps, updateParticles, updateBullets,
    updateEnemies.
  set (s1 := updatePlayer canvas s) in *.
  destruct (shooting_frame s1) as (_ & _ & B).
  set (s2 := shooting currentTime s1) in *.
  destruct (coolDown_frame s2) as (_ & _ & C).
  set (s3 := coolDown deltaTime s2) in *.
  destruct (for_down_calm _ (updateEnemy_frame) (List.length (enemies s3)) s3)
    as (_ & _ & D).
  set (s4 := for_down _ (updateEnemy canvas currentTime) s3) in *.
  destruct (for_down_calm _ (updateBullet_frame) (List.length (bullets s4)) s4)
    as (_ & _ & E).
  set (s5 := for_down _ (updateBullet canvas) s4) in *.
  destruct (for_down_calm _ (updateParticle_frame)
              (List.length (particles s5)) s5) as (_ & _ & F).
  set (s6 := for_down _ (updateParticle deltaTime) s5) in *.
  destruct (for_down_calm _ (updatePowerUp_frame)
              (List.length (powerUps s6)) s6) as (_ & _ & G).
  eauto 10 using inPlace_trans.
Qed.

End Frames.

Section CombatFrames.
Context {M : MathLib}.

Lemma hitEnemy_frame i b j s :
  steady s (fst (hitEnemy i b j s)) /\ unhurt s (fst (hitEnemy i b j s))
  /\ inPlace s (fst (hitEnemy i b j s)).
Proof.
  destruct (nth_error (enemies s) j) as [e|] eqn:He.
  2:{ rewrite hitEnemy_miss; [repeat split|]. intros e He'. congruence. }
  destruct (overlaps b e) eqn:Hov.
  2:{ rewrite hitEnemy_miss; [repeat split|].
      intros e' He'. replace e' with e by congruence. exact Hov. }
  destruct (Qleb (Enemy.health e - Bullet.damage b) 0) eqn:Hh.
  - destruct (hitEnemy_kill i b j s e He Hov Hh) as (ps & _ & E).
    rewrite E. repeat split.
  - destruct (hitEnemy_wound i b j s e He Hov Hh) as (ps & _ & E).
    rewrite E. repeat split.
Qed.

Lemma bulletVsEnemies_frame i s :
  steady s (bulletVsEnemies i s) /\ unhurt s (bulletVsEnemies i s)
  /\ inPlace s (bulletVsEnemies i s).
Proof.
  unfold bulletVsEnemies.
  destruct (nth_error (bullets s) i) as [b|]; [|repeat split].
  destruct (negb (Bullet.isPlayerBullet b)); [repeat split|].
  apply (for_down_break_ind
           (fun t => steady s t /\ unhurt s t /\ inPlace s t)).
  - intros j t (H1 & H2 & H3).
    destruct (hitEnemy_frame i b j t) as (B1 & B2 & B3).
    split; [|split];
      eauto using steady_trans, unhurt_trans, inPlace_trans.
  - repeat split.
Qed.

Lemma bulletsVsEnemies_frame s :
  steady s (bulletsVsEnemies s) /\ unhurt s (bulletsVsEnemies s)
  /\ inPlace s (bulletsVsEnemies s).
Proof. apply for_down_calm. apply bulletVsEnemies_frame. Qed.

Lemma for_down_steady (body : nat -> GameState -> GameState) :
  (forall i t, steady t (body i t) /\ inPlace t (body i t)) ->
  forall n s, steady s (for_down n body s) /\ inPlace s (for_down n body s).
Proof.
  intros Hbody n s.
  apply (for_down_ind (fun t => steady s t /\ inPlace s t)).
  - intros i t (H1 & H2). destruct (Hbody i t) as (B1 & B2).
    split; eauto using steady_trans, inPlace_trans.
  - split; auto using steady_refl, inPlace_refl.
Qed.

Lemma bulletVsPlayer_frame i s :
  steady s (bulletVsPlayer i s) /\ inPlace s (bulletVsPlayer i s).
Proof.
  destruct (bulletVsPlayer_cases i s) as [E|(b & _ & _ & _ & Hc)].
  { rewrite E. repeat split. }
  fields Hc. unfold steady, inPlace.
  rewrite Hplayer, Hwave, HwaveProgress, HenemiesThisWave, Hpaused, Hkeys.
  repeat split.
Qed.

Lemma playerVsEnemy_frame i s :
  steady s (playerVsEnemy i s) /\ inPlace s (playerVsEnemy i s).
Proof.
  destruct (playerVsEnemy_cases i s) as [E|(b & _ & _ & Hc)].
  { rewrite E. repeat split. }
  fields Hc. unfold steady, inPlace.
  rewrite Hplayer, Hwave, HwaveProgress, HenemiesThisWave, Hpaused, Hkeys.
  repeat split.
Qed.

Lemma playerVsPowerUp_frame i s :
  steady s (playerVsPowerUp i s) /\ inPlace s (playerVsPowerUp i s)
  /\ gameOver (playerVsPowerUp i s) = gameOver s.
Proof.
  destruct (nth_error (powerUps s) i) as [u|] eqn:Hu.
  2:{ rewrite playerVsPowerUp_miss; [repeat split|].
      intros u Hu'. congruence. }
  destruct (Qltb
        (hypot (Vector2.x (Player.pos (player s)) - Vector2.x (PowerUp.pos u))
           (Vector2.y (Player.pos (player s)) - Vector2.y (PowerUp.pos u)))
        (fadd (Player.radius (player s)) (PowerUp.radius u))) eqn:Hd.
  2:{ rewrite playerVsPowerUp_miss; [repeat split|].
      intros u' Hu'. replace u' with u by congruence. exact Hd. }
  pose proof (playerVsPowerUp_hit i s u Hu Hd) as Hc.
  fields Hc. unfold steady, inPlace.
  rewrite Hplayer, Hwave, HwaveProgress, HenemiesThisWave, Hpaused, Hkeys,
    HgameOver.
  destruct (PowerUp.type u); repeat split.
Qed.

Lemma combat_frame s : steady s (combat s) /\ inPlace s (combat s).
Proof.
  unfold combat, playerVsPowerUps, playerVsEnemies, bulletsVsPlayer.
  destruct (bulletsVsEnemies_frame s) as (A1 & _ & A2).
  set (s1 := bulletsVsEnemies s) in *.
  destruct (for_down_steady _ bulletVsPlayer_frame
              (List.length (bullets s1)) s1) as (B1 & B2).
  set (s2 := for_down _ bulletVsPlayer s1) in *.
  destruct (for_down_steady _ playerVsEnemy_frame
              (List.length (enemies s2)) s2) as (C1 & C2).
  set (s3 := for_down _ playerVsEnemy s2) in *.
  destruct (for_down_steady _
              (fun i t => conj (proj1 (playerVsPowerUp_frame i t))
                               (proj1 (proj2 (playerVsPowerUp_frame i t))))
              (List.length (powerUps s3)) s3) as (D1 & D2).
  split; eauto 10 using steady_trans, inPlace_trans.
Qed.

End CombatFrames.

(** ** Game over *)

Section GameOver.
Context {M : MathLib}.

Lemma set_nth_same {A : Type} (l : list A) (i : nat) (v : A) :
  nth_error l i = Some v -> set_nth i v l = l.
Proof.
  intros H. unfold set_nth. rewrite H.
  rewrite <- (firstn_skipn i l) at 3. f_equal.
  revert i H; induction l as [|a l IH]; intros [|i] H; try discriminate.
  - now inversion H.
  - apply (IH i H).
Qed.

Lemma sealed_bulletVsPlayer i s : sealed s -> sealed (bulletVsPlayer i s).
Proof.
  intros Hs. destruct (bulletVsPlayer_cases i s) as [E|(b & _ & _ & _ & Hc)].
  { now rewrite E. }
  fields Hc. unfold sealed. rewrite Hplayer. reflexivity.
Qed.

Lemma sealed_playerVsEnemy i s : sealed s -> sealed (playerVsEnemy i s).
Proof.
  intros Hs. destruct (playerVsEnemy_cases i s) as [E|(b & _ & _ & Hc)].
  { now rewrite E. }
  fields Hc. unfold sealed. rewrite Hplayer. reflexivity.
Qed.

Lemma sealed_bulletsVsPlayer s : sealed s -> sealed (bulletsVsPlayer s).
Proof.
  apply (for_down_ind sealed). intros i t. apply sealed_bulletVsPlayer.
Qed.

Lemma sealed_entering_combat canvas currentTime deltaTime s :
  gameOver s = false ->
  gameOver (bulletsVsEnemies (movement canvas currentTime deltaTime s))
  = false.
Proof.
  intros H.
  destruct (movement_frame canvas currentTime deltaTime s) as (_ & A & _).
  destruct (bulletsVsEnemies_frame
              (movement canvas currentTime deltaTime s)) as (_ & (B & _) & _).
  congruence.
Qed.

(** C1, in the form the code satisfies: a frame that starts in a finished game changes
    nothing, so no later movement or combat alters the health; setting the
    flag again is idempotent; within the frame that sets the flag, the flag
    is only ever set together with an open invulnerability window
    ([sealed], which holds on entering combat and is kept by every
    iteration of the two damaging passes), and from any such point on every
    further iteration of the enemy-bullet and body-contact passes, and both
    passes as a whole, leave the state and so the health unchanged.  The
    power-up pass of that frame is not covered. *)
Theorem C1_game_over_freezes_health :
  (forall canvas currentTime deltaTime s,
     gameOver s = true ->
     gameLoop canvas currentTime deltaTime s = (s, []))
  /\ (forall currentTime w s,
        current w = Some s -> gameOver s = true ->
        store (animationFrame currentTime w) = store w
        /\ pending (animationFrame currentTime w) = pending w)
  /\ (forall s, set_gameOver true (set_gameOver true s) = set_gameOver true s)
  /\ (forall canvas currentTime deltaTime s,
        gameOver s = false ->
        sealed (bulletsVsEnemies (movement canvas currentTime deltaTime s)))
  /\ (forall s i,
        sealed s ->
        sealed (bulletVsPlayer i s) /\ sealed (playerVsEnemy i s))
  /\ (forall s,
        sealed s -> gameOver s = true ->
        (forall i, bulletVsPlayer i s = s /\ playerVsEnemy i s = s)
        /\ bulletsVsPlayer s = s /\ playerVsEnemies s = s)
  /\ (forall s,
        sealed s -> gameOver (bulletsVsPlayer s) = true ->
        playerVsEnemies (bulletsVsPlayer s) = bulletsVsPlayer s).
Proof.
  split; [|split; [|split; [|split; [|split; [|split]]]]].
  - intros canvas currentTime deltaTime s H. unfold gameLoop.
    rewrite H. now rewrite orb_true_r.
  - intros currentTime w s Hc H. unfold animationFrame. rewrite Hc.
    unfold gameLoop. rewrite H, orb_true_r. cbn.
    rewrite app_nil_r. split; [|reflexivity].
    now apply set_nth_same.
  - reflexivity.
  - intros canvas currentTime deltaTime s H Hover.
    rewrite (sealed_entering_combat canvas currentTime deltaTime s H) in Hover.
    discriminate.
  - intros s i Hs. split;
      [now apply sealed_bulletVsPlayer | now apply sealed_playerVsEnemy].
  - intros s Hs Hover. specialize (Hs Hover). repeat split.
    + now apply invulnerable_blocks_bullet.
    + now apply invulnerable_blocks_body.
    + now apply invulnerable_blocks_bullets.
    + now apply invulnerable_blocks_bodies.
  - intros s Hs Hover. apply invulnerable_blocks_bodies.
    now apply sealed_bulletsVsPlayer.
Qed.

End GameOver.

(** On wave 3, a player with 4 health left, an enemy bullet of damage 8
    about to reach it and a health power-up about to reach it: the bullet
    pass of the frame sets the game-over flag with health -4, and the
    power-up pass of the same frame then raises the health to 16. *)
Lemma C1_game_over_freezes_health_counterexample :
  let M := Sample.math [] in
  let canvas := mkCanvas 800 600 in
  let s0 := set_enemiesThisWave 11 (set_wave 3 (initGame canvas 0)) in
  let s :=
    set_powerUps
      [PowerUp.mk (Vector2.mk 400 498) (Vector2.mk 0 2) 10 health "#44ff44"]
      (set_bullets
         [Bullet.mk (Vector2.mk 400 496) (Vector2.mk 0 4) 5 8 false]
         (set_player (Player.set_health 4 (player s0)) s0)) in
  let s1 := bulletsVsPlayer (bulletsVsEnemies (movement canvas 16 16 s)) in
  let s2 := playerVsPowerUps (playerVsEnemies s1) in
  gameOver s1 = true
  /\ Player.health (player s1) == -4
  /\ fst (gameLoop canvas 16 16 s) = s2
  /\ gameOver s2 = true
  /\ Player.health (player s2) == 16
  /\ ~ Player.health (player s2) == Player.health (player s1).
Proof.
  intros M canvas s0 s s1 s2.
  split; [vm_compute; reflexivity|].
  split; [vm_compute; reflexivity|].
  split; [vm_compute; reflexivity|].
  split; [vm_compute; reflexivity|].
  split; [vm_compute; reflexivity|].
  vm_compute. discriminate.
Qed.

Lemma C1_game_over_freezes_health_witness :
  let M := Sample.math [] in
  let canvas := mkCanvas 800 600 in
  let s0 := set_wave 3 (initGame canvas 0) in
  let s :=
    set_gameOver true
      (set_enemies
         [Enemy.mk (Vector2.mk 400 495) (Vector2.mk 0 2) 15 25 25 2 basic
            (Some 0) "#ff4444"]
         (set_bullets
            [Bullet.mk (Vector2.mk 400 500) (Vector2.mk 0 4) 5 8 false]
            (set_player (struck 500 8 (Player.set_health 4 (player s0))) s0)))
  in
  (gameOver s = true /\ gameLoop canvas 16 16 s = (s, []))
  /\ (sealed s /\ bulletsVsPlayer s = s /\ playerVsEnemies s = s).
Proof.
  intros M canvas s0 s.
  assert (H : gameOver s = true) by reflexivity.
  assert (Hs : sealed s) by (intros _; reflexivity).
  split.
  - split; [exact H|].
    exact (proj1 C1_game_over_freezes_health canvas 16 16 s H).
  - split; [exact Hs|].
    exact (proj2 (proj1 (proj2 (proj2 (proj2 (proj2 (proj2
             C1_game_over_freezes_health))))) s Hs H)).
Defined.

(** ** Bullet ownership *)

Section Ownership.
Context {M : MathLib}.

Lemma enemy_bullet_skipped i s b :
  nth_error (bullets s) i = Some b -> Bullet.isPlayerBullet b = false ->
  bulletVsEnemies i s = s.
Proof. intros Hb Hown. unfold bulletVsEnemies. now rewrite Hb, Hown. Qed.

Lemma player_bullet_skipped i s b :
  nth_error (bullets s) i = Some b -> Bullet.isPlayerBullet b = true ->
  bulletVsPlayer i s = s.
Proof. intros Hb Hown. unfold bulletVsPlayer. now rewrite Hb, Hown. Qed.

Lemma no_player_bullets s :
  (forall b, In b (bullets s) -> Bullet.isPlayerBullet b = false) ->
  bulletsVsEnemies s = s.
Proof.
  intros H. apply for_down_fix. intros i.
  destruct (nth_error (bullets s) i) as [b|] eqn:Hb.
  - apply (enemy_bullet_skipped i s b Hb). apply H.
    eapply nth_error_In; eauto.
  - unfold bulletVsEnemies. now rewrite Hb.
Qed.

Lemma no_enemy_bullets s :
  (forall b, In b (bullets s) -> Bullet.isPlayerBullet b = true) ->
  bulletsVsPlayer s = s.
Proof.
  intros H. apply for_down_fix. intros i.
  destruct (nth_error (bullets s) i) as [b|] eqn:Hb.
  - apply (player_bullet_skipped i s b Hb). apply H.
    eapply nth_error_In; eauto.
  - unfold bulletVsPlayer. now rewrite Hb.
Qed.

Lemma for_down_break_cases {St : Type} (body : nat -> St -> St * bool)
    (s : St) (n : nat) :
  (forall k, snd (body k s) = false -> fst (body k s) = s) ->
  for_down_break n body s = s
  \/ exists j, (j < n)%nat /\ snd (body j s) = true
               /\ for_down_break n body s = fst (body j s).
Proof.
  intros Hmiss. induction n as [|n IH]; [now left|].
  cbn [for_down_break]. specialize (Hmiss n).
  destruct (body n s) as [s' stop] eqn:E. cbn [fst snd] in Hmiss.
  destruct stop.
  - right. exists n. rewrite E. repeat split. lia.
  - rewrite (Hmiss eq_refl).
    destruct IH as [IH|(j & Hj & Hhit & IH)]; [now left|].
    right. exists j. repeat split; auto.
Qed.

Lemma hitEnemy_false i b j s :
  snd (hitEnemy i b j s) = false -> fst (hitEnemy i b j s) = s.
Proof.
  unfold hitEnemy. destruct (nth_error (enemies s) j) as [e|]; [|reflexivity].
  cbv zeta. destruct (Qltb _ _); [discriminate|reflexivity].
Qed.

(** An iteration of the bullet-enemy pass that changes the state is the
    hit of one enemy by the player-fired bullet at that index. *)
Lemma bulletVsEnemies_cases i s :
  bulletVsEnemies i s = s
  \/ exists b j e,
       nth_error (bullets s) i = Some b
       /\ Bullet.isPlayerBullet b = true
       /\ nth_error (enemies s) j = Some e
       /\ overlaps b e = true
       /\ (enemies (bulletVsEnemies i s)
           = set_nth j
               (Enemy.set_health (Enemy.health e - Bullet.damage b) e)
               (enemies s)
           \/ enemies (bulletVsEnemies i s) = splice1 j (enemies s)).
Proof.
  destruct (nth_error (bullets s) i) as [b|] eqn:Hb.
  2:{ left. unfold bulletVsEnemies. now rewrite Hb. }
  destruct (Bullet.isPlayerBullet b) eqn:Hown.
  2:{ left. now apply (enemy_bullet_skipped i s b). }
  rewrite (bulletVsEnemies_scan i s b Hb Hown).
  destruct (for_down_break_cases (hitEnemy i b) s (List.length (enemies s))
              (fun k => hitEnemy_false i b k s))
    as [E|(j & Hj & Hhit & E)]; [now left|right].
  rewrite E.
  destruct (nth_error (enemies s) j) as [e|] eqn:He.
  2:{ rewrite hitEnemy_miss in Hhit; [discriminate|].
      intros e He'. congruence. }
  destruct (overlaps b e) eqn:Hov.
  2:{ rewrite hitEnemy_miss in Hhit; [discriminate|].
      intros e' He'. replace e' with e by congruence. exact Hov. }
  exists b, j, e. repeat split; auto.
  destruct (Qleb (Enemy.health e - Bullet.damage b) 0) eqn:Hh.
  - destruct (hitEnemy_kill i b j s e He Hov Hh) as (ps & _ & E').
    rewrite E'. right. reflexivity.
  - destruct (hitEnemy_wound i b j s e He Hov Hh) as (ps & _ & E').
    rewrite E'. left. reflexivity.
Qed.

(** C10: the iteration of the bullet-enemy pass for an enemy-fired bullet,
    and the iteration of the bullet-player pass for a player-fired bullet,
    leave the whole state unchanged; so the first pass does nothing when no
    bullet is player-fired and the second nothing when no bullet is
    enemy-fired.  Every change of an enemy's health by the first pass is
    the subtraction of the damage of a player-fired bullet, and every
    change of the player by the second pass is the hit by one enemy-fired
    bullet of the state. *)
Theorem C10_bullet_ownership :
  (forall s i b,
     nth_error (bullets s) i = Some b -> Bullet.isPlayerBullet b = false ->
     bulletVsEnemies i s = s)
  /\ (forall s i b,
        nth_error (bullets s) i = Some b -> Bullet.isPlayerBullet b = true ->
        bulletVsPlayer i s = s)
  /\ (forall s,
        (forall b, In b (bullets s) -> Bullet.isPlayerBullet b = false) ->
        bulletsVsEnemies s = s)
  /\ (forall s,
        (forall b, In b (bullets s) -> Bullet.isPlayerBullet b = true) ->
        bulletsVsPlayer s = s)
  /\ (forall s i,
        bulletVsEnemies i s = s
        \/ exists b j e,
             nth_error (bullets s) i = Some b
             /\ Bullet.isPlayerBullet b = true
             /\ nth_error (enemies s) j = Some e
             /\ overlaps b e = true
             /\ (enemies (bulletVsEnemies i s)
                 = set_nth j
                     (Enemy.set_health (Enemy.health e - Bullet.damage b) e)
                     (enemies s)
                 \/ enemies (bulletVsEnemies i s) = splice1 j (enemies s)))
  /\ (forall s,
        enemies (bulletsVsPlayer s) = enemies s
        /\ (player (bulletsVsPlayer s) = player s
            \/ exists b,
                 In b (bullets s) /\ Bullet.isPlayerBullet b = false
                 /\ player (bulletsVsPlayer s)
                    = struck 500 (Bullet.damage b) (player s)))
  /\ (forall s, player (bulletsVsEnemies s) = player s).
Proof.
  split; [|split; [|split; [|split; [|split; [|split]]]]].
  - intros s i b. apply enemy_bullet_skipped.
  - intros s i b. apply player_bullet_skipped.
  - apply no_player_bullets.
  - apply no_enemy_bullets.
  - intros s i. apply bulletVsEnemies_cases.
  - intros s. destruct (bulletsVsPlayer_effect s) as (He & _ & _ & Hp).
    split; [exact He|].
    destruct Hp as [[Hp _]|(b & Hin & Hown & _ & Hp & _)]; [now left|right].
    now exists b.
  - intros s. revert s.
    enough (H : forall n s, player (for_down n bulletVsEnemies s) = player s)
      by (intros s; apply H).
    intros n s. apply (for_down_ind (fun t => player t = player s));
      [|reflexivity].
    intros i t Ht. rewrite <- Ht.
    destruct (bulletVsEnemies_cases i t) as [E|(b & j & e & Hb & Hown & _)];
      [now rewrite E|].
    unfold bulletVsEnemies. rewrite Hb, Hown. cbn [negb].
    apply (for_down_break_ind (fun u => player u = player t));
      [|reflexivity].
    intros k u Hu. rewrite <- Hu.
    destruct (nth_error (enemies u) k) as [e'|] eqn:He.
    2:{ rewrite hitEnemy_miss; [reflexivity|]. intros e0 He0. congruence. }
    destruct (overlaps b e') eqn:Hov.
    2:{ rewrite hitEnemy_miss; [reflexivity|].
        intros e0 He0. replace e0 with e' by congruence. exact Hov. }
    destruct (Qleb (Enemy.health e' - Bullet.damage b) 0) eqn:Hh.
    + destruct (hitEnemy_kill i b k u e' He Hov Hh) as (ps & _ & E').
      now rewrite E'.
    + destruct (hitEnemy_wound i b k u e' He Hov Hh) as (ps & _ & E').
      now rewrite E'.
Qed.

End Ownership.

(** An enemy-fired bullet on top of an enemy, and a player-fired bullet on
    top of the player: the pass of the other owner skips each of them. *)
Lemma C10_bullet_ownership_witness :
  let M := Sample.math [] in
  let s0 := set_wave 3 (initGame (mkCanvas 800 600) 0) in
  let e := Enemy.mk (Vector2.mk 400 300) (Vector2.mk 0 2) 15 25 25 2 basic
             (Some 0) "#ff4444" in
  let b := Bullet.mk (Vector2.mk 400 300) (Vector2.mk 0 4) 5 8 false in
  let b' := Bullet.mk (Vector2.mk 400 500) (Vector2.mk 0 (-10)) 4 10 true in
  let s := set_bullets [b; b'] (set_enemies [e] s0) in
  (nth_error (bullets s) 0 = Some b /\ Bullet.isPlayerBullet b = false
   /\ bulletVsEnemies 0 s = s)
  /\ (nth_error (bullets s) 1 = Some b' /\ Bullet.isPlayerBullet b' = true
      /\ bulletVsPlayer 1 s = s).
Proof.
  intros M s0 e b b' s. split.
  - split; [reflexivity|]. split; [reflexivity|].
    exact (proj1 C10_bullet_ownership s 0%nat b eq_refl eq_refl).
  - split; [reflexivity|]. split; [reflexivity|].
    exact (proj1 (proj2 C10_bullet_ownership) s 1%nat b' eq_refl eq_refl).
Defined.

(** ** Wave management *)

Section Waves.
Context {M : MathLib}.

Lemma waveManagement_advance s :
  (enemiesThisWave s <= waveProgress s)%Z -> enemies s = [] ->
  waveManagement s
  = (set_waveProgress 0
       (set_enemiesThisWave (5 + (wave s + 1) * 2)
          (set_wave (wave s + 1) s)),
     map (fun i => mkScheduled (Qofnat i * 500) (wave s + 1)%Z)
       (seq 0 (Z.to_nat (5 + (wave s + 1) * 2)))).
Proof.
  intros Hq He. unfold waveManagement.
  apply Z.leb_le in Hq. rewrite Hq, He. reflexivity.
Qed.

Lemma waveManagement_stay s :
  (waveProgress s < enemiesThisWave s)%Z \/ enemies s <> [] ->
  waveManagement s = (s, []).
Proof.
  intros H. unfold waveManagement.
  destruct H as [H|H].
  - apply Z.leb_gt in H. now rewrite H.
  - destruct (enemies s); [congruence|]. now rewrite andb_false_r.
Qed.

Lemma before_waveManagement canvas currentTime deltaTime s :
  steady s (combat (movement canvas currentTime deltaTime s)).
Proof.
  eapply steady_trans.
  - apply movement_frame.
  - apply combat_frame.
Qed.

Lemma gameLoop_gate canvas currentTime deltaTime s :
  paused s = true \/ gameOver s = true ->
  gameLoop canvas currentTime deltaTime s = (s, []).
Proof.
  intros [H|H]; unfold gameLoop; rewrite H; [reflexivity|].
  now rewrite orb_true_r.
Qed.

Lemma gameLoop_running canvas currentTime deltaTime s :
  paused s = false -> gameOver s = false ->
  gameLoop canvas currentTime deltaTime s
  = waveManagement (combat (movement canvas currentTime deltaTime s)).
Proof. intros H1 H2. unfold gameLoop. now rewrite H1, H2. Qed.

(** A frame in which the wave does not advance. *)
Lemma gameLoop_stay canvas currentTime deltaTime s :
  let mid := combat (movement canvas currentTime deltaTime s) in
  paused s = true \/ gameOver s = true
  \/ (waveProgress s < enemiesThisWave s)%Z \/ enemies mid <> [] ->
  let r := gameLoop canvas currentTime deltaTime s in
  wave (fst r) = wave s /\ waveProgress (fst r) = waveProgress s
  /\ enemiesThisWave (fst r) = enemiesThisWave s /\ snd r = [].
Proof.
  intros mid H r. subst r.
  destruct (paused s) eqn:Hp.
  { rewrite gameLoop_gate by auto. repeat split. }
  destruct (gameOver s) eqn:Hg.
  { rewrite gameLoop_gate by auto. repeat split. }
  rewrite gameLoop_running by assumption. fold mid.
  destruct (before_waveManagement canvas currentTime deltaTime s)
    as (Hw & Hwp & Het & _).
  fold mid in Hw, Hwp, Het.
  rewrite waveManagement_stay.
  - repeat split; assumption.
  - destruct H as [H|[H|[H|H]]]; try discriminate.
    + left. now rewrite Hwp, Het.
    + now right.
Qed.

(** A frame in which the wave advances. *)
Lemma gameLoop_advance canvas currentTime deltaTime s :
  let mid := combat (movement canvas currentTime deltaTime s) in
  paused s = false -> gameOver s = false ->
  (enemiesThisWave s <= waveProgress s)%Z -> enemies mid = [] ->
  let r := gameLoop canvas currentTime deltaTime s in
  wave (fst r) = (wave s + 1)%Z
  /\ enemiesThisWave (fst r) = (5 + 2 * wave (fst r))%Z
  /\ waveProgress (fst r) = 0%Z
  /\ enemies (fst r) = []
  /\ snd r
     = map (fun i => mkScheduled (Qofnat i * 500) (wave (fst r)))
         (seq 0 (Z.to_nat (5 + 2 * wave (fst r)))).
Proof.
  intros mid Hp Hg Hq He r. subst r.
  rewrite gameLoop_running by assumption. fold mid.
  destruct (before_waveManagement canvas currentTime deltaTime s)
    as (Hw & Hwp & Het & _).
  fold mid in Hw, Hwp, Het.
  rewrite waveManagement_advance by (rewrite ?Hwp, ?Het; assumption).
  cbn [fst snd wave enemiesThisWave waveProgress enemies set_waveProgress
       set_enemiesThisWave set_wave].
  rewrite Hw, He.
  replace (5 + 2 * (wave s + 1))%Z with (5 + (wave s + 1) * 2)%Z by lia.
  repeat split.
Qed.

Lemma scheduled_every_500 (w : Z) (k : nat) :
  (k < Z.to_nat (5 + 2 * w))%nat ->
  nth_error
    (map (fun i => mkScheduled (Qofnat i * 500) w)
       (seq 0 (Z.to_nat (5 + 2 * w)))) k
  = Some (mkScheduled (Qofnat k * 500) w).
Proof.
  intros Hk. rewrite nth_error_map, nth_error_seq.
  apply Nat.ltb_lt in Hk. now rewrite Hk.
Qed.

End Waves.

(** ** Player movement *)

Lemma clamp_between (lo hi v : Q) :
  lo <= hi -> lo <= Qmax lo (Qmin hi v) /\ Qmax lo (Qmin hi v) <= hi.
Proof.
  intros H. split; [apply Q.le_max_l|].
  apply Q.max_lub; [exact H | apply Q.le_min_l].
Qed.

Lemma clamp_lower (lo hi v : Q) : lo <= Qmax lo (Qmin hi v).
Proof. apply Q.le_max_l. Qed.

Lemma waveManagement_player {M : MathLib} (s : GameState) :
  player (fst (waveManagement s)) = player s.
Proof.
  unfold waveManagement. destruct (_ && _); reflexivity.
Qed.

(** The position that the movement update stores is the position at the
    end of the frame. *)
Lemma gameLoop_position {M : MathLib} canvas currentTime deltaTime s :
  paused s = false -> gameOver s = false ->
  Player.pos (player (fst (gameLoop canvas currentTime deltaTime s)))
  = Player.pos (player (updatePlayer canvas s)).
Proof.
  intros Hp Hg. rewrite gameLoop_running by assumption.
  rewrite waveManagement_player.
  destruct (combat_frame (movement canvas currentTime deltaTime s))
    as [_ Hc].
  pose proof (movement_inPlace canvas currentTime deltaTime s) as Hm.
  unfold inPlace in *. congruence.
Qed.

(** C6, in the form the code satisfies: when the playfield is at least as
    wide and as high as the player's diameter, the position stored by the
    movement update lies in
    [radius, bound - radius] on both axes, for every set of pressed keys:
    the velocity on an axis is +speed for the positive intent minus speed
    for the negative intent (zero when neither is active), and the position
    is the old position plus that velocity, clamped; no later phase of the
    frame moves the player. *)
Theorem C6_player_position_clamped {M : MathLib} (canvas : Canvas)
    (s : GameState) :
  let p := player s in
  let p' := player (updatePlayer canvas s) in
  let left := has (keys s) "ArrowLeft" || has (keys s) "KeyA" in
  let right := has (keys s) "ArrowRight" || has (keys s) "KeyD" in
  let up := has (keys s) "ArrowUp" || has (keys s) "KeyW" in
  let down := has (keys s) "ArrowDown" || has (keys s) "KeyS" in
  2 * Player.radius p <= width canvas ->
  2 * Player.radius p <= height canvas ->
  Player.radius p' = Player.radius p
  /\ (Player.radius p <= Vector2.x (Player.pos p')
      /\ Vector2.x (Player.pos p') <= width canvas - Player.radius p)
  /\ (Player.radius p <= Vector2.y (Player.pos p')
      /\ Vector2.y (Player.pos p') <= height canvas - Player.radius p)
  /\ Vector2.x (Player.vel p')
     == (if right then Player.speed p else 0)
        - (if left then Player.speed p else 0)
  /\ Vector2.y (Player.vel p')
     == (if down then Player.speed p else 0)
        - (if up then Player.speed p else 0)
  /\ Vector2.x (Player.pos p')
     = Qmax (Player.radius p)
         (Qmin (width canvas - Player.radius p)
            (Vector2.x (Player.pos p) + Vector2.x (Player.vel p')))
  /\ Vector2.y (Player.pos p')
     = Qmax (Player.radius p)
         (Qmin (height canvas - Player.radius p)
            (Vector2.y (Player.pos p) + Vector2.y (Player.vel p')))
  /\ (forall currentTime deltaTime,
        paused s = false -> gameOver s = false ->
        Player.pos (player (fst (gameLoop canvas currentTime deltaTime s)))
        = Player.pos p').
Proof.
  intros p p' left right up down Hw Hh.
  subst p'. unfold updatePlayer. fold p. fold left right up down. simpl.
  split; [reflexivity|].
  split; [apply clamp_between; lra|].
  split; [apply clamp_between; lra|].
  split; [destruct left, right; lra|].
  split; [destruct up, down; lra|].
  split; [reflexivity|]. split; [reflexivity|].
  intros currentTime deltaTime. apply gameLoop_position.
Qed.

(** At the first frame of a 800 by 600 canvas with the right and up keys
    held. *)
Lemma C6_player_position_clamped_witness :
  let M := Sample.math [] in
  let canvas := mkCanvas 800 600 in
  let s := set_keys ["ArrowRight"%string; "KeyW"%string] (initGame canvas 0) in
  let p' := player (updatePlayer canvas s) in
  15 <= Vector2.x (Player.pos p') /\ Vector2.x (Player.pos p') <= 800 - 15.
Proof.
  intros M canvas s p'.
  refine (proj1 (proj2 (C6_player_position_clamped canvas s _ _)));
    vm_compute; discriminate.
Defined.

(** The claim as the spec states it fails on a playfield narrower than the
    player: in a window of 20 by 20 the player of radius 15 is put at
    (15, 15), above bound - radius = 5 on both axes. *)
Lemma C6_player_position_clamped_counterexample :
  let M := Sample.math [] in
  let canvas := mkCanvas 20 20 in
  let s := initGame canvas 0 in
  let p' := player (updatePlayer canvas s) in
  Player.pos p' = Vector2.mk 15 15
  /\ Player.radius p' = 15
  /\ width canvas - Player.radius p' == 5
  /\ ~ (Player.radius p' <= Vector2.x (Player.pos p')
        /\ Vector2.x (Player.pos p') <= width canvas - Player.radius p')
  /\ ~ (Player.radius p' <= Vector2.y (Player.pos p')
        /\ Vector2.y (Player.pos p') <= height canvas - Player.radius p').
Proof.
  intros M canvas s p'.
  split; [vm_compute; reflexivity|]. split; [reflexivity|].
  split; [reflexivity|].
  split; intros [_ H]; vm_compute in H; apply H; reflexivity.
Qed.

(** Without the size condition the lower bound still holds. *)
Lemma updatePlayer_lower_bound (canvas : Canvas) (s : GameState) :
  let p' := player (updatePlayer canvas s) in
  Player.radius (player s) <= Vector2.x (Player.pos p')
  /\ Player.radius (player s) <= Vector2.y (Player.pos p').
Proof. split; apply clamp_lower. Qed.

(** ** Timers and events *)

Section Events.
Context {M : MathLib}.

Lemma nth_error_set_nth {A : Type} (l : list A) (i : nat) (v : A) :
  (i < List.length l)%nat -> nth_error (set_nth i v l) i = Some v.
Proof.
  intros H. unfold set_nth.
  destruct (nth_error l i) eqn:E.
  - rewrite nth_error_app2; rewrite length_firstn; [|lia].
    replace (i - Nat.min i (List.length l))%nat with 0%nat by lia.
    reflexivity.
  - apply nth_error_None in E. lia.
Qed.

Lemma length_set_nth {A : Type} (l : list A) (i : nat) (v : A) :
  List.length (set_nth i v l) = List.length l.
Proof.
  unfold set_nth. destruct (nth_error l i) eqn:E; [|reflexivity].
  apply nth_error_lt in E.
  rewrite length_app, length_firstn. cbn [List.length].
  rewrite length_skipn. lia.
Qed.

Lemma current_set_current w s s' :
  current w = Some s -> current (set_current s' w) = Some s'.
Proof.
  unfold current, set_current. cbn [store gameStateRef]. intros H.
  apply nth_error_set_nth. eapply nth_error_lt; eauto.
Qed.

(** A callback that finds the game over returns at once. *)
Lemma spawnCallback_over t w cur :
  current w = Some cur -> gameOver cur = true -> spawnCallback t w = w.
Proof. intros Hc Hg. unfold spawnCallback. now rewrite Hc, Hg. Qed.

Lemma fire_over k w cur :
  current w = Some cur -> gameOver cur = true ->
  store (fire k w) = store w /\ gameStateRef (fire k w) = gameStateRef w
  /\ pending (fire k w) = splice1 k (pending w)
  /\ lastTime (fire k w) = lastTime w /\ screen (fire k w) = screen w.
Proof.
  intros Hc Hg. unfold fire.
  destruct (nth_error (pending w) k) as [t|] eqn:Ht.
  - rewrite (spawnCallback_over t _ cur); [repeat split| exact Hc | exact Hg].
  - repeat split. apply nth_error_None in Ht. unfold splice1.
    rewrite firstn_all2, skipn_all2 by lia. now rewrite app_nil_r.
Qed.

(** The enemy type drawn by a callback for [wave] from the random value
    [rand]. *)
Lemma spawnCallback_live t w cur :
  current w = Some cur -> gameOver cur = false ->
  closure t = gameStateRef w ->
  let wave := forWave (call t) in
  let rand := Mrandom (draws cur) in
  let type :=
    if (3 <=? wave)%Z && Qltb rand 0.3 then shooter
    else if (2 <=? wave)%Z && Qltb rand 0.5 then fast
    else if (4 <=? wave)%Z && Qltb rand 0.6 then tank
    else basic in
  let spawned := spawnEnemy (screen w) type wave (set_draws (S (draws cur)) cur)
  in
  current (spawnCallback t w)
  = Some (set_waveProgress (waveProgress cur + 1) spawned)
  /\ List.length (enemies spawned) = S (List.length (enemies cur))
  /\ pending (spawnCallback t w) = pending w.
Proof.
  intros Hc Hg Hcl wave rand type spawned.
  unfold spawnCallback. rewrite Hc, Hg. cbv zeta.
  fold wave. fold rand. fold type. fold spawned.
  assert (Hlt : (gameStateRef w < List.length (store w))%nat)
    by (eapply nth_error_lt; exact Hc).
  cbn [store set_current gameStateRef]. rewrite Hcl.
  rewrite nth_error_set_nth by exact Hlt.
  unfold current. cbn [store gameStateRef pending].
  rewrite nth_error_set_nth by (rewrite length_set_nth; exact Hlt).
  repeat split.
  unfold spawned, spawnEnemy. cbn [enemies set_enemies set_draws].
  unfold push. rewrite length_app. cbn. lia.
Qed.

End Events.

Section WaveClaim.
Context {M : MathLib}.

Lemma step_quota_open w e cur :
  noTimeout e -> current w = Some cur ->
  (waveProgress cur < enemiesThisWave cur)%Z ->
  exists cur',
    current (step w e) = Some cur'
    /\ (waveProgress cur' < enemiesThisWave cur')%Z
    /\ (wave cur' = wave cur \/ wave cur' = 1%Z).
Proof.
  intros He Hc Hq. destruct e as [t|k|code|code|iw ih]; cbn [step].
  - unfold animationFrame. rewrite Hc.
    destruct (gameLoop_stay (screen w) t (t - lastTime w) cur)
      as (Hw & Hwp & Het & _); [auto|].
    destruct (gameLoop (screen w) t (t - lastTime w) cur) as [s' sched].
    cbn [fst] in *. exists s'. split.
    + unfold current. cbn [store gameStateRef].
      apply nth_error_set_nth. eapply nth_error_lt; exact Hc.
    + split; [lia|now left].
  - destruct He.
  - unfold handleKeyDown. rewrite Hc.
    destruct (String.eqb code "Space" && gameOver cur).
    + exists (initGame (screen w) (draws cur)). split.
      * unfold current, push. cbn [store gameStateRef].
        rewrite nth_error_app2 by lia. now rewrite Nat.sub_diag.
      * split; [reflexivity|now right].
    + destruct (String.eqb code "KeyP").
      * eexists. split; [eapply current_set_current; exact Hc|].
        split; [exact Hq|now left].
      * eexists. split; [eapply current_set_current; exact Hc|].
        split; [exact Hq|now left].
  - unfold handleKeyUp. rewrite Hc.
    eexists. split; [eapply current_set_current; exact Hc|].
    split; [exact Hq|now left].
  - exists cur. split; [exact Hc|]. split; [exact Hq|now left].
Qed.

(** Until a timer fires, a wave whose quota has not been issued does not
    advance; the wave is 1 again after a restart. *)
Lemma run_quota_open es : forall w cur,
  Forall noTimeout es -> current w = Some cur ->
  (waveProgress cur < enemiesThisWave cur)%Z ->
  exists cur',
    current (run w es) = Some cur'
    /\ (wave cur' = wave cur \/ wave cur' = 1%Z).
Proof.
  induction es as [|e es IH]; intros w cur Hes Hc Hq.
  - exists cur. split; [exact Hc|now left].
  - inversion Hes as [|? ? He Hes']; subst.
    destruct (step_quota_open w e cur He Hc Hq) as (c1 & Hc1 & Hq1 & Hw1).
    destruct (IH (step w e) c1 Hes' Hc1 Hq1) as (c2 & Hc2 & Hw2).
    exists c2. split; [exact Hc2|].
    destruct Hw1 as [Hw1|Hw1], Hw2 as [Hw2|Hw2]; rewrite ?Hw2, ?Hw1; auto.
Qed.

(** C2: a frame leaves the wave number as it is while an enemy is alive at
    wave management, even when the quota is met, and also while the quota
    is not met, the game is paused or over; in a running frame with the
    quota met and no enemy left it adds exactly 1 to the wave, stores the
    target 5 + 2 N for the new wave N, resets the progress to 0 and
    schedules 5 + 2 N callbacks, the k-th with a delay of 500 k
    milliseconds; each callback that runs in a game that is not over adds
    one enemy and one to the progress; and after an advance no sequence of
    frames and key events advances the wave again before a timer fires. *)
Theorem C2_wave_advance :
  (forall canvas currentTime deltaTime s,
     let mid := combat (movement canvas currentTime deltaTime s) in
     let r := gameLoop canvas currentTime deltaTime s in
     (paused s = true \/ gameOver s = true
      \/ (waveProgress s < enemiesThisWave s)%Z \/ enemies mid <> [] ->
      wave (fst r) = wave s /\ waveProgress (fst r) = waveProgress s
      /\ enemiesThisWave (fst r) = enemiesThisWave s /\ snd r = [])
     /\ (paused s = false -> gameOver s = false ->
         (enemiesThisWave s <= waveProgress s)%Z -> enemies mid = [] ->
         wave (fst r) = (wave s + 1)%Z
         /\ enemiesThisWave (fst r) = (5 + 2 * wave (fst r))%Z
         /\ waveProgress (fst r) = 0%Z
         /\ enemies (fst r) = []
         /\ snd r
            = map (fun i => mkScheduled (Qofnat i * 500) (wave (fst r)))
                (seq 0 (Z.to_nat (5 + 2 * wave (fst r)))))
     /\ (wave (fst r) = wave s \/ wave (fst r) = (wave s + 1)%Z))
  /\ (forall (N : Z) (k : nat),
        (k < Z.to_nat (5 + 2 * N))%nat ->
        nth_error
          (map (fun i => mkScheduled (Qofnat i * 500) N)
             (seq 0 (Z.to_nat (5 + 2 * N)))) k
        = Some (mkScheduled (Qofnat k * 500) N))
  /\ (forall t w cur,
        current w = Some cur -> gameOver cur = false ->
        closure t = gameStateRef w ->
        exists cur',
          current (spawnCallback t w) = Some cur'
          /\ List.length (enemies cur') = S (List.length (enemies cur))
          /\ waveProgress cur' = (waveProgress cur + 1)%Z
          /\ wave cur' = wave cur)
  /\ (forall canvas currentTime deltaTime s es w,
        paused s = false -> gameOver s = false -> (0 <= wave s)%Z ->
        (enemiesThisWave s <= waveProgress s)%Z ->
        enemies (combat (movement canvas currentTime deltaTime s)) = [] ->
        let s' := fst (gameLoop canvas currentTime deltaTime s) in
        current w = Some s' -> Forall noTimeout es ->
        exists cur',
          current (run w es) = Some cur'
          /\ (wave cur' = wave s' \/ wave cur' = 1%Z)).
Proof.
  split; [|split; [|split]].
  - intros canvas currentTime deltaTime s mid r. split; [|split].
    + apply gameLoop_stay.
    + apply gameLoop_advance.
    + destruct (paused s) eqn:Hp;
        [left; apply gameLoop_stay; auto|].
      destruct (gameOver s) eqn:Hg;
        [left; apply gameLoop_stay; auto|].
      destruct (Z_lt_le_dec (waveProgress s) (enemiesThisWave s)) as [Hq|Hq];
        [left; apply gameLoop_stay; auto|].
      destruct (enemies mid) eqn:He.
      * right. now apply gameLoop_advance.
      * left. apply gameLoop_stay. right; right; right.
        fold mid. rewrite He. discriminate.
  - intros N k. apply scheduled_every_500.
  - intros t w cur Hc Hg Hcl.
    destruct (spawnCallback_live t w cur Hc Hg Hcl) as (E & Hlen & _).
    eexists. split; [exact E|]. repeat split. exact Hlen.
  - intros canvas currentTime deltaTime s es w Hp Hg Hw Hq He s' Hc Hes.
    destruct (gameLoop_advance canvas currentTime deltaTime s Hp Hg Hq He)
      as (A1 & A2 & A3 & _).
    fold s' in A1, A2, A3.
    apply (run_quota_open es w s' Hes Hc). lia.
Qed.

End WaveClaim.

(** The seven enemies of wave 1 have been issued and none is left: the next
    frame enters wave 2 with a target of nine. *)
Lemma C2_wave_advance_witness :
  let M := Sample.math [] in
  let canvas := mkCanvas 800 600 in
  let s := set_waveProgress 7 (set_enemiesThisWave 7 (initGame canvas 0)) in
  let r := gameLoop canvas 16 16 s in
  (enemiesThisWave s <= waveProgress s)%Z
  /\ enemies (combat (movement canvas 16 16 s)) = []
  /\ wave (fst r) = (wave s + 1)%Z
  /\ enemiesThisWave (fst r) = (5 + 2 * wave (fst r))%Z
  /\ waveProgress (fst r) = 0%Z
  /\ enemies (fst r) = []
  /\ snd r
     = map (fun i => mkScheduled (Qofnat i * 500) (wave (fst r)))
         (seq 0 (Z.to_nat (5 + 2 * wave (fst r)))).
Proof.
  intros M canvas s r.
  assert (Hq : (enemiesThisWave s <= waveProgress s)%Z)
    by (vm_compute; discriminate).
  assert (He : enemies (combat (movement canvas 16 16 s)) = [])
    by (vm_compute; reflexivity).
  split; [exact Hq|]. split; [exact He|].
  exact (proj1 (proj2 (proj1 C2_wave_advance canvas 16 16 s))
           eq_refl eq_refl Hq He).
Defined.

(** ** Spawn callbacks of a finished run *)

Section StaleTimers.
Context {M : MathLib}.

(** While the current state is a finished game, a timer that fires is
    dropped: nothing but the list of pending timers changes. *)
Lemma spawn_dropped_while_over k w cur :
  current w = Some cur -> gameOver cur = true ->
  store (step w (Timeout k)) = store w
  /\ gameStateRef (step w (Timeout k)) = gameStateRef w
  /\ pending (step w (Timeout k)) = splice1 k (pending w).
Proof.
  intros Hc Hg. destruct (fire_over k w cur Hc Hg) as (A & B & C & _).
  now repeat split.
Qed.

End StaleTimers.

(** C9: a run on wave 3 with seven of eleven enemies issued, one spawn
    callback still pending, and a player with 10 health in contact with an
    enemy.  The next frame ends the run (health -6).  While the finished
    state is the current one the callback, if it fires, is dropped; but
    after a restart (Space) it finds a current state that is not over, adds
    a wave-3 enemy to the new run and advances the spawn progress of the
    finished run's state, which its closure captured. *)
Theorem C9_stale_spawn_after_restart :
  let M := Sample.math [] in
  let canvas := mkCanvas 800 600 in
  let s0 := initGame canvas 0 in
  let dying :=
    set_enemies
      [Enemy.mk (Vector2.mk 400 480) (Vector2.mk 0 2.3) 15 35 35 2.3 basic
         (Some 0) "#ff4444"]
      (set_player (Player.set_health 10 (player s0))
         (set_waveProgress 7 (set_enemiesThisWave 11 (set_wave 3 s0)))) in
  let t := mkTimer (mkScheduled 3500 3) 0 in
  let w := mkWorld [dying] 0 [t] 1000 canvas in
  let w1 := step w (AnimationFrame 1016) in
  let finished := nth 0 (store w1) dying in
  let w3 := run w1 [KeyDown "Space"; Timeout 0] in
  let restarted := nth 1 (store w3) dying in
  (store w1 = [finished] /\ pending w1 = [t]
   /\ gameOver finished = true /\ Player.health (player finished) == -6
   /\ wave finished = 3%Z /\ waveProgress finished = 7%Z)
  /\ store (step w1 (Timeout 0)) = [finished]
  /\ (store w3 = [set_waveProgress 8 finished; restarted]
      /\ gameStateRef w3 = 1%nat
      /\ gameOver restarted = false /\ wave restarted = 1%Z
      /\ waveProgress restarted = 0%Z
      /\ map Enemy.type (enemies restarted) = [shooter]
      /\ map Enemy.health (enemies restarted) = [15 + QofZ 3 * 4]).
Proof.
  vm_compute. repeat split.
Qed.


(** ** The movement loops as maps that drop elements *)

Lemma nth_error_middle {A : Type} (pre post : list A) (a : A) :
  nth_error (pre ++ a :: post) (List.length pre) = Some a.
Proof. rewrite nth_error_app2 by lia. now rewrite Nat.sub_diag. Qed.

Lemma set_nth_middle {A : Type} (pre post : list A) (a v : A) :
  set_nth (List.length pre) v (pre ++ a :: post) = pre ++ v :: post.
Proof.
  unfold set_nth. rewrite nth_error_middle.
  rewrite firstn_app, Nat.sub_diag, firstn_all, app_nil_r.
  rewrite skipn_app, skipn_all2 by lia.
  replace (S (List.length pre) - List.length pre)%nat with 1%nat by lia.
  reflexivity.
Qed.

Lemma splice1_middle {A : Type} (pre post : list A) (a : A) :
  splice1 (List.length pre) (pre ++ a :: post) = pre ++ post.
Proof.
  unfold splice1.
  rewrite firstn_app, Nat.sub_diag, firstn_all, app_nil_r.
  rewrite skipn_app, skipn_all2 by lia.
  replace (S (List.length pre) - List.length pre)%nat with 1%nat by lia.
  reflexivity.
Qed.

Lemma keep_or_drop_app {A : Type} (f : A -> option A) (l l' : list A) :
  keep_or_drop f (l ++ l') = keep_or_drop f l ++ keep_or_drop f l'.
Proof. apply flat_map_app. Qed.

Lemma keep_or_drop_length {A : Type} (f : A -> option A) (l : list A) :
  (List.length (keep_or_drop f l) <= List.length l)%nat.
Proof.
  unfold keep_or_drop. induction l as [|a l IH]; [reflexivity|].
  cbn [flat_map]. destruct (f a); cbn [app List.length]; lia.
Qed.

Lemma keep_or_drop_Forall {A : Type} (f : A -> option A) (P : A -> Prop)
    (l : list A) :
  (forall a a', f a = Some a' -> P a') -> Forall P (keep_or_drop f l).
Proof.
  intros H. unfold keep_or_drop. induction l as [|a l IH]; [constructor|].
  cbn [flat_map]. destruct (f a) as [a'|] eqn:E; [|exact IH].
  constructor; [now apply (H a)|exact IH].
Qed.

(** A loop from the last index down whose iteration at an index only
    replaces or removes the element at that index visits every element of
    the array once. *)
Section Sweep.
Context {A : Type}.
Variable get : GameState -> list A.
Variable put : list A -> GameState -> GameState.
Variable f : A -> option A.
Variable body : nat -> GameState -> GameState.
Hypothesis get_put : forall l s, get (put l s) = l.
Hypothesis put_put : forall l l' s, put l (put l' s) = put l s.
Hypothesis put_get : forall s, put (get s) s = s.
Hypothesis body_at : forall pre a post s,
  get s = pre ++ a :: post ->
  body (List.length pre) s = put (pre ++ keep_or_drop f [a] ++ post) s.

Lemma sweep_prefix (pre : list A) : forall post s,
  get s = pre ++ post ->
  for_down (List.length pre) body s = put (keep_or_drop f pre ++ post) s.
Proof.
  induction pre as [|a pre IH] using rev_ind; intros post s H.
  - cbn in *. rewrite <- H. now rewrite put_get.
  - rewrite length_app, Nat.add_comm. cbn [List.length Nat.add for_down].
    rewrite <- app_assoc in H. cbn [app] in H.
    rewrite (body_at pre a post s H).
    rewrite (IH (keep_or_drop f [a] ++ post)) by apply get_put.
    rewrite put_put, keep_or_drop_app, <- app_assoc. reflexivity.
Qed.

Lemma sweep_all (s : GameState) :
  for_down (List.length (get s)) body s = put (keep_or_drop f (get s)) s.
Proof.
  rewrite (sweep_prefix (get s) [] s) by now rewrite app_nil_r.
  now rewrite app_nil_r.
Qed.
End Sweep.

Section MovementLoops.
Variable canvas : Canvas.
Variable deltaTime : number.

Lemma updateBullets_sweep (s : GameState) :
  updateBullets canvas s
  = set_bullets (keep_or_drop (movedBullet canvas) (bullets s)) s.
Proof.
  unfold updateBullets.
  apply (sweep_all bullets set_bullets (movedBullet canvas)); try reflexivity.
  - intros t. now destruct t.
  - intros pre b post t H. unfold updateBullet.
    rewrite H, nth_error_middle. cbv zeta.
    cbn [bullets set_bullets]. rewrite set_nth_middle.
    unfold keep_or_drop, movedBullet. cbn [flat_map]. cbv zeta.
    destruct (_ || _); cbn [app].
    + now rewrite splice1_middle.
    + reflexivity.
Qed.

Lemma updateParticles_sweep (s : GameState) :
  updateParticles deltaTime s
  = set_particles (keep_or_drop (agedParticle deltaTime) (particles s)) s.
Proof.
  unfold updateParticles.
  apply (sweep_all particles set_particles (agedParticle deltaTime));
    try reflexivity.
  - intros t. now destruct t.
  - intros pre b post t H. unfold updateParticle.
    rewrite H, nth_error_middle. cbv zeta.
    cbn [particles set_particles]. rewrite set_nth_middle.
    unfold keep_or_drop, agedParticle. cbn [flat_map]. cbv zeta.
    destruct (Qleb _ 0); cbn [app].
    + now rewrite splice1_middle.
    + reflexivity.
Qed.

Lemma updatePowerUps_sweep (s : GameState) :
  updatePowerUps canvas s
  = set_powerUps (keep_or_drop (fallenPowerUp canvas) (powerUps s)) s.
Proof.
  unfold updatePowerUps.
  apply (sweep_all powerUps set_powerUps (fallenPowerUp canvas));
    try reflexivity.
  - intros t. now destruct t.
  - intros pre b post t H. unfold updatePowerUp.
    rewrite H, nth_error_middle. cbv zeta.
    cbn [powerUps set_powerUps]. rewrite set_nth_middle.
    unfold keep_or_drop, fallenPowerUp. cbn [flat_map]. cbv zeta.
    destruct (Qgtb _ _); cbn [app].
    + now rewrite splice1_middle.
    + reflexivity.
Qed.

End MovementLoops.

Lemma keep_or_drop_Forall_In {A : Type} (f : A -> option A) (P : A -> Prop)
    (l : list A) :
  (forall a a', In a l -> f a = Some a' -> P a') ->
  Forall P (keep_or_drop f l).
Proof.
  intros H. apply Forall_forall. intros a'.
  unfold keep_or_drop. rewrite in_flat_map. intros (a & Ha & Hin).
  apply (H a a' Ha).
  destruct (f a) as [b|]; [|destruct Hin].
  destruct Hin as [->|[]]. reflexivity.
Qed.




(** The same for a loop whose iterations also change other parts of the
    state, as long as they keep [Inv]. *)
Section SweepGet.
Context {A : Type}.
Variable get : GameState -> list A.
Variable f : A -> option A.
Variable body : nat -> GameState -> GameState.
Variable Inv : GameState -> Prop.
Hypothesis body_at : forall pre a post s,
  Inv s -> get s = pre ++ a :: post ->
  get (body (List.length pre) s) = pre ++ keep_or_drop f [a] ++ post
  /\ Inv (body (List.length pre) s).

Lemma sweep_get_prefix (pre : list A) : forall post s,
  Inv s -> get s = pre ++ post ->
  get (for_down (List.length pre) body s) = keep_or_drop f pre ++ post
  /\ Inv (for_down (List.length pre) body s).
Proof.
  induction pre as [|a pre IH] using rev_ind; intros post s Hi H.
  - cbn in *. now split.
  - rewrite length_app, Nat.add_comm. cbn [List.length Nat.add for_down].
    rewrite <- app_assoc in H. cbn [app] in H.
    destruct (body_at pre a post s Hi H) as [Hg Hi'].
    destruct (IH (keep_or_drop f [a] ++ post) _ Hi' Hg) as [Hg' Hi''].
    split; [|exact Hi''].
    rewrite Hg', keep_or_drop_app, <- app_assoc. reflexivity.
Qed.

Lemma sweep_get_all (s : GameState) :
  Inv s ->
  get (for_down (List.length (get s)) body s) = keep_or_drop f (get s)
  /\ Inv (for_down (List.length (get s)) body s).
Proof.
  intros Hi.
  destruct (sweep_get_prefix (get s) [] s Hi) as [Hg Hi'];
    [now rewrite app_nil_r|].
  split; [|exact Hi']. now rewrite app_nil_r in Hg.
Qed.
End SweepGet.

Section EnemyLoop.
Context {M : MathLib}.
Variable canvas : Canvas.
Variable currentTime : number.

Lemma updateEnemy_at (s0 : GameState) pre e post s :
  (player s = player s0 /\ wave s = wave s0
   /\ exists extra,
        bullets s = bullets s0 ++ extra /\ Forall (enemyShot (wave s0)) extra) ->
  enemies s = pre ++ e :: post ->
  let s' := updateEnemy canvas currentTime (List.length pre) s in
  enemies s'
  = pre ++ keep_or_drop (movedEnemy canvas currentTime (player s0)) [e] ++ post
  /\ (player s' = player s0 /\ wave s' = wave s0
      /\ exists extra,
           bullets s' = bullets s0 ++ extra
           /\ Forall (enemyShot (wave s0)) extra).
Proof.
  intros (Hp & Hw & extra & Hb & Hx) He s'. subst s'.
  unfold updateEnemy. rewrite He, nth_error_middle. cbv zeta.
  rewrite Hp. unfold keep_or_drop, movedEnemy. cbn [flat_map]. cbv zeta.
  cbn [Enemy.lastFired Enemy.type Enemy.set_pos Enemy.set_vel].
  destruct (match Enemy.type e with shooter => _ | _ => false end);
    destruct (Qgtb _ (height canvas + 50));
    cbn [enemies bullets player wave set_enemies set_bullets app];
    rewrite ?set_nth_middle, ?splice1_middle; (split; [reflexivity|]);
    (split; [exact Hp|]); (split; [exact Hw|]).
  1,2: eexists (extra ++ [_]);
       (split; [unfold push; rewrite Hb, <- app_assoc; reflexivity|]);
       apply Forall_app; (split; [exact Hx|]);
       constructor; [|constructor]; rewrite Hw; repeat split.
  all: exists extra; now split.
Qed.

End EnemyLoop.


(** ** Shooting *)

(** X5: a shot fired at time [t] appends one player-fired bullet at the
    player's position with the player's damage, and no frame whose time
    [t'] is at most fireRate later fires another one. *)
Theorem X5_shooting_rate_limited (t t' : number) (s : GameState) :
  shooting t s <> s ->
  t' - t <= Player.fireRate (player s) ->
  has (keys s) "Space" = true
  /\ Player.fireRate (player s) < t - Player.lastFired (player s)
  /\ bullets (shooting t s)
     = bullets s
       ++ [ {| Bullet.pos := copy (Player.pos (player s));
               Bullet.vel := Vector2.mk 0 (-10);
               Bullet.radius := 4;
               Bullet.damage := Player.damage (player s);
               Bullet.isPlayerBullet := true |} ]
  /\ Player.lastFired (player (shooting t s)) = t
  /\ shooting t' (shooting t s) = shooting t s.
Proof.
  intros Hfired Hsoon. unfold shooting in *. cbv zeta in *.
  destruct (has (keys s) "Space") eqn:Hk; [|now elim Hfired].
  destruct (Qgtb (t - Player.lastFired (player s))
              (Player.fireRate (player s))) eqn:Ht; [|now elim Hfired].
  cbn [andb] in *. apply Qgtb_iff in Ht.
  repeat split; auto.
  cbn [keys player bullets set_player set_bullets Player.lastFired
       Player.fireRate Player.set_lastFired].
  rewrite Hk. cbn [andb].
  replace (Qgtb (t' - t) (Player.fireRate (player s))) with false;
    [reflexivity|].
  symmetry. apply Qltb_false_iff. exact Hsoon.
Qed.

(** The first frame with the fire key held, and a frame 16 ms later. *)
Lemma X5_shooting_rate_limited_witness :
  let s := set_keys ["Space"%string] (initGame (mkCanvas 800 600) 0) in
  shooting 1000 s <> s
  /\ 1016 - 1000 <= Player.fireRate (player s)
  /\ shooting 1016 (shooting 1000 s) = shooting 1000 s.
Proof.
  intros s.
  assert (H1 : shooting 1000 s <> s) by (vm_compute; discriminate).
  assert (H2 : 1016 - 1000 <= Player.fireRate (player s))
    by (vm_compute; discriminate).
  split; [exact H1|]. split; [exact H2|].
  exact (proj2 (proj2 (proj2 (proj2
           (X5_shooting_rate_limited 1000 1016 s H1 H2))))).
Defined.

(** ** Spawning *)

Section Spawning.
Context {M : MathLib}.

Lemma createParticles_from_burst todo : forall i count pos color s,
  exists ps,
    List.length ps = todo
    /\ createParticles_from todo i count pos color s
       = set_draws (2 * todo + draws s)
           (set_particles (particles s ++ ps) s)
    /\ Forall
         (fun p =>
            Particle.pos p = copy pos /\ Particle.color p = color
            /\ Particle.life p = 1 /\ Particle.maxLife p = 1
            /\ 2 <= Particle.radius p /\ Particle.radius p <= 5) ps.
Proof.
  induction todo as [|todo IH]; intros i count pos color s.
  - exists []. split; [reflexivity|]. split; [|constructor].
    rewrite app_nil_r. now destruct s.
  - cbn [createParticles_from].
    match goal with
    | |- context [set_particles (push _ ?p) _] =>
        destruct (IH (S i) count pos color
                    (set_draws (S (S (draws s)))
                       (set_particles (push (particles s) p) s)))
          as (ps & Hlen & E & Hall);
        rewrite E; exists (p :: ps)
    end.
    split; [cbn; now rewrite Hlen|]. split.
    + destruct s; unfold set_draws, set_particles, push; cbn.
      rewrite <- app_assoc. cbn. f_equal. lia.
    + constructor; [|exact Hall].
      cbn [Particle.pos Particle.color Particle.life Particle.maxLife
           Particle.radius].
      destruct (Mrandom_range (S (draws s))) as [H0 H1].
      repeat split; lra.
Qed.

(** X6: [createParticles] appends exactly [count] particles and draws
    exactly 2 [count] random values; each new particle sits at the given
    position, has the given colour, a life and a maximal life of 1 and a
    radius between 2 and 5 (the product with 3 and the sum are monotone,
    so this also holds of the rounded values); nothing else of the state
    changes. *)
Theorem X6_createParticles_burst (pos : Vector2.t) (color : string)
    (count : nat) (s : GameState) :
  exists ps,
    List.length ps = count
    /\ createParticles pos color count s
       = set_draws (2 * count + draws s)
           (set_particles (particles s ++ ps) s)
    /\ Forall
         (fun p =>
            Particle.pos p = copy pos /\ Particle.color p = color
            /\ Particle.life p = 1 /\ Particle.maxLife p = 1
            /\ 2 <= Particle.radius p /\ Particle.radius p <= 5) ps.
Proof. apply createParticles_from_burst. Qed.

Lemma Qfloor_between (x : Q) (z : Z) :
  inject_Z z <= x -> x < inject_Z (z + 1) -> Qfloor x = z.
Proof.
  intros Hlo Hhi.
  assert (H1 : (z <= Qfloor x)%Z).
  { rewrite <- (Qfloor_Z z). now apply Qfloor_resp_le. }
  assert (H2 : (Qfloor x < z + 1)%Z).
  { rewrite Zlt_Qlt. eapply Qle_lt_trans; [apply Qfloor_le|exact Hhi]. }
  lia.
Qed.

(** X7: the kind of a dropped power-up is read off the quarter of [0, 1)
    in which the second random value lies: health below 1/4, damage below
    1/2, fire rate below 3/4, speed otherwise; the index computed is always
    an index of the table of kinds, the colour is the colour of the kind,
    and the power-up starts at the given position with velocity (0, 2) and
    radius 10.  A drop happens exactly when the first random value is
    below 0.3 and costs two random values, no drop costs one. *)
Theorem X7_spawnPowerUp_kinds (pos : Vector2.t) (s : GameState) :
  let roll := Mrandom (draws s) in
  let pick := Mrandom (S (draws s)) in
  let u := dropped pos pick in
  spawnPowerUp pos s
  = (if Qltb roll 0.3
     then set_powerUps (powerUps s ++ [u]) (set_draws (S (S (draws s))) s)
     else set_draws (S (draws s)) s)
  /\ nth_error types (Z.to_nat (Qfloor (pick * 4))) = Some (PowerUp.type u)
  /\ PowerUp.type u
     = (if Qltb pick (1 # 4) then health
        else if Qltb pick (1 # 2) then damage
        else if Qltb pick (3 # 4) then firerate
        else speed)
  /\ PowerUp.color u = colors (PowerUp.type u)
  /\ PowerUp.pos u = copy pos
  /\ PowerUp.vel u = Vector2.mk 0 2
  /\ PowerUp.radius u = 10.
Proof.
  intros roll pick u. split; [apply spawnPowerUp_eq|].
  destruct (Mrandom_range (S (draws s))) as [H0 H1]. fold pick in H0, H1.
  assert (Hcases :
    Qfloor (pick * 4)
    = (if Qltb pick (1 # 4) then 0
       else if Qltb pick (1 # 2) then 1
       else if Qltb pick (3 # 4) then 2 else 3)%Z).
  { destruct (Qltb pick (1 # 4)) eqn:E1;
      [apply Qltb_iff in E1|apply Qltb_false_iff in E1;
       destruct (Qltb pick (1 # 2)) eqn:E2;
       [apply Qltb_iff in E2|apply Qltb_false_iff in E2;
        destruct (Qltb pick (3 # 4)) eqn:E3;
        [apply Qltb_iff in E3|apply Qltb_false_iff in E3]]];
      apply Qfloor_between;
      match goal with
      | |- context [inject_Z ?z] =>
          let v := eval vm_compute in (inject_Z z) in
          change (inject_Z z) with v
      end; lra. }
  subst u. unfold dropped. cbv zeta.
  cbn [PowerUp.type PowerUp.color PowerUp.pos PowerUp.vel PowerUp.radius].
  rewrite Hcases.
  destruct (Qltb pick (1 # 4)); [repeat split|].
  destruct (Qltb pick (1 # 2)); [repeat split|].
  destruct (Qltb pick (3 # 4)); repeat split.
Qed.

Lemma configs_positive (type : EnemyType) (wave : Z) :
  (0 <= wave)%Z ->
  10 <= cfg_health (configs type wave) /\ 1 <= cfg_speed (configs type wave)
  /\ 10 <= cfg_radius (configs type wave).
Proof.
  intros H. unfold QofZ.
  assert (0 <= inject_Z wave)
    by (change 0 with (inject_Z 0); now rewrite <- Zle_Qle).
  destruct type; cbn [configs cfg_health cfg_speed cfg_radius QofZ];
    unfold QofZ; repeat split; lra.
Qed.

(** X8: [spawnEnemy] appends exactly one enemy and draws one random value.
    On a canvas of positive width and for a wave that is not negative the
    enemy starts above the canvas at y = -30 with 0 <= x < width, moves
    straight down at its speed, has full health, a health of at least 10,
    a speed of at least 1, and the health, speed, radius and colour of its
    kind for that wave; nothing else of the state changes. *)
Theorem X8_spawnEnemy_stats (canvas : Canvas) (type : EnemyType) (wave : Z)
    (s : GameState) :
  0 < width canvas -> (0 <= wave)%Z ->
  exists e,
    spawnEnemy canvas type wave s
    = set_enemies (enemies s ++ [e]) (set_draws (S (draws s)) s)
    /\ Enemy.type e = type
    /\ Enemy.health e = cfg_health (configs type wave)
    /\ Enemy.maxHealth e = Enemy.health e
    /\ Enemy.speed e = cfg_speed (configs type wave)
    /\ Enemy.radius e = cfg_radius (configs type wave)
    /\ Enemy.color e = cfg_color (configs type wave)
    /\ 10 <= Enemy.health e /\ 1 <= Enemy.speed e
    /\ Enemy.vel e = Vector2.mk 0 (Enemy.speed e)
    /\ Vector2.y (Enemy.pos e) = -30
    /\ 0 <= Vector2.x (Enemy.pos e) /\ Vector2.x (Enemy.pos e) < width canvas
    /\ Enemy.lastFired e = Some 0.
Proof.
  intros Hw Hwave. unfold spawnEnemy. cbv zeta. eexists. split; [reflexivity|].
  cbn [Enemy.type Enemy.health Enemy.maxHealth Enemy.speed Enemy.radius
       Enemy.color Enemy.vel Enemy.pos Enemy.lastFired Vector2.x Vector2.y].
  destruct (configs_positive type wave Hwave) as (Hh & Hs & _).
  destruct (Mrandom_range (draws s)) as [H0 H1].
  repeat split; auto.
  - apply Qmult_le_0_compat; [exact H0|lra].
  - apply Qlt_le_trans with (1 * width canvas).
    + apply Qmult_lt_compat_r; assumption.
    + rewrite Qmult_1_l. apply Qle_refl.
Qed.


End Spawning.

(** A tank spawned on wave 4 of a 800 by 600 canvas. *)
Lemma X8_spawnEnemy_stats_witness :
  let M := Sample.math [0.25] in
  let canvas := mkCanvas 800 600 in
  let s := initGame canvas 0 in
  0 < width canvas /\ (0 <= 4)%Z
  /\ exists e,
       spawnEnemy canvas tank 4 s
       = set_enemies (enemies s ++ [e]) (set_draws (S (draws s)) s)
       /\ Enemy.maxHealth e = Enemy.health e
       /\ 10 <= Enemy.health e
       /\ 0 <= Vector2.x (Enemy.pos e)
       /\ Vector2.x (Enemy.pos e) < width canvas.
Proof.
  intros M canvas s.
  assert (H1 : 0 < width canvas) by reflexivity.
  assert (H2 : (0 <= 4)%Z) by discriminate.
  split; [exact H1|]. split; [exact H2|].
  destruct (X8_spawnEnemy_stats canvas tank 4 s H1 H2)
    as (e & E & _ & _ & Hm & _ & _ & _ & Hh & _ & _ & _ & Hx0 & Hx1 & _).
  exists e. repeat split; assumption.
Defined.


(** ** Keys and pause *)

Lemma has_add (k : KeySet) (code c : string) :
  has (add k code) c = (String.eqb c code || has k c).
Proof.
  unfold add, has.
  destruct (existsb (String.eqb code) k) eqn:E.
  - destruct (String.eqb c code) eqn:Ec; [|reflexivity].
    apply String.eqb_eq in Ec. subst c. now rewrite E.
  - rewrite existsb_app. cbn [existsb]. rewrite orb_false_r.
    apply orb_comm.
Qed.

Lemma has_delete (k : KeySet) (code c : string) :
  has (delete k code) c = (negb (String.eqb c code) && has k c).
Proof.
  unfold delete, has. induction k as [|a k IH]; cbn [filter existsb].
  - now rewrite andb_false_r.
  - destruct (String.eqb code a) eqn:Ea; cbn [negb existsb].
    + apply String.eqb_eq in Ea. subst a. rewrite IH.
      destruct (String.eqb c code); reflexivity.
    + rewrite IH.
      destruct (String.eqb c a) eqn:Eca; [|reflexivity].
      apply String.eqb_eq in Eca. subst a.
      rewrite String.eqb_sym in Ea. now rewrite Ea.
Qed.

Lemma nth_error_split_at {A : Type} (l : list A) (i : nat) (a : A) :
  nth_error l i = Some a ->
  l = firstn i l ++ a :: skipn (S i) l /\ List.length (firstn i l) = i.
Proof.
  intros H. split.
  - revert i H; induction l as [|x l IH]; intros [|i] H; try discriminate.
    + now inversion H.
    + cbn. f_equal. now apply IH.
  - apply nth_error_lt in H. rewrite length_firstn. lia.
Qed.

Lemma set_nth_twice {A : Type} (l : list A) (i : nat) (u v : A) :
  set_nth i v (set_nth i u l) = set_nth i v l.
Proof.
  destruct (nth_error l i) as [a|] eqn:E.
  - destruct (nth_error_split_at l i a E) as [Hl Hlen].
    remember (firstn i l) as pre. remember (skipn (S i) l) as post.
    rewrite Hl, <- Hlen. now rewrite !set_nth_middle.
  - unfold set_nth at 2. now rewrite E.
Qed.

Section KeysAndPause.
Context {M : MathLib}.

(** X10: pressing a key other than P, in a game that is not over, adds its
    code to the key set and changes nothing else; releasing it removes it
    again: afterwards the code is not held and every other code is held
    exactly when it was held before the press. *)
Theorem X10_key_press_release (w : World) (cur : GameState)
    (code : string) :
  current w = Some cur -> gameOver cur = false -> code <> "KeyP"%string ->
  exists k1 k2,
    current (handleKeyDown code w) = Some (set_keys k1 cur)
    /\ current (handleKeyUp code (handleKeyDown code w))
       = Some (set_keys k2 cur)
    /\ has k1 code = true /\ has k2 code = false
    /\ forall c, c <> code ->
                 has k1 c = has (keys cur) c /\ has k2 c = has (keys cur) c.
Proof.
  intros Hc Hg Hp.
  exists (add (keys cur) code), (delete (add (keys cur) code) code).
  assert (E1 : current (handleKeyDown code w)
               = Some (set_keys (add (keys cur) code) cur)).
  { unfold handleKeyDown. rewrite Hc, Hg, andb_false_r.
    replace (String.eqb code "KeyP") with false
      by (symmetry; now apply String.eqb_neq).
    now apply current_set_current with (s := cur). }
  split; [exact E1|]. split.
  - unfold handleKeyUp. rewrite E1.
    erewrite current_set_current by exact E1. reflexivity.
  - rewrite has_delete, !has_add, String.eqb_refl. cbn [negb orb andb].
    split; [reflexivity|]. split; [reflexivity|].
    intros c Hne. rewrite has_delete, has_add.
    replace (String.eqb c code) with false
      by (symmetry; now apply String.eqb_neq).
    now split.
Qed.

(** X11: pause.  Pressing P twice leaves the store of states as it was.
    A frame of a paused game changes no state and schedules nothing, but
    it does record its time as the last frame time.  A spawn callback does
    not look at the pause flag: in a paused game that is not over it still
    adds one enemy and one to the spawn progress. *)
Theorem X11_pause (w : World) (cur : GameState) :
  current w = Some cur ->
  store (handleKeyDown "KeyP" (handleKeyDown "KeyP" w)) = store w
  /\ current (handleKeyDown "KeyP" w)
     = Some (set_paused (negb (paused cur)) cur)
  /\ (paused cur = true ->
      (forall currentTime,
         store (animationFrame currentTime w) = store w
         /\ pending (animationFrame currentTime w) = pending w
         /\ lastTime (animationFrame currentTime w) = currentTime)
      /\ (gameOver cur = false ->
          forall t, closure t = gameStateRef w ->
          exists cur',
            current (spawnCallback t w) = Some cur'
            /\ paused cur' = true
            /\ List.length (enemies cur') = S (List.length (enemies cur))
            /\ waveProgress cur' = (waveProgress cur + 1)%Z)).
Proof.
  intros Hc.
  assert (E1 : current (handleKeyDown "KeyP" w)
               = Some (set_paused (negb (paused cur)) cur)).
  { unfold handleKeyDown. rewrite Hc. cbn [String.eqb Ascii.eqb Bool.eqb andb].
    now apply current_set_current with (s := cur). }
  split; [|split; [exact E1|]].
  - unfold handleKeyDown at 1. rewrite E1.
    cbn [String.eqb Ascii.eqb Bool.eqb andb].
    unfold handleKeyDown. rewrite Hc.
    cbn [String.eqb Ascii.eqb Bool.eqb andb].
    unfold set_current. cbn [store gameStateRef].
    rewrite set_nth_twice. apply set_nth_same.
    fold (current w). rewrite Hc. f_equal. destruct cur; cbn. now rewrite negb_involutive.
  - intros Hp. split.
    + intros currentTime. unfold animationFrame. rewrite Hc.
      rewrite gameLoop_gate by auto. cbn [store pending lastTime map].
      rewrite app_nil_r. repeat split. now apply set_nth_same.
    + intros Hg t Hcl.
      destruct (spawnCallback_live t w cur Hc Hg Hcl) as (E & Hlen & _).
      eexists. split; [exact E|]. repeat split; [exact Hp|exact Hlen].
Qed.

End KeysAndPause.

(** The first world, the right-arrow key, and a pause. *)
Lemma X10_key_press_release_witness :
  let M := Sample.math [] in
  let w := mount (mkCanvas 800 600) 0 in
  exists cur k1 k2,
    current w = Some cur /\ gameOver cur = false
    /\ current (handleKeyDown "ArrowRight" w) = Some (set_keys k1 cur)
    /\ current (handleKeyUp "ArrowRight" (handleKeyDown "ArrowRight" w))
       = Some (set_keys k2 cur)
    /\ has k1 "ArrowRight" = true /\ has k2 "ArrowRight" = false.
Proof.
  intros M w.
  assert (Hne : "ArrowRight"%string <> "KeyP"%string) by discriminate.
  destruct (X10_key_press_release w _ "ArrowRight" eq_refl eq_refl Hne)
    as (k1 & k2 & E1 & E2 & H1 & H2 & _).
  eexists _, k1, k2. repeat split; eassumption.
Defined.

Lemma X11_pause_witness :
  let M := Sample.math [] in
  let w := handleKeyDown "KeyP" (mount (mkCanvas 800 600) 0) in
  exists cur,
    current w = Some cur /\ paused cur = true
    /\ store (animationFrame 16 w) = store w
    /\ lastTime (animationFrame 16 w) = 16.
Proof.
  intros M w.
  assert (Hc : current w
               = Some (set_paused true
                         (fst (spawnWave 1 (initGame (mkCanvas 800 600) 0)))))
    by reflexivity.
  eexists. split; [exact Hc|]. split; [reflexivity|].
  destruct (proj1 (proj2 (proj2 (X11_pause w _ Hc)) eq_refl) 16)
    as (H1 & _ & H3).
  split; assumption.
Defined.

(** ** Restart *)

Lemma nth_error_set_nth_other {A : Type} (l : list A) (i j : nat) (v : A) :
  i <> j -> nth_error (set_nth i v l) j = nth_error l j.
Proof.
  intros Hij. unfold set_nth.
  destruct (nth_error l i) as [a|] eqn:E; [|reflexivity].
  destruct (nth_error_split_at l i a E) as [Hl Hlen].
  remember (firstn i l) as pre. remember (skipn (S i) l) as post.
  rewrite Hl. clear Hl Heqpre Heqpost E.
  destruct (Nat.lt_ge_cases j i) as [Hlt|Hge].
  - now rewrite !nth_error_app1 by lia.
  - rewrite !nth_error_app2 by lia.
    destruct (j - List.length pre)%nat as [|k] eqn:Ek; [lia|reflexivity].
Qed.

Section Restart.
Context {M : MathLib}.

Lemma bulletVsPlayer_enemies i s :
  enemies (bulletVsPlayer i s) = enemies s.
Proof.
  destruct (bulletVsPlayer_cases i s) as [E|(b & _ & _ & _ & Hc)].
  - now rewrite E.
  - fields Hc. exact Henemies.
Qed.

Lemma playerVsPowerUp_enemies i s :
  enemies (playerVsPowerUp i s) = enemies s.
Proof.
  destruct (nth_error (powerUps s) i) as [u|] eqn:Hu.
  2:{ rewrite playerVsPowerUp_miss; [reflexivity|]. intros u Hu'. congruence. }
  destruct (Qltb
        (hypot (Vector2.x (Player.pos (player s)) - Vector2.x (PowerUp.pos u))
           (Vector2.y (Player.pos (player s)) - Vector2.y (PowerUp.pos u)))
        (fadd (Player.radius (player s)) (PowerUp.radius u))) eqn:Hd.
  2:{ rewrite playerVsPowerUp_miss; [reflexivity|]. intros u' Hu'.
      replace u' with u by congruence. exact Hd. }
  pose proof (playerVsPowerUp_hit i s u Hu Hd) as Hc. fields Hc.
  exact Henemies.
Qed.

Lemma combat_no_enemies s : enemies s = [] -> enemies (combat s) = [].
Proof.
  intros H. unfold combat, playerVsPowerUps, playerVsEnemies,
    bulletsVsPlayer, bulletsVsEnemies.
  repeat match goal with
  | |- enemies (for_down ?n ?body ?t) = [] =>
      apply (for_down_ind (fun x => enemies x = []) body);
      [intros i x Hx|]
  end.
  - now rewrite playerVsPowerUp_enemies.
  - unfold playerVsEnemy. rewrite Hx. now destruct i.
  - now rewrite bulletVsPlayer_enemies.
  - unfold bulletVsEnemies.
    destruct (nth_error (bullets x) i) as [b|]; [|exact Hx].
    destruct (negb (Bullet.isPlayerBullet b)); [exact Hx|].
    rewrite Hx. exact Hx.
  - exact H.
Qed.

Lemma movement_no_enemies canvas currentTime deltaTime s :
  enemies s = [] -> enemies (movement canvas currentTime deltaTime s) = [].
Proof.
  intros H. unfold movement.
  rewrite updatePowerUps_sweep, updateParticles_sweep, updateBullets_sweep.
  cbn [enemies set_powerUps set_particles set_bullets].
  assert (E : enemies (coolDown deltaTime
                         (shooting currentTime (updatePlayer canvas s))) = []).
  { unfold coolDown, shooting. cbv zeta.
    destruct (Qgtb _ 0); destruct (_ && _); exact H. }
  unfold updateEnemies. rewrite E. exact E.
Qed.

Lemma stalled_update w s' cur :
  stalled w -> current w = Some cur ->
  wave s' = wave cur -> waveProgress s' = waveProgress cur ->
  enemiesThisWave s' = enemiesThisWave cur ->
  stalled (set_current s' w).
Proof.
  intros (Hlt & Hp & c & Hc & Hw & Hwp & Het) Hcur E1 E2 E3.
  replace c with cur in * by congruence.
  split; [|split].
  - cbn [set_current store gameStateRef]. now rewrite length_set_nth.
  - exact Hp.
  - exists s'. split; [eapply current_set_current; exact Hc|].
    repeat split; congruence.
Qed.

Lemma step_stalled w e : stalled w -> stalled (step w e).
Proof.
  intros Hs. pose proof Hs as (Hlt & Hp & cur & Hc & Hw & Hwp & Het).
  destruct e as [t|k|code|code|iw ih]; cbn [step].
  - unfold animationFrame. rewrite Hc.
    destruct (gameLoop_stay (screen w) t (t - lastTime w) cur)
      as (Gw & Gwp & Get & Gs); [right; right; left; lia|].
    destruct (gameLoop (screen w) t (t - lastTime w) cur) as [s' sched].
    cbn [fst snd] in *. subst sched. cbn [map]. rewrite app_nil_r.
    split; [|split].
    + cbn [store gameStateRef]. now rewrite length_set_nth.
    + exact Hp.
    + exists s'. split.
      * unfold current. cbn [store gameStateRef].
        now apply nth_error_set_nth.
      * repeat split; congruence.
  - unfold fire. destruct (nth_error (pending w) k) as [t|] eqn:Ht; [|exact Hs].
    assert (Hcl : (closure t < gameStateRef w)%nat).
    { rewrite Forall_forall in Hp. apply Hp. eapply nth_error_In; eauto. }
    set (w0 := mkWorld (store w) (gameStateRef w) (splice1 k (pending w))
                 (lastTime w) (screen w)).
    assert (Hs0 : stalled w0).
    { split; [exact Hlt|]. split; [now apply Forall_splice1|].
      exists cur. repeat split; assumption. }
    unfold spawnCallback. change (current w0) with (current w). rewrite Hc.
    destruct (gameOver cur); [exact Hs0|]. cbv zeta.
    match goal with
    | |- context [set_current ?x w0] =>
        set (s1 := x);
        assert (Hs1 : stalled (set_current s1 w0))
          by (apply (stalled_update w0 s1 cur Hs0 Hc); reflexivity)
    end.
    destruct (nth_error (store (set_current s1 w0)) (closure t))
      as [state|]; [|exact Hs1].
    destruct Hs1 as (Hlt1 & Hp1 & c1 & Hc1 & F1).
    unfold current in Hc1. subst w0.
    cbn [set_current store gameStateRef pending] in *.
    split; [|split].
    + cbn [store gameStateRef]. now rewrite length_set_nth.
    + exact Hp1.
    + exists c1. split; [|exact F1].
      unfold current. cbn [store gameStateRef].
      rewrite nth_error_set_nth_other by lia. exact Hc1.
  - unfold handleKeyDown. rewrite Hc.
    destruct (String.eqb code "Space" && gameOver cur).
    + split; [|split].
      * cbn [store gameStateRef]. unfold push. rewrite length_app.
        cbn [List.length]. lia.
      * cbn [pending gameStateRef]. eapply Forall_impl; [|exact Hp].
        cbv beta. intros a Ha. lia.
      * exists (initGame (screen w) (draws cur)). split.
        -- unfold current, push. cbn [store gameStateRef].
           rewrite nth_error_app2 by lia. now rewrite Nat.sub_diag.
        -- repeat split.
    + destruct (String.eqb code "KeyP");
        apply (stalled_update w _ cur Hs Hc); reflexivity.
  - unfold handleKeyUp. rewrite Hc.
    apply (stalled_update w _ cur Hs Hc); reflexivity.
  - split; [exact Hlt|]. split; [exact Hp|].
    exists cur. repeat split; assumption.
Qed.

Lemma step_quiet w e : quiet w -> quiet (step w e).
Proof.
  intros Hq. pose proof Hq as (Hp & cur & Hc & Hen & Hopen).
  assert (Hlt : (gameStateRef w < List.length (store w))%nat)
    by (eapply nth_error_lt; exact Hc).
  assert (Hset : forall s',
            enemies s' = [] ->
            (waveProgress s' < enemiesThisWave s')%Z ->
            quiet (set_current s' w)).
  { intros s' E1 E2. split; [exact Hp|]. exists s'.
    split; [eapply current_set_current; exact Hc|]. now split. }
  destruct e as [t|k|code|code|iw ih]; cbn [step].
  - unfold animationFrame. rewrite Hc.
    destruct (gameLoop_stay (screen w) t (t - lastTime w) cur)
      as (_ & Gwp & Get & Gs); [right; right; left; exact Hopen|].
    assert (Ge : enemies (fst (gameLoop (screen w) t (t - lastTime w) cur))
                 = []).
    { destruct (paused cur) eqn:Hpa.
      { rewrite gameLoop_gate by auto. exact Hen. }
      destruct (gameOver cur) eqn:Hg.
      { rewrite gameLoop_gate by auto. exact Hen. }
      rewrite gameLoop_running by assumption.
      destruct (before_waveManagement (screen w) t (t - lastTime w) cur)
        as (_ & B2 & B3 & _).
      rewrite waveManagement_stay by (left; lia). cbn [fst].
      now apply combat_no_enemies, movement_no_enemies. }
    destruct (gameLoop (screen w) t (t - lastTime w) cur) as [s' sched].
    cbn [fst snd] in *. subst sched. cbn [map]. rewrite app_nil_r.
    split; [exact Hp|]. exists s'. split.
    + unfold current. cbn [store gameStateRef]. now apply nth_error_set_nth.
    + split; [exact Ge|lia].
  - unfold fire. rewrite Hp. now destruct k.
  - unfold handleKeyDown. rewrite Hc.
    destruct (String.eqb code "Space" && gameOver cur).
    + split; [exact Hp|].
      exists (initGame (screen w) (draws cur)). split.
      * unfold current, push. cbn [store gameStateRef].
        rewrite nth_error_app2 by lia. now rewrite Nat.sub_diag.
      * split; [reflexivity|]. cbn. lia.
    + destruct (String.eqb code "KeyP"); apply Hset; assumption.
  - unfold handleKeyUp. rewrite Hc. apply Hset; assumption.
  - split; [exact Hp|]. exists cur. repeat split; assumption.
Qed.

(** X12: a restart never starts a wave.  Pressing Space on a finished game
    replaces the state by a fresh one without calling [spawnWave], and the
    timers still pending captured the old state.  So whatever events
    follow, the game stays at wave 1 with spawn progress 0 of 5: wave
    management never fires again.  When no timer was pending at the
    restart, no enemy ever appears and no timer is ever scheduled. *)
Theorem X12_restart_stalls (w : World) (cur : GameState) (es : list Event) :
  current w = Some cur -> gameOver cur = true ->
  Forall (fun t => (closure t < List.length (store w))%nat) (pending w) ->
  let w' := run (handleKeyDown "Space" w) es in
  exists cur',
    current w' = Some cur'
    /\ wave cur' = 1%Z /\ waveProgress cur' = 0%Z
    /\ enemiesThisWave cur' = 5%Z
    /\ (pending w = [] -> enemies cur' = [] /\ pending w' = []).
Proof.
  intros Hc Hg Hp w'.
  assert (H0 : current (handleKeyDown "Space" w)
               = Some (initGame (screen w) (draws cur))).
  { unfold handleKeyDown. rewrite Hc, Hg. cbn [String.eqb Ascii.eqb Bool.eqb andb].
    unfold current, push. cbn [store gameStateRef].
    rewrite nth_error_app2 by lia. now rewrite Nat.sub_diag. }
  assert (P0 : pending (handleKeyDown "Space" w) = pending w).
  { unfold handleKeyDown. rewrite Hc, Hg. reflexivity. }
  assert (R0 : gameStateRef (handleKeyDown "Space" w) = List.length (store w)).
  { unfold handleKeyDown. rewrite Hc, Hg. reflexivity. }
  assert (L0 : List.length (store (handleKeyDown "Space" w))
               = S (List.length (store w))).
  { unfold handleKeyDown. rewrite Hc, Hg. cbn [String.eqb Ascii.eqb Bool.eqb andb store].
    unfold push. rewrite length_app. cbn [List.length]. lia. }
  assert (S0 : stalled (handleKeyDown "Space" w)).
  { split; [lia|]. split; [now rewrite P0, R0|].
    exists (initGame (screen w) (draws cur)). now repeat split. }
  assert (Q0 : pending w = [] -> quiet (handleKeyDown "Space" w)).
  { intros E. split; [congruence|].
    exists (initGame (screen w) (draws cur)). now repeat split. }
  subst w'. revert S0 Q0. generalize (handleKeyDown "Space" w) as v.
  induction es as [|e es IH]; intros v Sv Qv; cbn [run fold_left].
  - destruct Sv as (_ & _ & c & Hcv & F1 & F2 & F3).
    exists c. repeat split; try assumption.
    + destruct (Qv H) as (_ & c' & Hc' & He & _). congruence.
    + now destruct (Qv H).
  - apply IH; [now apply step_stalled|].
    intros E. now apply step_quiet, Qv.
Qed.

End Restart.

(** A finished first game with one timer of its first wave still pending:
    restart, the stale timer fires, a frame passes. *)
Lemma X12_restart_stalls_witness :
  let M := Sample.math [] in
  let canvas := mkCanvas 800 600 in
  let w := mkWorld [set_gameOver true (initGame canvas 0)] 0
             [mkTimer (mkScheduled 0 1) 0] 0 canvas in
  exists cur',
    current (run (handleKeyDown "Space" w) [Timeout 0; AnimationFrame 16])
    = Some cur'
    /\ wave cur' = 1%Z /\ waveProgress cur' = 0%Z
    /\ enemiesThisWave cur' = 5%Z.
Proof.
  intros M canvas w.
  assert (Hp : Forall (fun t => (closure t < List.length (store w))%nat)
                 (pending w)).
  { repeat constructor. }
  destruct (X12_restart_stalls w _ [Timeout 0; AnimationFrame 16]
              eq_refl eq_refl Hp) as (cur' & Hc & H1 & H2 & H3 & _).
  exists cur'. repeat split; assumption.
Defined.

(** ** The timers of a wave *)

Section WaveTimers.
Context {M : MathLib}.

Lemma spawnCallback_ref t w :
  gameStateRef (spawnCallback t w) = gameStateRef w.
Proof.
  unfold spawnCallback. destruct (current w) as [cur|]; [|reflexivity].
  destruct (gameOver cur); [reflexivity|]. cbv zeta.
  destruct (nth_error _ (closure t)); reflexivity.
Qed.

Lemma fire_live k w cur t :
  current w = Some cur -> gameOver cur = false ->
  nth_error (pending w) k = Some t -> closure t = gameStateRef w ->
  exists cur' e,
    current (fire k w) = Some cur'
    /\ enemies cur' = enemies cur ++ [e]
    /\ recruit (forWave (call t)) e
    /\ waveProgress cur' = (waveProgress cur + 1)%Z
    /\ wave cur' = wave cur
    /\ enemiesThisWave cur' = enemiesThisWave cur
    /\ gameOver cur' = false
    /\ pending (fire k w) = splice1 k (pending w)
    /\ gameStateRef (fire k w) = gameStateRef w.
Proof.
  intros Hc Hg Ht Hcl. unfold fire. rewrite Ht.
  set (w0 := mkWorld (store w) (gameStateRef w) (splice1 k (pending w))
               (lastTime w) (screen w)).
  destruct (spawnCallback_live t w0 cur Hc Hg Hcl) as (E & _ & Hp).
  rewrite spawnCallback_ref, Hp.
  eexists _, _. split; [exact E|].
  unfold spawnEnemy, push.
  cbn [enemies wave waveProgress enemiesThisWave gameOver set_waveProgress
       set_enemies set_draws].
  split; [reflexivity|]. split.
  - unfold recruit. cbn [Enemy.type Enemy.health Enemy.maxHealth Enemy.speed
                         Enemy.pos Vector2.y].
    split; [eexists; reflexivity|]. now repeat split.
  - now repeat split.
Qed.

(** The timers of the current game fire one after the other. *)
Lemma run_timers n : forall w cur,
  current w = Some cur -> gameOver cur = false ->
  List.length (pending w) = n ->
  Forall (fun t => closure t = gameStateRef w) (pending w) ->
  exists cur' new,
    current (run w (repeat (Timeout 0) n)) = Some cur'
    /\ pending (run w (repeat (Timeout 0) n)) = []
    /\ enemies cur' = enemies cur ++ new
    /\ Forall2 (fun t e => recruit (forWave (call t)) e) (pending w) new
    /\ waveProgress cur' = (waveProgress cur + Z.of_nat n)%Z
    /\ wave cur' = wave cur
    /\ enemiesThisWave cur' = enemiesThisWave cur
    /\ gameOver cur' = false.
Proof.
  induction n as [|n IH]; intros w cur Hc Hg Hn Hp.
  - exists cur, []. cbn [repeat run fold_left].
    destruct (pending w); [|discriminate].
    rewrite app_nil_r, Z.add_0_r. repeat split; auto.
  - destruct (pending w) as [|t rest] eqn:Ep; [discriminate|].
    inversion Hp as [|? ? Ht Hrest]; subst.
    assert (H0 : nth_error (pending w) 0 = Some t) by now rewrite Ep.
    destruct (fire_live 0 w cur t Hc Hg H0 Ht)
      as (c1 & e & Hc1 & He1 & Hr & Hwp & Hw & Het & Hg1 & Hp1 & Hr1).
    rewrite Ep in Hp1. change (splice1 0 (t :: rest)) with rest in Hp1.
    destruct (IH (fire 0 w) c1 Hc1 Hg1) as (c2 & new & Hc2 & Hp2 & He2 & Hf
                                            & Hwp2 & Hw2 & Het2 & Hg2).
    + rewrite Hp1. cbn [List.length] in Hn. lia.
    + rewrite Hp1, Hr1. exact Hrest.
    + exists c2, (e :: new). cbn [repeat run fold_left step].
      fold (run (fire 0 w) (repeat (Timeout 0) n)).
      split; [exact Hc2|]. split; [exact Hp2|]. split.
      { rewrite He2, He1, <- app_assoc. reflexivity. }
      split.
      { constructor; [exact Hr|]. now rewrite Hp1 in Hf. }
      repeat split; try congruence. lia.
Qed.

(** X13: when every pending timer belongs to the current game and the game
    is not over, firing them one after the other empties the timer list,
    appends one enemy per timer, in the order of the timers and each made
    for the wave its timer was scheduled for, and adds the number of timers
    to the spawn progress; wave and quota are unchanged. *)
Theorem X13_timers_fill_wave (w : World) (cur : GameState) :
  current w = Some cur -> gameOver cur = false ->
  Forall (fun t => closure t = gameStateRef w) (pending w) ->
  let n := List.length (pending w) in
  let w' := run w (repeat (Timeout 0) n) in
  exists cur' new,
    current w' = Some cur' /\ pending w' = []
    /\ enemies cur' = enemies cur ++ new
    /\ Forall2 (fun t e => recruit (forWave (call t)) e) (pending w) new
    /\ waveProgress cur' = (waveProgress cur + Z.of_nat n)%Z
    /\ wave cur' = wave cur
    /\ enemiesThisWave cur' = enemiesThisWave cur.
Proof.
  intros Hc Hg Hp n w'.
  destruct (run_timers n w cur Hc Hg eq_refl Hp)
    as (cur' & new & H1 & H2 & H3 & H4 & H5 & H6 & H7 & _).
  exists cur', new. repeat split; assumption.
Qed.


End WaveTimers.

(** The first wave of the sample game. *)
Lemma X13_timers_fill_wave_witness :
  let M := Sample.math [] in
  let w := mount (mkCanvas 800 600) 0 in
  exists cur', current (run w (repeat (Timeout 0) 7)) = Some cur'
               /\ waveProgress cur' = 7%Z /\ enemiesThisWave cur' = 7%Z.
Proof.
  intros M w.
  assert (Hp : Forall (fun t => closure t = gameStateRef w) (pending w)).
  { repeat constructor. }
  destruct (X13_timers_fill_wave w _ eq_refl eq_refl Hp)
    as (cur' & new & H1 & _ & _ & _ & H5 & _ & H7).
  exists cur'. split; [exact H1|]. split; [exact H5|exact H7].
Defined.

(** ** Pick-ups in any number and order *)

Lemma Qofnat_S (n : nat) : Qofnat (S n) == Qofnat n + 1.
Proof.
  unfold Qofnat. rewrite Nat2Z.inj_succ. unfold Z.succ.
  now rewrite inject_Z_plus.
Qed.

Lemma Qofnat_nonneg (n : nat) : 0 <= Qofnat n.
Proof.
  unfold Qofnat. change 0 with (inject_Z 0). rewrite <- Zle_Qle. lia.
Qed.

Ltac minmax :=
  repeat match goal with
  | |- context [Qmax ?a ?b] =>
      let m := fresh "m" in
      pose proof (Q.max_spec a b); set (m := Qmax a b) in *; clearbody m
  | |- context [Qmin ?a ?b] =>
      let m := fresh "m" in
      pose proof (Q.min_spec a b); set (m := Qmin a b) in *; clearbody m
  | H : context [Qmax ?a ?b] |- _ =>
      let m := fresh "m" in
      pose proof (Q.max_spec a b); set (m := Qmax a b) in *; clearbody m
  | H : context [Qmin ?a ?b] |- _ =>
      let m := fresh "m" in
      pose proof (Q.min_spec a b); set (m := Qmin a b) in *; clearbody m
  end.

(** The values after a sequence of pick-ups, computed without rounding. *)
Lemma pickups_closed_form (ks : list PowerUpType) (p : Player.t) :
  50 <= Player.fireRate p -> Player.speed p <= 8 ->
  Player.health p <= Player.maxHealth p ->
  let p' := pickups ks p in
  Player.damage p' == Player.damage p + 2 * taken damage ks
  /\ Player.fireRate p'
     == Qmax 50 (Player.fireRate p - 15 * taken firerate ks)
  /\ Player.speed p' == Qmin 8 (Player.speed p + 0.3 * taken speed ks)
  /\ Player.health p'
     == Qmin (Player.maxHealth p) (Player.health p + 20 * taken health ks)
  /\ Player.maxHealth p' = Player.maxHealth p
  /\ Player.pos p' = Player.pos p /\ Player.vel p' = Player.vel p
  /\ Player.radius p' = Player.radius p
  /\ Player.lastFired p' = Player.lastFired p
  /\ Player.invulnerable p' = Player.invulnerable p.
Proof.
  revert p. induction ks as [|k ks IH]; intros p Hf Hs Hh p'; subst p'.
  - unfold taken, pickups. cbn [fold_left filter List.length].
    change (Qofnat 0) with 0.
    repeat split; minmax; lra.
  - unfold pickups. cbn [fold_left]. fold (pickups ks (applyPowerUp k p)).
    destruct (applyPowerUp_keeps_clamps k p) as [Kf Ks].
    destruct (applyPowerUp_health_bounds k p Hh) as [Kh _].
    specialize (IH (applyPowerUp k p) (Kf Hf) (Ks Hs) Kh).
    cbv zeta in IH.
    destruct IH as (I1 & I2 & I3 & I4 & I5 & I6 & I7 & I8 & I9 & I10).
    rewrite I5, I6, I7, I8, I9, I10. clear I5 I6 I7 I8 I9 I10 Kf Ks Kh.
    unfold taken in *.
    pose proof (Qofnat_nonneg (List.length (filter (sameKind damage) ks))).
    pose proof (Qofnat_nonneg (List.length (filter (sameKind firerate) ks))).
    pose proof (Qofnat_nonneg (List.length (filter (sameKind speed) ks))).
    pose proof (Qofnat_nonneg (List.length (filter (sameKind health) ks))).
    destruct k; destruct p as [ps vl rd hl mh fr dm sp lf iv];
      cbn [applyPowerUp Player.set_health Player.set_damage
           Player.set_fireRate Player.set_speed Player.pos Player.vel
           Player.radius Player.health Player.maxHealth Player.fireRate
           Player.damage Player.speed Player.lastFired Player.invulnerable
           filter sameKind List.length] in *;
      rewrite ?Qofnat_S;
      repeat match goal with
      | |- context [Qofnat ?n] =>
          let c := fresh "c" in set (c := Qofnat n) in *; clearbody c
      end;
      (split; [|split; [|split; [|split; [|now repeat split]]]]);
      rewrite ?I1, ?I2, ?I3, ?I4; clear I1 I2 I3 I4;
      minmax; lra.
Qed.

Lemma applyPowerUp_comm (k1 k2 : PowerUpType) (p : Player.t) :
  applyPowerUp k1 (applyPowerUp k2 p) = applyPowerUp k2 (applyPowerUp k1 p).
Proof. destruct k1, k2, p; reflexivity. Qed.

Lemma iter_applyPowerUp (n : nat) (k1 k2 : PowerUpType) (p : Player.t) :
  Nat.iter n (applyPowerUp k2) (applyPowerUp k1 p)
  = applyPowerUp k1 (Nat.iter n (applyPowerUp k2) p).
Proof.
  induction n as [|n IH]; [reflexivity|].
  rewrite !Nat.iter_succ, IH. apply applyPowerUp_comm.
Qed.

Lemma times_cons (k k' : PowerUpType) (ks : list PowerUpType) :
  times k (k' :: ks)
  = if sameKind k k' then S (times k ks) else times k ks.
Proof. unfold times. cbn [filter]. now destruct (sameKind k k'). Qed.

Lemma pickups_by_kind (ks : list PowerUpType) : forall p,
  pickups ks p = by_kind ks p.
Proof.
  induction ks as [|k ks IH]; intros p; [reflexivity|].
  unfold pickups. cbn [fold_left]. fold (pickups ks (applyPowerUp k p)).
  rewrite IH. unfold by_kind. rewrite !times_cons.
  rewrite !iter_applyPowerUp.
  destruct k; cbn [sameKind]; rewrite ?Nat.iter_succ;
    rewrite <- ?iter_applyPowerUp; reflexivity.
Qed.

(** X15: the player after any sequence of pick-ups depends only on how many
    of each kind were taken, not on their order: it is the player after
    the same pick-ups taken kind by kind.  For a player with a fire
    interval of at least 50, a speed of at most 8 and health of at most
    maxHealth, the speed does not fall and stays at most 8, the fire
    interval does not rise and stays at least 50, the health does not fall
    and stays at most maxHealth, the damage does not fall.  Where the
    values are integers that a double holds exactly, nothing is rounded:
    the fire interval is max(50, fireRate - 15 n), the health
    min(maxHealth, health + 20 n) and the damage damage + 2 n.  Nothing
    else of the player changes. *)
Theorem X15_pickups_by_kind (ks : list PowerUpType) (p : Player.t) :
  50 <= Player.fireRate p -> Player.speed p <= 8 ->
  Player.health p <= Player.maxHealth p ->
  let p' := pickups ks p in
  p' = by_kind ks p
  /\ (Player.speed p <= Player.speed p' /\ Player.speed p' <= 8)
  /\ (50 <= Player.fireRate p' /\ Player.fireRate p' <= Player.fireRate p)
  /\ (Player.health p <= Player.health p'
      /\ Player.health p' <= Player.maxHealth p)
  /\ Player.damage p <= Player.damage p'
  /\ (whole (Player.fireRate p) ->
      Player.fireRate p'
      == Qmax 50 (Player.fireRate p - 15 * taken firerate ks))
  /\ (whole (Player.health p) -> whole (Player.maxHealth p) ->
      Player.health p'
      == Qmin (Player.maxHealth p)
           (Player.health p + 20 * taken health ks))
  /\ (whole (Player.damage p + 2 * taken damage ks) ->
      Player.damage p' == Player.damage p + 2 * taken damage ks)
  /\ Player.maxHealth p' = Player.maxHealth p
  /\ Player.pos p' = Player.pos p /\ Player.vel p' = Player.vel p
  /\ Player.radius p' = Player.radius p
  /\ Player.lastFired p' = Player.lastFired p
  /\ Player.invulnerable p' = Player.invulnerable p.
Proof.
  intros Hf Hs Hh p'.
  destruct (pickups_closed_form ks p Hf Hs Hh)
    as (D & F & S & H & R1 & R2 & R3 & R4 & R5 & R6).
  fold p' in D, F, S, H, R1, R2, R3, R4, R5, R6.
  pose proof (Qofnat_nonneg (List.length (filter (sameKind damage) ks))).
  pose proof (Qofnat_nonneg (List.length (filter (sameKind firerate) ks))).
  pose proof (Qofnat_nonneg (List.length (filter (sameKind speed) ks))).
  pose proof (Qofnat_nonneg (List.length (filter (sameKind health) ks))).
  unfold taken in *.
  split; [apply pickups_by_kind|].
  split; [rewrite S; clear - Hs H2; minmax; split; lra|].
  split; [rewrite F; clear - Hf H1; minmax; split; lra|].
  split; [rewrite H; clear - Hh H3; minmax; split; lra|].
  split; [rewrite D; clear - H0; lra|].
  split; [intros _; exact F|]. split; [intros _ _; exact H|].
  split; [intros _; exact D|]. now repeat split.
Qed.

(** Eight fire-rate pick-ups and two for damage, mixed, from the starting
    player: the interval is at its floor. *)
Lemma X15_pickups_by_kind_witness :
  let p := player (initGame (mkCanvas 800 600) 0) in
  let ks := [firerate; damage; firerate; firerate; firerate; damage;
             firerate; firerate; firerate; firerate] in
  whole (Player.fireRate p)
  /\ whole (Player.damage p + 2 * taken damage ks)
  /\ Player.fireRate (pickups ks p) == 50
  /\ Player.damage (pickups ks p) == 14
  /\ pickups ks p = by_kind ks p.
Proof.
  intros p ks.
  assert (H1 : 50 <= Player.fireRate p) by (vm_compute; discriminate).
  assert (H2 : Player.speed p <= 8) by (vm_compute; discriminate).
  assert (H3 : Player.health p <= Player.maxHealth p)
    by (vm_compute; discriminate).
  assert (W1 : whole (Player.fireRate p)).
  { exists 150%Z. split; [reflexivity|]. vm_compute. reflexivity. }
  assert (W2 : whole (Player.damage p + 2 * taken damage ks)).
  { exists 14%Z. split; [reflexivity|]. vm_compute. reflexivity. }
  destruct (X15_pickups_by_kind ks p H1 H2 H3)
    as (B & _ & _ & _ & _ & F & _ & D & _).
  split; [exact W1|]. split; [exact W2|]. split; [|split].
  - rewrite (F W1). vm_compute. reflexivity.
  - rewrite (D W2). vm_compute. reflexivity.
  - exact B.
Defined.

(** ** Kills, score and drops of the bullet pass *)

Section Tally.
Context {M : MathLib}.

(** What one test of a bullet against an enemy does to the counters. *)
Lemma hitEnemy_tally i b j s :
  healthy s -> harmful s ->
  let t := fst (hitEnemy i b j s) in
  player t = player s /\ gameOver t = gameOver s /\ wave t = wave s
  /\ waveProgress t = waveProgress s
  /\ enemiesThisWave t = enemiesThisWave s
  /\ (score s <= score t)%Z
  /\ (enemiesKilled s <= enemiesKilled t)%Z
  /\ (enemiesKilled t = enemiesKilled s -> score t = score s)
  /\ (enemiesKilled t + Z.of_nat (List.length (enemies t))
      = enemiesKilled s + Z.of_nat (List.length (enemies s)))%Z
  /\ (Z.of_nat (List.length (powerUps t)) - Z.of_nat (List.length (powerUps s))
      <= enemiesKilled t - enemiesKilled s)%Z
  /\ (List.length (powerUps s) <= List.length (powerUps t))%nat
  /\ (List.length (bullets t) <= List.length (bullets s))%nat.
Proof.
  intros (_ & _ & Hen) (_ & Hw) t. subst t.
  destruct (nth_error (enemies s) j) as [e|] eqn:He.
  2:{ rewrite hitEnemy_miss; [cbn [fst]; repeat split; lia|].
      intros e He'. congruence. }
  destruct (overlaps b e) eqn:Hov.
  2:{ rewrite hitEnemy_miss; [cbn [fst]; repeat split; lia|].
      intros e' He'. replace e' with e by congruence. exact Hov. }
  assert (Hj : (j < List.length (enemies s))%nat)
    by (eapply nth_error_lt; exact He).
  assert (Hb : (List.length (splice1 i (bullets s))
                <= List.length (bullets s))%nat).
  { unfold splice1. rewrite length_app, length_firstn, length_skipn. lia. }
  destruct (Qleb (Enemy.health e - Bullet.damage b) 0) eqn:Hh.
  - destruct (hitEnemy_kill i b j s e He Hov Hh) as (ps & _ & E).
    rewrite E. clear E.
    cbn [fst player gameOver wave waveProgress enemiesThisWave score
         enemiesKilled enemies powerUps bullets set_draws set_particles
         set_powerUps set_enemies set_enemiesKilled set_score set_bullets].
    rewrite splice1_length by exact Hj. rewrite length_app.
    assert (Hm : 0 < Enemy.maxHealth e).
    { rewrite Forall_forall in Hen.
      destruct (Hen e (nth_error_In _ _ He)) as [H1 H2]. lra. }
    assert (Hs : (0 <= award (wave s) (Enemy.maxHealth e))%Z)
      by (apply award_nonneg; [exact Hw|lra]).
    destruct (Qltb (Mrandom (40 + draws s)) 0.3); cbn [List.length];
      repeat split; lia.
  - destruct (hitEnemy_wound i b j s e He Hov Hh) as (ps & _ & E).
    rewrite E. clear E.
    cbn [fst player gameOver wave waveProgress enemiesThisWave score
         enemiesKilled enemies powerUps bullets set_draws set_particles
         set_powerUps set_enemies set_enemiesKilled set_score set_bullets].
    rewrite length_set_nth. repeat split; lia.
Qed.

Lemma bulletsVsEnemies_tally s :
  healthy s -> harmful s ->
  let t := bulletsVsEnemies s in
  player t = player s /\ gameOver t = gameOver s /\ wave t = wave s
  /\ waveProgress t = waveProgress s
  /\ enemiesThisWave t = enemiesThisWave s
  /\ (score s <= score t)%Z
  /\ (enemiesKilled s <= enemiesKilled t)%Z
  /\ (enemiesKilled t = enemiesKilled s -> score t = score s)
  /\ (enemiesKilled t + Z.of_nat (List.length (enemies t))
      = enemiesKilled s + Z.of_nat (List.length (enemies s)))%Z
  /\ (Z.of_nat (List.length (powerUps t)) - Z.of_nat (List.length (powerUps s))
      <= enemiesKilled t - enemiesKilled s)%Z
  /\ (List.length (powerUps s) <= List.length (powerUps t))%nat
  /\ (List.length (bullets t) <= List.length (bullets s))%nat.
Proof.
  intros H1 H2 t. subst t. unfold bulletsVsEnemies.
  set (P := fun t : GameState =>
    (healthy t /\ harmful t)
    /\ player t = player s /\ gameOver t = gameOver s /\ wave t = wave s
    /\ waveProgress t = waveProgress s
    /\ enemiesThisWave t = enemiesThisWave s
    /\ (score s <= score t)%Z
    /\ (enemiesKilled s <= enemiesKilled t)%Z
    /\ (enemiesKilled t = enemiesKilled s -> score t = score s)
    /\ (enemiesKilled t + Z.of_nat (List.length (enemies t))
        = enemiesKilled s + Z.of_nat (List.length (enemies s)))%Z
    /\ (Z.of_nat (List.length (powerUps t))
        - Z.of_nat (List.length (powerUps s))
        <= enemiesKilled t - enemiesKilled s)%Z
    /\ (List.length (powerUps s) <= List.length (powerUps t))%nat
    /\ (List.length (bullets t) <= List.length (bullets s))%nat).
  assert (Hstep : forall i b j x, 0 <= Bullet.damage b ->
                                  P x -> P (fst (hitEnemy i b j x))).
  { intros i b j x Hd (Hx & A1 & A2 & A3 & A4 & A5 & A6 & A7 & A8 & A9 & A10
                       & A11 & A12).
    destruct (hitEnemy_tally i b j x (proj1 Hx) (proj2 Hx))
      as (B1 & B2 & B3 & B4 & B5 & B6 & B7 & B8 & B9 & B10 & B11 & B12).
    split; [now apply healthy_hitEnemy|].
    split; [congruence|]. split; [congruence|]. split; [congruence|].
    split; [congruence|]. split; [congruence|].
    split; [lia|]. split; [lia|].
    split; [intros E; rewrite B8 by lia; apply A8; lia|].
    split; [lia|]. split; [lia|]. split; lia. }
  assert (Hall : P (for_down (List.length (bullets s)) bulletVsEnemies s)).
  { apply (for_down_ind P).
    - intros i x Hx. unfold bulletVsEnemies.
      destruct (nth_error (bullets x) i) as [b|] eqn:Hb; [|exact Hx].
      destruct (negb (Bullet.isPlayerBullet b)); [exact Hx|].
      apply (for_down_break_ind P); [|exact Hx].
      intros j y Hy. apply Hstep; [|exact Hy].
      destruct Hx as ((_ & Hdmg & _) & _). rewrite Forall_forall in Hdmg.
      apply Hdmg. eapply nth_error_In; eauto.
    - unfold P. split; [now split|]. repeat split; lia. }
  exact (proj2 Hall).
Qed.

(** X16: the pass of bullets against enemies, on a state with sound health
    values.  It removes exactly as many enemies as it adds to the kill
    counter; the score never falls and changes only when the kill counter
    does; at most one power-up appears per kill and none disappears; no
    bullet is added; the player, the game-over flag and the wave counters
    are not touched. *)
Theorem X16_bullet_pass_tally (s : GameState) :
  healthy s -> harmful s ->
  let t := bulletsVsEnemies s in
  (enemiesKilled t - enemiesKilled s
   = Z.of_nat (List.length (enemies s)) - Z.of_nat (List.length (enemies t)))%Z
  /\ (enemiesKilled s <= enemiesKilled t)%Z
  /\ (score s <= score t)%Z
  /\ (enemiesKilled t = enemiesKilled s -> score t = score s)
  /\ (List.length (powerUps s) <= List.length (powerUps t))%nat
  /\ (Z.of_nat (List.length (powerUps t)) - Z.of_nat (List.length (powerUps s))
      <= enemiesKilled t - enemiesKilled s)%Z
  /\ (List.length (bullets t) <= List.length (bullets s))%nat
  /\ player t = player s /\ gameOver t = gameOver s /\ wave t = wave s
  /\ waveProgress t = waveProgress s
  /\ enemiesThisWave t = enemiesThisWave s.
Proof.
  intros H1 H2 t.
  destruct (bulletsVsEnemies_tally s H1 H2)
    as (B1 & B2 & B3 & B4 & B5 & B6 & B7 & B8 & B9 & B10 & B11 & B12).
  fold t in B1, B2, B3, B4, B5, B6, B7, B8, B9, B10, B11, B12.
  repeat split; try assumption. lia.
Qed.

End Tally.

(** Two bullets on one basic enemy of health 20: the second one kills. *)
Lemma X16_bullet_pass_tally_witness :
  let M := Sample.math [0.5] in
  let e := Enemy.mk (Vector2.mk 400 300) (Vector2.mk 0 2) 15 20 20 2 basic
             (Some 0) "#ff4444" in
  let b := Bullet.mk (Vector2.mk 400 310) (Vector2.mk 0 (-10)) 4 10 true in
  let s := set_bullets [b; b] (set_enemies [e] (initGame (mkCanvas 800 600) 0))
  in
  let t := bulletsVsEnemies s in
  healthy s /\ harmful s
  /\ (enemiesKilled t - enemiesKilled s
      = Z.of_nat (List.length (enemies s)) - Z.of_nat (List.length (enemies t)))%Z
  /\ (score s <= score t)%Z.
Proof.
  intros M e b s t.
  assert (H1 : healthy s).
  { split; [vm_compute; discriminate|]. split.
    - intros H. vm_compute in H. exfalso. apply H. reflexivity.
    - repeat constructor. vm_compute. discriminate. }
  assert (H2 : harmful s).
  { split; [|vm_compute; discriminate].
    repeat constructor; vm_compute; discriminate. }
  split; [exact H1|]. split; [exact H2|].
  destruct (X16_bullet_pass_tally s H1 H2) as (A & _ & B & _).
  split; [exact A|exact B].
Defined.

(** ** What every reachable state satisfies *)

Section Sanity.
Context {M : MathLib}.

Lemma sane_initGame canvas n : sane (initGame canvas n).
Proof.
  unfold sane, healthy, harmful, fit, initGame.
  cbn [player enemies bullets gameOver wave score enemiesKilled waveProgress
       Player.health Player.maxHealth Player.radius Player.damage
       Player.fireRate Player.speed].
  repeat split; try constructor; try lra; try lia.
Qed.

Lemma sane_shooting currentTime s : sane s -> sane (shooting currentTime s).
Proof.
  intros H. unfold shooting. cbv zeta.
  destruct (_ && _); [|exact H].
  destruct H as (H1 & (H2 & H3) & H4 & H5).
  refine (conj H1 (conj (conj _ H3) (conj H4 H5))).
  cbn [bullets set_player set_bullets]. unfold push.
  apply Forall_app. split; [exact H2|].
  constructor; [|constructor]. cbn [Bullet.damage].
  destruct H4 as (_ & _ & Hd & _). lra.
Qed.

Lemma sane_coolDown deltaTime s : sane s -> sane (coolDown deltaTime s).
Proof.
  intros H. unfold coolDown. cbv zeta. destruct (Qgtb _ 0); exact H.
Qed.

Lemma sane_updateEnemy canvas currentTime i s :
  sane s -> sane (updateEnemy canvas currentTime i s).
Proof.
  intros H. unfold updateEnemy.
  destruct (nth_error (enemies s) i) as [e|] eqn:He; [|exact H].
  cbv zeta.
  destruct H as ((H1 & H2 & H3) & (H4 & H5) & H6).
  assert (He' : 0 < Enemy.health e /\ Enemy.health e <= Enemy.maxHealth e).
  { rewrite Forall_forall in H3. apply H3. eapply nth_error_In; eauto. }
  assert (Hshot : 0 <= 5 + QofZ (wave s)).
  { unfold QofZ.
    assert (0 <= inject_Z (wave s))
      by (change 0 with (inject_Z 0); now rewrite <- Zle_Qle).
    lra. }
  destruct (Qgtb _ (height canvas + 50));
    destruct (match Enemy.type _ with shooter => _ | _ => false end);
    refine (conj (conj H1 (conj H2 _)) (conj (conj _ H5) H6));
    cbn [enemies bullets set_enemies set_bullets]; unfold push;
    try exact H4;
    try (apply Forall_app; split; [exact H4|];
         constructor; [exact Hshot|constructor]);
    try apply Forall_splice1; apply Forall_set_nth; try exact H3; exact He'.
Qed.

Lemma sane_updateBullets canvas s : sane s -> sane (updateBullets canvas s).
Proof.
  intros ((H1 & H2 & H3) & (H4 & H5) & H6). rewrite updateBullets_sweep.
  refine (conj (conj H1 (conj H2 H3)) (conj (conj _ H5) H6)).
  cbn [bullets set_bullets]. apply keep_or_drop_Forall_In.
  intros b b' Hin Hb. rewrite Forall_forall in H4. specialize (H4 b Hin).
  unfold movedBullet in Hb. cbv zeta in Hb.
  destruct (_ || _); [discriminate|].
  inversion Hb. exact H4.
Qed.

Lemma sane_movement canvas currentTime deltaTime s :
  sane s -> sane (movement canvas currentTime deltaTime s).
Proof.
  intros H. unfold movement.
  rewrite updatePowerUps_sweep, updateParticles_sweep.
  change (sane (updateBullets canvas
                  (updateEnemies canvas currentTime
                     (coolDown deltaTime
                        (shooting currentTime (updatePlayer canvas s)))))).
  apply sane_updateBullets. unfold updateEnemies.
  apply (for_down_ind sane).
  - intros i t Ht. now apply sane_updateEnemy.
  - apply sane_coolDown, sane_shooting. exact H.
Qed.

Lemma fit_applyPowerUp k p : fit p -> fit (applyPowerUp k p).
Proof.
  intros (F1 & F2 & F3 & F4 & F5 & F6 & F7).
  destruct k; unfold fit;
    cbn [applyPowerUp Player.maxHealth Player.radius Player.damage
         Player.fireRate Player.speed Player.set_health Player.set_damage
         Player.set_fireRate Player.set_speed];
    (split; [exact F1|]); (split; [exact F2|]); repeat split;
    minmax; lra.
Qed.

Lemma sane_bulletVsPlayer i s : sane s -> sane (bulletVsPlayer i s).
Proof.
  intros (H1 & H2 & H3 & H4 & H5 & H6 & H7).
  destruct (healthy_bulletVsPlayer i s H1 H2) as [G1 G2].
  split; [exact G1|]. split; [exact G2|].
  destruct (bulletVsPlayer_cases i s) as [E|(b & _ & _ & _ & Hc)].
  { rewrite E. exact (conj H3 (conj H4 (conj H5 (conj H6 H7)))). }
  fields Hc. rewrite Hplayer, Hwave, Hscore, HenemiesKilled, HwaveProgress.
  exact (conj H3 (conj H4 (conj H5 (conj H6 H7)))).
Qed.

Lemma sane_playerVsEnemy i s : sane s -> sane (playerVsEnemy i s).
Proof.
  intros (H1 & H2 & H3 & H4 & H5 & H6 & H7).
  destruct (healthy_playerVsEnemy i s H1 H2) as [G1 G2].
  split; [exact G1|]. split; [exact G2|].
  destruct (playerVsEnemy_cases i s) as [E|(e & _ & _ & Hc)].
  { rewrite E. exact (conj H3 (conj H4 (conj H5 (conj H6 H7)))). }
  fields Hc. rewrite Hplayer, Hwave, Hscore, HenemiesKilled, HwaveProgress.
  exact (conj H3 (conj H4 (conj H5 (conj H6 H7)))).
Qed.

Lemma sane_playerVsPowerUp i s : sane s -> sane (playerVsPowerUp i s).
Proof.
  intros (H1 & H2 & H3 & H4 & H5 & H6 & H7).
  destruct (healthy_playerVsPowerUp i s H1 H2) as [G1 G2].
  split; [exact G1|]. split; [exact G2|].
  destruct (nth_error (powerUps s) i) as [u|] eqn:Hu.
  2:{ rewrite playerVsPowerUp_miss;
        [exact (conj H3 (conj H4 (conj H5 (conj H6 H7))))|].
      intros u Hu'. congruence. }
  destruct (Qltb
        (hypot (Vector2.x (Player.pos (player s)) - Vector2.x (PowerUp.pos u))
           (Vector2.y (Player.pos (player s)) - Vector2.y (PowerUp.pos u)))
        (fadd (Player.radius (player s)) (PowerUp.radius u))) eqn:Hd.
  2:{ rewrite playerVsPowerUp_miss;
        [exact (conj H3 (conj H4 (conj H5 (conj H6 H7))))|].
      intros u' Hu'.
      replace u' with u by congruence. exact Hd. }
  pose proof (playerVsPowerUp_hit i s u Hu Hd) as Hc. fields Hc.
  rewrite Hplayer, Hwave, Hscore, HenemiesKilled, HwaveProgress.
  exact (conj (fit_applyPowerUp _ _ H3) (conj H4 (conj H5 (conj H6 H7)))).
Qed.

Lemma sane_bulletsVsEnemies s : sane s -> sane (bulletsVsEnemies s).
Proof.
  intros (H1 & H2 & H3 & H4 & H5 & H6 & H7).
  destruct (bulletsVsEnemies_tally s H1 H2)
    as (B1 & _ & B3 & B4 & _ & B6 & B7 & _).
  assert (G : healthy (bulletsVsEnemies s) /\ harmful (bulletsVsEnemies s)).
  { unfold bulletsVsEnemies.
    apply (for_down_ind (fun x => healthy x /\ harmful x)); [|now split].
    intros i x Hx. now apply healthy_bulletVsEnemies. }
  destruct G as [G1 G2].
  split; [exact G1|]. split; [exact G2|].
  rewrite B1, B3, B4. split; [exact H3|]. repeat split; lia.
Qed.

Lemma sane_combat s : sane s -> sane (combat s).
Proof.
  intros H. unfold combat, playerVsPowerUps, playerVsEnemies, bulletsVsPlayer.
  repeat match goal with
  | |- sane (for_down ?n ?body ?t) =>
      apply (for_down_ind sane body); [intros i x Hx|]
  end.
  - now apply sane_playerVsPowerUp.
  - now apply sane_playerVsEnemy.
  - now apply sane_bulletVsPlayer.
  - now apply sane_bulletsVsEnemies.
Qed.

Lemma sane_waveManagement s :
  sane s ->
  sane (fst (waveManagement s))
  /\ Forall (fun c => (1 <= forWave c)%Z) (snd (waveManagement s)).
Proof.
  intros H. unfold waveManagement.
  destruct (_ && _); [|split; [exact H|constructor]].
  unfold spawnWave. cbn [fst snd wave set_wave].
  destruct H as (H1 & (H2 & H3) & H4 & H5 & H6 & H7 & H8).
  split.
  - refine (conj H1 (conj (conj H2 _) (conj H4 (conj _ (conj H6 (conj H7 _))))));
      cbn [wave waveProgress set_waveProgress set_enemiesThisWave set_wave];
      lia.
  - apply Forall_forall. intros c Hc. apply in_map_iff in Hc.
    destruct Hc as (k & <- & _). cbn [forWave]. lia.
Qed.

Lemma sane_gameLoop canvas currentTime deltaTime s :
  sane s ->
  sane (fst (gameLoop canvas currentTime deltaTime s))
  /\ Forall (fun c => (1 <= forWave c)%Z)
       (snd (gameLoop canvas currentTime deltaTime s)).
Proof.
  intros H. unfold gameLoop.
  destruct (paused s || gameOver s); [split; [exact H|constructor]|].
  now apply sane_waveManagement, sane_combat, sane_movement.
Qed.

Lemma sane_spawnEnemy canvas type wave s :
  (1 <= wave)%Z -> sane s -> sane (spawnEnemy canvas type wave s).
Proof.
  intros Hw ((H1 & H2 & H3) & H4 & H5). unfold spawnEnemy. cbv zeta.
  refine (conj (conj H1 (conj H2 _)) (conj H4 H5)).
  cbn [enemies set_enemies set_draws]. unfold push.
  apply Forall_app. split; [exact H3|].
  constructor; [|constructor].
  cbn [Enemy.health Enemy.maxHealth].
  destruct (configs_positive type wave) as (Hc & _); [lia|].
  split; lra.
Qed.

Lemma saneWorld_lookup w i s :
  saneWorld w -> nth_error (store w) i = Some s -> sane s.
Proof.
  intros (H & _) Hi. rewrite Forall_forall in H. apply H.
  eapply nth_error_In; eauto.
Qed.

Lemma saneWorld_set_current w s :
  saneWorld w -> sane s -> saneWorld (set_current s w).
Proof.
  intros (H1 & H2 & H3) Hs. split; [|split].
  - cbn [set_current store]. now apply Forall_set_nth.
  - cbn [set_current store gameStateRef]. now rewrite length_set_nth.
  - exact H3.
Qed.

Lemma saneWorld_mount canvas now : saneWorld (mount canvas now).
Proof.
  split; [|split].
  - constructor; [|constructor].
    destruct (sane_initGame canvas 0) as (H1 & H2 & H3 & H4 & H5 & H6 & H7).
    refine (conj H1 (conj H2 (conj H3 (conj H4 (conj H5 (conj H6 _)))))).
    cbn. lia.
  - cbn. lia.
  - repeat constructor; cbn; lia.
Qed.

Lemma step_sane w e : saneWorld w -> saneWorld (step w e).
Proof.
  intros Hw. pose proof Hw as (Hst & Hlt & Hp).
  destruct (nth_error (store w) (gameStateRef w)) as [cur|] eqn:Hc.
  2:{ apply nth_error_None in Hc. lia. }
  fold (current w) in Hc.
  assert (Hcur : sane cur) by (eapply saneWorld_lookup; eauto).
  destruct e as [t|k|code|code|iw ih]; cbn [step].
  - unfold animationFrame. rewrite Hc.
    destruct (sane_gameLoop (screen w) t (t - lastTime w) cur Hcur)
      as [G1 G2].
    destruct (gameLoop (screen w) t (t - lastTime w) cur) as [s' sched].
    cbn [fst snd] in *. split; [|split].
    + cbn [store]. now apply Forall_set_nth.
    + cbn [store gameStateRef]. now rewrite length_set_nth.
    + cbn [pending]. apply Forall_app. split; [exact Hp|].
      apply Forall_forall. intros x Hx. apply in_map_iff in Hx.
      destruct Hx as (c & <- & Hin). cbn [call].
      rewrite Forall_forall in G2. now apply G2.
  - unfold fire. destruct (nth_error (pending w) k) as [t|] eqn:Ht; [|exact Hw].
    assert (Hwv : (1 <= forWave (call t))%Z).
    { rewrite Forall_forall in Hp. apply Hp. eapply nth_error_In; eauto. }
    set (w0 := mkWorld (store w) (gameStateRef w) (splice1 k (pending w))
                 (lastTime w) (screen w)).
    assert (Hw0 : saneWorld w0).
    { split; [exact Hst|]. split; [exact Hlt|]. now apply Forall_splice1. }
    unfold spawnCallback. change (current w0) with (current w). rewrite Hc.
    destruct (gameOver cur); [exact Hw0|]. cbv zeta.
    match goal with
    | |- context [set_current ?x w0] =>
        set (s1 := x);
        assert (Hs1 : saneWorld (set_current s1 w0))
    end.
    { apply saneWorld_set_current; [exact Hw0|].
      subst s1. apply sane_spawnEnemy; [exact Hwv|]. exact Hcur. }
    destruct (nth_error (store (set_current s1 w0)) (closure t))
      as [state|] eqn:Hstate; [|exact Hs1].
    pose proof (saneWorld_lookup _ _ _ Hs1 Hstate) as Hsane.
    destruct Hs1 as (A1 & A2 & A3).
    split; [|split].
    + cbn [store]. apply Forall_set_nth; [exact A1|].
      destruct Hsane as (S1 & S2 & S3 & S4 & S5 & S6 & S7).
      refine (conj S1 (conj S2 (conj S3 (conj S4 (conj S5 (conj S6 _)))))).
      cbn [waveProgress set_waveProgress]. lia.
    + cbn [store gameStateRef]. rewrite length_set_nth. exact A2.
    + exact A3.
  - unfold handleKeyDown. rewrite Hc.
    destruct (String.eqb code "Space" && gameOver cur).
    + split; [|split].
      * cbn [store]. unfold push. apply Forall_app. split; [exact Hst|].
        constructor; [apply sane_initGame|constructor].
      * cbn [store gameStateRef]. unfold push. rewrite length_app.
        cbn [List.length]. lia.
      * exact Hp.
    + destruct (String.eqb code "KeyP");
        apply saneWorld_set_current; try exact Hw; exact Hcur.
  - unfold handleKeyUp. rewrite Hc.
    apply saneWorld_set_current; [exact Hw|exact Hcur].
  - exact Hw.
Qed.

(** X17: in every state that the page can reach from mounting, by any
    sequence of frames, timers, key events and resizes, the player's health
    is at most its maximum of 100 and is 0 or less only in a finished game;
    every enemy of the collection has health in (0, maxHealth]; no bullet
    has negative damage; the player's damage is at least 10, the fire
    interval between 50 and 150 and the speed between 5 and 8; the wave is
    at least 1; score, kill counter and spawn progress are not negative. *)
Theorem X17_reachable_states_sane (canvas : Canvas) (now : number)
    (es : list Event) :
  exists cur,
    current (run (mount canvas now) es) = Some cur
    /\ sane cur
    /\ Player.health (player cur) <= 100
    /\ Forall sane (store (run (mount canvas now) es)).
Proof.
  assert (H : saneWorld (run (mount canvas now) es)).
  { generalize (saneWorld_mount canvas now).
    generalize (mount canvas now) as w.
    induction es as [|e es IH]; intros w Hw; [exact Hw|].
    cbn [run fold_left]. apply IH. now apply step_sane. }
  pose proof H as (Hst & Hlt & _).
  destruct (nth_error (store (run (mount canvas now) es))
              (gameStateRef (run (mount canvas now) es))) as [cur|] eqn:Hc.
  2:{ apply nth_error_None in Hc. lia. }
  exists cur. split; [exact Hc|].
  pose proof (saneWorld_lookup _ _ _ H Hc) as Hs.
  split; [exact Hs|]. split; [|exact Hst].
  destruct Hs as ((H1 & _) & _ & (F1 & _) & _). rewrite <- F1. exact H1.
Qed.

End Sanity.

(** ** The invulnerability window across frames *)

Section Window.
Context {M : MathLib}.

Lemma hitEnemy_player i b j s : player (fst (hitEnemy i b j s)) = player s.
Proof.
  destruct (nth_error (enemies s) j) as [e|] eqn:He.
  2:{ rewrite hitEnemy_miss; [reflexivity|]. intros e He'. congruence. }
  destruct (overlaps b e) eqn:Hov.
  2:{ rewrite hitEnemy_miss; [reflexivity|].
      intros e' He'. replace e' with e by congruence. exact Hov. }
  destruct (Qleb (Enemy.health e - Bullet.damage b) 0) eqn:Hh.
  - destruct (hitEnemy_kill i b j s e He Hov Hh) as (ps & _ & E).
    rewrite E. reflexivity.
  - destruct (hitEnemy_wound i b j s e He Hov Hh) as (ps & _ & E).
    rewrite E. reflexivity.
Qed.

Lemma bulletsVsEnemies_player s : player (bulletsVsEnemies s) = player s.
Proof.
  unfold bulletsVsEnemies.
  apply (for_down_ind (fun t => player t = player s)); [|reflexivity].
  intros i t Ht. unfold bulletVsEnemies.
  destruct (nth_error (bullets t) i) as [b|]; [|exact Ht].
  destruct (negb (Bullet.isPlayerBullet b)); [exact Ht|].
  apply (for_down_break_ind (fun x => player x = player s)); [|exact Ht].
  intros j x Hx. now rewrite hitEnemy_player.
Qed.

Lemma updateEnemies_player canvas currentTime s :
  player (updateEnemies canvas currentTime s) = player s.
Proof.
  unfold updateEnemies.
  apply (for_down_ind (fun t => player t = player s)); [|reflexivity].
  intros i t Ht. unfold updateEnemy.
  destruct (nth_error (enemies t) i) as [e|]; [|exact Ht].
  cbv zeta.
  destruct (Qgtb _ (height canvas + 50));
    destruct (match Enemy.type _ with shooter => _ | _ => false end);
    exact Ht.
Qed.

(** The cool-down is the only phase of the movement that touches the
    countdown. *)
Lemma movement_invulnerable canvas currentTime deltaTime s :
  0 < Player.invulnerable (player s) ->
  Player.invulnerable (player (movement canvas currentTime deltaTime s))
  = Player.invulnerable (player s) - deltaTime.
Proof.
  intros H. unfold movement.
  rewrite updatePowerUps_sweep, updateParticles_sweep, updateBullets_sweep.
  cbn [player set_powerUps set_particles set_bullets].
  rewrite updateEnemies_player.
  unfold coolDown. cbv zeta.
  destruct (Qgtb _ 0) eqn:E.
  - unfold shooting. cbv zeta. destruct (_ && _); reflexivity.
  - exfalso. apply Qgtb_iff in H.
    unfold shooting in E. cbv zeta in E.
    destruct (_ && _) in E;
      (assert (E' : Qgtb (Player.invulnerable (player s)) 0 = false)
         by exact E); congruence.
Qed.

Lemma playerVsPowerUps_heals s :
  Player.health (player s) <= Player.maxHealth (player s) ->
  let t := playerVsPowerUps s in
  Player.health (player s) <= Player.health (player t)
  /\ Player.health (player t) <= Player.maxHealth (player t)
  /\ Player.invulnerable (player t) = Player.invulnerable (player s)
  /\ gameOver t = gameOver s.
Proof.
  intros H t. subst t. unfold playerVsPowerUps.
  apply (for_down_ind
           (fun t => Player.health (player s) <= Player.health (player t)
                     /\ Player.health (player t) <= Player.maxHealth (player t)
                     /\ Player.invulnerable (player t)
                        = Player.invulnerable (player s)
                     /\ gameOver t = gameOver s)).
  2:{ split; [apply Qle_refl|]. now repeat split. }
  intros i t (A1 & A2 & A3 & A4).
  destruct (nth_error (powerUps t) i) as [u|] eqn:Hu.
  2:{ rewrite playerVsPowerUp_miss; [now repeat split|].
      intros u Hu'. congruence. }
  destruct (Qltb
        (hypot (Vector2.x (Player.pos (player t)) - Vector2.x (PowerUp.pos u))
           (Vector2.y (Player.pos (player t)) - Vector2.y (PowerUp.pos u)))
        (fadd (Player.radius (player t)) (PowerUp.radius u))) eqn:Hd.
  2:{ rewrite playerVsPowerUp_miss; [now repeat split|]. intros u' Hu'.
      replace u' with u by congruence. exact Hd. }
  pose proof (playerVsPowerUp_hit i t u Hu Hd) as Hc. fields Hc.
  rewrite Hplayer, HgameOver.
  destruct (applyPowerUp_health_bounds (PowerUp.type u) (player t) A2)
    as [B1 _].
  split; [|split; [exact B1|split; [|exact A4]]].
  - apply Qle_trans with (Player.health (player t)); [exact A1|].
    destruct (PowerUp.type u);
      cbn [applyPowerUp Player.health Player.set_health Player.set_damage
           Player.set_fireRate Player.set_speed]; try apply Qle_refl.
    minmax; lra.
  - rewrite <- A3. now destruct (PowerUp.type u).
Qed.

(** A frame that starts inside the invulnerability window. *)
Lemma frame_immune canvas currentTime deltaTime s :
  0 <= deltaTime -> deltaTime < Player.invulnerable (player s) ->
  Player.health (player s) <= Player.maxHealth (player s) ->
  let s' := fst (gameLoop canvas currentTime deltaTime s) in
  Player.health (player s) <= Player.health (player s')
  /\ Player.health (player s') <= Player.maxHealth (player s')
  /\ Player.invulnerable (player s')
     = (if paused s || gameOver s then Player.invulnerable (player s)
        else Player.invulnerable (player s) - deltaTime)
  /\ gameOver s' = gameOver s.
Proof.
  intros Hd Hi Hh s'. subst s'.
  destruct (paused s) eqn:Hp.
  { rewrite gameLoop_gate by auto. cbn [fst orb].
    split; [apply Qle_refl|]. split; [exact Hh|]. now split. }
  destruct (gameOver s) eqn:Hg.
  { rewrite gameLoop_gate by auto. cbn [fst orb].
    split; [apply Qle_refl|]. split; [exact Hh|]. now split. }
  cbn [orb].
  rewrite gameLoop_running by assumption. rewrite waveManagement_player.
  assert (Hgo : gameOver (fst (waveManagement
                  (combat (movement canvas currentTime deltaTime s))))
                = gameOver (combat (movement canvas currentTime deltaTime s))).
  { unfold waveManagement. destruct (_ && _); reflexivity. }
  rewrite Hgo. clear Hgo.
  set (m := movement canvas currentTime deltaTime s).
  assert (Hinv : Player.invulnerable (player m)
                 = Player.invulnerable (player s) - deltaTime).
  { apply movement_invulnerable. lra. }
  destruct (movement_frame canvas currentTime deltaTime s)
    as ((_ & _ & _ & _ & _ & _ & Hmax) & (Hgm & Hhm)).
  fold m in Hmax, Hgm, Hhm.
  unfold combat.
  set (x := bulletsVsEnemies m).
  assert (Hx : player x = player m) by apply bulletsVsEnemies_player.
  assert (Hgx : gameOver x = gameOver m).
  { destruct (bulletsVsEnemies_frame m) as (_ & (G & _) & _). exact G. }
  assert (Hpos : 0 < Player.invulnerable (player x)).
  { rewrite Hx, Hinv. lra. }
  rewrite (invulnerable_blocks_bullets x Hpos).
  rewrite (invulnerable_blocks_bodies x Hpos).
  destruct (playerVsPowerUps_heals x) as (P1 & P2 & P3 & P4).
  { rewrite Hx, Hhm, Hmax. exact Hh. }
  rewrite Hx, Hhm in P1. rewrite P3, Hx, Hinv, P4, Hgx, Hgm.
  split; [exact P1|]. split; [exact P2|]. split; [reflexivity|exact Hg].
Qed.

(** The same frame, as the page runs it. *)
Lemma animationFrame_immune w cur t :
  current w = Some cur ->
  0 <= t - lastTime w -> t - lastTime w < Player.invulnerable (player cur) ->
  Player.health (player cur) <= Player.maxHealth (player cur) ->
  exists cur1,
    current (animationFrame t w) = Some cur1
    /\ lastTime (animationFrame t w) = t
    /\ Player.health (player cur) <= Player.health (player cur1)
    /\ Player.health (player cur1) <= Player.maxHealth (player cur1)
    /\ Player.invulnerable (player cur1)
       = (if paused cur || gameOver cur then Player.invulnerable (player cur)
          else Player.invulnerable (player cur) - (t - lastTime w))
    /\ gameOver cur1 = gameOver cur.
Proof.
  intros Hc Hd Hi Hh.
  destruct (frame_immune (screen w) t (t - lastTime w) cur Hd Hi Hh)
    as (F1 & F2 & F3 & F4).
  exists (fst (gameLoop (screen w) t (t - lastTime w) cur)).
  split; [|split; [|now repeat split]].
  - unfold animationFrame. rewrite Hc.
    destruct (gameLoop (screen w) t (t - lastTime w) cur) as [s' sched].
    unfold current. cbn [store gameStateRef fst].
    apply nth_error_set_nth. eapply nth_error_lt; exact Hc.
  - unfold animationFrame. rewrite Hc.
    now destruct (gameLoop (screen w) t (t - lastTime w) cur).
Qed.


End Window.


(** ** Spawn progress and quota *)

Lemma owed_app i a b : owed i (a ++ b) = (owed i a + owed i b)%nat.
Proof. unfold owed. now rewrite filter_app, length_app. Qed.

Lemma owed_splice1 i k l t :
  nth_error l k = Some t ->
  owed i l
  = (owed i (splice1 k l) + if Nat.eqb (closure t) i then 1 else 0)%nat.
Proof.
  intros H. destruct (nth_error_split_at l k t H) as [Hl Hlen].
  remember (firstn k l) as pre. remember (skipn (S k) l) as post.
  rewrite Hl, <- Hlen, splice1_middle, !owed_app.
  change (t :: post) with ([t] ++ post). rewrite owed_app.
  unfold owed at 2. cbn [filter].
  destruct (Nat.eqb (closure t) i); cbn [List.length]; lia.
Qed.

Lemma owed_map r i (sched : list Scheduled) :
  owed i (map (fun c => mkTimer c r) sched)
  = if Nat.eqb r i then List.length sched else 0%nat.
Proof.
  unfold owed. induction sched as [|c sched IH]; cbn [map filter closure].
  - now destruct (Nat.eqb r i).
  - destruct (Nat.eqb r i); cbn [List.length]; [now rewrite IH|exact IH].
Qed.

Lemma owed_none n l :
  Forall (fun t => (closure t < n)%nat) l -> owed n l = 0%nat.
Proof.
  unfold owed. induction 1 as [|t l Ht _ IH]; [reflexivity|].
  cbn [filter]. replace (Nat.eqb (closure t) n) with false; [exact IH|].
  symmetry. apply Nat.eqb_neq. lia.
Qed.

Lemma lookup_set_nth {A : Type} (l : list A) (r i : nat) (v s : A) :
  nth_error (set_nth r v l) i = Some s ->
  (i = r /\ s = v) \/ (i <> r /\ nth_error l i = Some s).
Proof.
  intros H. destruct (Nat.eq_dec i r) as [->|Hne].
  - left. split; [reflexivity|].
    assert (Hlt : (r < List.length l)%nat).
    { apply nth_error_lt in H. now rewrite length_set_nth in H. }
    rewrite nth_error_set_nth in H by exact Hlt. congruence.
  - right. split; [exact Hne|].
    rewrite nth_error_set_nth_other in H by congruence. exact H.
Qed.

Section Booking.
Context {M : MathLib}.

Lemma booked_mount canvas now : booked (mount canvas now).
Proof.
  split.
  - repeat constructor.
  - intros [|i] s Hi.
    + inversion Hi. subst s. split; [vm_compute; discriminate|].
      left. reflexivity.
    + destruct i; discriminate.
Qed.

Lemma booked_set_current w cur s' :
  booked w -> current w = Some cur ->
  wave s' = wave cur -> waveProgress s' = waveProgress cur ->
  enemiesThisWave s' = enemiesThisWave cur ->
  booked (set_current s' w).
Proof.
  intros (B1 & B2) Hc E1 E2 E3. split.
  - cbn [set_current store pending]. now rewrite length_set_nth.
  - intros i s Hi. cbn [set_current store pending] in *.
    apply lookup_set_nth in Hi. destruct Hi as [[-> ->]|[_ Hi]].
    + rewrite E1, E2, E3. now apply B2.
    + now apply B2.
Qed.

Lemma step_booked w e : saneWorld w -> booked w -> booked (step w e).
Proof.
  intros Hw Hb. pose proof Hw as (Hst & Hlt & _).
  pose proof Hb as (B1 & B2).
  destruct (nth_error (store w) (gameStateRef w)) as [cur|] eqn:Hc.
  2:{ apply nth_error_None in Hc. lia. }
  fold (current w) in Hc.
  destruct (B2 _ _ Hc) as [Jc Qc].
  destruct e as [t|k|code|code|iw ih]; cbn [step].
  - unfold animationFrame. rewrite Hc.
    set (mid := combat (movement (screen w) t (t - lastTime w) cur)).
    assert (Hcase :
      (wave (fst (gameLoop (screen w) t (t - lastTime w) cur)) = wave cur
       /\ waveProgress (fst (gameLoop (screen w) t (t - lastTime w) cur))
          = waveProgress cur
       /\ enemiesThisWave (fst (gameLoop (screen w) t (t - lastTime w) cur))
          = enemiesThisWave cur
       /\ snd (gameLoop (screen w) t (t - lastTime w) cur) = [])
      \/ ((enemiesThisWave cur <= waveProgress cur)%Z
          /\ wave (fst (gameLoop (screen w) t (t - lastTime w) cur))
             = (wave cur + 1)%Z
          /\ enemiesThisWave (fst (gameLoop (screen w) t (t - lastTime w) cur))
             = (5 + 2 * (wave cur + 1))%Z
          /\ waveProgress (fst (gameLoop (screen w) t (t - lastTime w) cur))
             = 0%Z
          /\ List.length (snd (gameLoop (screen w) t (t - lastTime w) cur))
             = Z.to_nat (5 + 2 * (wave cur + 1)))).
    { destruct (paused cur) eqn:Hp;
        [left; apply gameLoop_stay; auto|].
      destruct (gameOver cur) eqn:Hg;
        [left; apply gameLoop_stay; auto|].
      destruct (Z.ltb (waveProgress cur) (enemiesThisWave cur)) eqn:Hq.
      { apply Z.ltb_lt in Hq. left. apply gameLoop_stay. auto. }
      apply Z.ltb_ge in Hq.
      destruct (enemies mid) as [|e0 es0] eqn:He.
      2:{ left. apply gameLoop_stay. right; right; right.
          fold mid. rewrite He. discriminate. }
      right.
      destruct (gameLoop_advance (screen w) t (t - lastTime w) cur
                  Hp Hg Hq He) as (A1 & A2 & A3 & _ & A5).
      split; [exact Hq|]. split; [exact A1|].
      split; [rewrite A2, A1; reflexivity|]. split; [exact A3|].
      rewrite A5, length_map, length_seq, A1. reflexivity. }
    destruct (gameLoop (screen w) t (t - lastTime w) cur) as [s' sched].
    cbn [fst snd] in Hcase. split.
    + cbn [store pending]. rewrite length_set_nth.
      apply Forall_app. split; [exact B1|].
      apply Forall_forall. intros x Hx. apply in_map_iff in Hx.
      destruct Hx as (c & <- & _). exact Hlt.
    + intros i s Hi. cbn [store pending] in *. rewrite owed_app, owed_map.
      apply lookup_set_nth in Hi. destruct Hi as [[-> ->]|[Hne Hi]].
      * rewrite Nat.eqb_refl.
        destruct Hcase as [(C1 & C2 & C3 & C4)|(C0 & C1 & C2 & C3 & C4)].
        -- rewrite C1, C2, C3, C4. cbn [List.length]. split; [lia|exact Qc].
        -- rewrite C1, C2, C3, C4.
           assert (Hwv : (1 <= wave cur)%Z).
           { destruct (saneWorld_lookup w _ cur Hw Hc)
               as (_ & _ & _ & Hwv & _). exact Hwv. }
           split; [|left; lia]. rewrite Nat2Z.inj_add, Z2Nat.id by lia. lia.
      * replace (Nat.eqb (gameStateRef w) i) with false
          by (symmetry; apply Nat.eqb_neq; congruence).
        rewrite Nat.add_0_r. now apply B2.
  - unfold fire. destruct (nth_error (pending w) k) as [t|] eqn:Ht; [|exact Hb].
    set (w0 := mkWorld (store w) (gameStateRef w) (splice1 k (pending w))
                 (lastTime w) (screen w)).
    assert (Hsp : forall i,
              owed i (pending w)
              = (owed i (splice1 k (pending w))
                 + if Nat.eqb (closure t) i then 1 else 0)%nat)
      by (intros i; now apply owed_splice1).
    assert (Hb0 : booked w0).
    { split; [now apply Forall_splice1|].
      intros i s Hi. cbn [w0 store pending] in *.
      destruct (B2 i s Hi) as [J Q]. split; [|exact Q].
      rewrite (Hsp i) in J. lia. }
    unfold spawnCallback. change (current w0) with (current w). rewrite Hc.
    destruct (gameOver cur); [exact Hb0|]. cbv zeta.
    match goal with
    | |- context [set_current ?x w0] => set (s1 := x)
    end.
    assert (Hold : forall i s,
              nth_error (store (set_current s1 w0)) i = Some s ->
              (waveProgress s + Z.of_nat (owed i (pending w))
               <= enemiesThisWave s)%Z
              /\ (enemiesThisWave s = 5 + 2 * wave s
                  \/ (wave s = 1 /\ enemiesThisWave s = 5))%Z).
    { intros i s Hi. cbn [set_current w0 store gameStateRef] in Hi.
      apply lookup_set_nth in Hi. destruct Hi as [[-> ->]|[_ Hi]].
      - exact (B2 _ _ Hc).
      - now apply B2. }
    assert (Hb1 : booked (set_current s1 w0)).
    { apply (booked_set_current w0 cur s1 Hb0 Hc); reflexivity. }
    destruct (nth_error (store (set_current s1 w0)) (closure t))
      as [state|] eqn:Hstate; [|exact Hb1].
    destruct Hb1 as (D1 & D2). split.
    + cbn [store pending] in *. now rewrite length_set_nth.
    + intros i s Hi. cbn [store pending] in Hi |- *.
      apply lookup_set_nth in Hi. destruct Hi as [[-> ->]|[Hne Hi]].
      * destruct (Hold _ _ Hstate) as [J Q].
        cbn [waveProgress enemiesThisWave wave set_waveProgress].
        split; [|exact Q].
        rewrite (Hsp (closure t)), Nat.eqb_refl in J.
        cbn [set_current w0 pending]. lia.
      * now apply D2.
  - unfold handleKeyDown. rewrite Hc.
    destruct (String.eqb code "Space" && gameOver cur).
    + split.
      * cbn [store pending]. unfold push. rewrite length_app.
        cbn [List.length]. eapply Forall_impl; [|exact B1].
        cbv beta. intros a Ha. lia.
      * intros i s Hi. cbn [store pending] in *. unfold push in Hi.
        destruct (Nat.lt_ge_cases i (List.length (store w))) as [Hi1|Hi1].
        -- rewrite nth_error_app1 in Hi by exact Hi1. now apply B2.
        -- rewrite nth_error_app2 in Hi by exact Hi1.
           destruct (i - List.length (store w))%nat as [|j] eqn:Ej.
           ++ inversion Hi. subst s.
              replace i with (List.length (store w)) by lia.
              rewrite owed_none by exact B1.
              cbn [initGame waveProgress enemiesThisWave wave]. lia.
           ++ destruct j; discriminate.
    + destruct (String.eqb code "KeyP");
        apply (booked_set_current w cur _ Hb Hc); reflexivity.
  - unfold handleKeyUp. rewrite Hc.
    apply (booked_set_current w cur _ Hb Hc); reflexivity.
  - exact Hb.
Qed.

(** X19: spawn progress and quota in every reachable state.  The spawn
    progress never exceeds the quota of the wave, and neither does the
    progress plus the number of pending timers that captured the current
    state: a wave advances only after every timer of the current game has
    fired.  The quota is 5 + 2 wave, except in a game started by a restart,
    which has wave 1 and the quota 5 of a fresh state. *)
Theorem X19_progress_within_quota (canvas : Canvas) (now : number)
    (es : list Event) :
  let w := run (mount canvas now) es in
  exists cur,
    current w = Some cur
    /\ (0 <= waveProgress cur <= enemiesThisWave cur)%Z
    /\ (waveProgress cur + Z.of_nat (owed (gameStateRef w) (pending w))
        <= enemiesThisWave cur)%Z
    /\ (enemiesThisWave cur = 5 + 2 * wave cur
        \/ (wave cur = 1 /\ enemiesThisWave cur = 5))%Z.
Proof.
  intros w. subst w.
  assert (H : saneWorld (run (mount canvas now) es)
              /\ booked (run (mount canvas now) es)).
  { generalize (saneWorld_mount canvas now) (booked_mount canvas now).
    generalize (mount canvas now) as w.
    induction es as [|e es IH]; intros w Hw Hb; [now split|].
    cbn [run fold_left]. apply IH; [now apply step_sane|now apply step_booked]. }
  destruct H as [Hs (B1 & B2)]. pose proof Hs as (_ & Hlt & _).
  destruct (nth_error (store (run (mount canvas now) es))
              (gameStateRef (run (mount canvas now) es))) as [cur|] eqn:Hc.
  2:{ apply nth_error_None in Hc. lia. }
  exists cur. split; [exact Hc|].
  destruct (B2 _ _ Hc) as [J Q].
  destruct (saneWorld_lookup _ _ _ Hs Hc) as (_ & _ & _ & _ & _ & _ & Hwp).
  split; [lia|]. split; [exact J|exact Q].
Qed.

End Booking.

(** ** The two damaging passes remove at most one object *)

Lemma for_down_once {St : Type} (body : nat -> St -> St) (stop : St -> Prop) :
  (forall i s, body i s = s \/ stop (body i s)) ->
  (forall i s, stop s -> body i s = s) ->
  forall n s,
    for_down n body s = s
    \/ exists i, (i < n)%nat /\ for_down n body s = body i s
                 /\ forall j, (i < j < n)%nat -> body j s = s.
Proof.
  intros Hcase Hstop n s. induction n as [|n IH]; [now left|].
  cbn [for_down]. destruct (Hcase n s) as [E|Hs].
  - rewrite E. destruct IH as [IH|(i & Hi & IH & Hj)]; [now left|].
    right. exists i. split; [lia|]. split; [exact IH|].
    intros j Hjn. destruct (Nat.eq_dec j n) as [->|Hne]; [exact E|].
    apply Hj. lia.
  - right. exists n. split; [lia|]. split.
    + apply for_down_fix. intros i. now apply Hstop.
    + intros j Hjn. lia.
Qed.

Section OneRemoval.
Context {M : MathLib}.

Lemma bulletsVsPlayer_once s :
  bulletsVsPlayer s = s
  \/ exists i b,
       nth_error (bullets s) i = Some b
       /\ Bullet.isPlayerBullet b = false
       /\ bulletsVsPlayer s = bulletVsPlayer i s
       /\ bullets (bulletsVsPlayer s) = splice1 i (bullets s)
       /\ enemies (bulletsVsPlayer s) = enemies s
       /\ score (bulletsVsPlayer s) = score s
       /\ enemiesKilled (bulletsVsPlayer s) = enemiesKilled s
       /\ forall j, (i < j < List.length (bullets s))%nat ->
                    bulletVsPlayer j s = s.
Proof.
  unfold bulletsVsPlayer.
  destruct (for_down_once bulletVsPlayer
              (fun t => 0 < Player.invulnerable (player t)))
    with (n := List.length (bullets s)) (s := s)
    as [E|(i & Hi & E & Hj)].
  - intros i t.
    destruct (bulletVsPlayer_cases i t) as [E|(b & _ & _ & _ & Hc)];
      [now left|right].
    fields Hc. rewrite Hplayer. reflexivity.
  - intros i t Ht. now apply invulnerable_blocks_bullet.
  - now left.
  - destruct (bulletVsPlayer_cases i s) as [E'|(b & Hb & Hown & _ & Hc)].
    + left. now rewrite E.
    + right. exists i, b. rewrite E. fields Hc. now repeat split.
Qed.

Lemma playerVsEnemies_once s :
  playerVsEnemies s = s
  \/ exists i e,
       nth_error (enemies s) i = Some e
       /\ playerVsEnemies s = playerVsEnemy i s
       /\ enemies (playerVsEnemies s) = splice1 i (enemies s)
       /\ bullets (playerVsEnemies s) = bullets s
       /\ score (playerVsEnemies s) = score s
       /\ enemiesKilled (playerVsEnemies s) = enemiesKilled s
       /\ forall j, (i < j < List.length (enemies s))%nat ->
                    playerVsEnemy j s = s.
Proof.
  unfold playerVsEnemies.
  destruct (for_down_once playerVsEnemy
              (fun t => 0 < Player.invulnerable (player t)))
    with (n := List.length (enemies s)) (s := s)
    as [E|(i & Hi & E & Hj)].
  - intros i t.
    destruct (playerVsEnemy_cases i t) as [E|(e & _ & _ & Hc)];
      [now left|right].
    fields Hc. rewrite Hplayer. reflexivity.
  - intros i t Ht. now apply invulnerable_blocks_body.
  - now left.
  - destruct (playerVsEnemy_cases i s) as [E'|(e & He & _ & Hc)].
    + left. now rewrite E.
    + right. exists i, e. rewrite E. fields Hc. now repeat split.
Qed.

(** X20: each of the two passes that can hurt the player changes the state
    in at most one of its iterations, the one at the highest index that
    hits: the enemy-bullet pass removes at most one bullet, the
    body-contact pass at most one enemy, and a contact counts neither as a
    kill nor for the score. *)
Theorem X20_one_removal_per_pass (s : GameState) :
  (bulletsVsPlayer s = s
   \/ exists i b,
        nth_error (bullets s) i = Some b
        /\ Bullet.isPlayerBullet b = false
        /\ bulletsVsPlayer s = bulletVsPlayer i s
        /\ bullets (bulletsVsPlayer s) = splice1 i (bullets s)
        /\ enemies (bulletsVsPlayer s) = enemies s
        /\ score (bulletsVsPlayer s) = score s
        /\ enemiesKilled (bulletsVsPlayer s) = enemiesKilled s
        /\ forall j, (i < j < List.length (bullets s))%nat ->
                     bulletVsPlayer j s = s)
  /\ (playerVsEnemies s = s
      \/ exists i e,
           nth_error (enemies s) i = Some e
           /\ playerVsEnemies s = playerVsEnemy i s
           /\ enemies (playerVsEnemies s) = splice1 i (enemies s)
           /\ bullets (playerVsEnemies s) = bullets s
           /\ score (playerVsEnemies s) = score s
           /\ enemiesKilled (playerVsEnemies s) = enemiesKilled s
           /\ forall j, (i < j < List.length (enemies s))%nat ->
                        playerVsEnemy j s = s)
  /\ (List.length (bullets s)
      <= S (List.length (bullets (bulletsVsPlayer s))))%nat
  /\ (List.length (enemies s)
      <= S (List.length (enemies (playerVsEnemies s))))%nat.
Proof.
  split; [apply bulletsVsPlayer_once|]. split; [apply playerVsEnemies_once|].
  split.
  - destruct (bulletsVsPlayer_once s) as [E|(i & b & Hb & _ & _ & E & _)].
    + rewrite E. lia.
    + rewrite E, splice1_length by (eapply nth_error_lt; exact Hb). lia.
  - destruct (playerVsEnemies_once s) as [E|(i & e & He & _ & E & _)].
    + rewrite E. lia.
    + rewrite E, splice1_length by (eapply nth_error_lt; exact He). lia.
Qed.

End OneRemoval.

(** Two enemy bullets on the player: one frame removes one of them. *)
Lemma X20_one_removal_per_pass_witness :
  let M := Sample.math [] in
  let b := Bullet.mk (Vector2.mk 400 500) (Vector2.mk 0 4) 5 8 false in
  let s := set_bullets [b; b] (initGame (mkCanvas 800 600) 0) in
  (List.length (bullets s)
   <= S (List.length (bullets (bulletsVsPlayer s))))%nat
  /\ (List.length (enemies s)
      <= S (List.length (enemies (playerVsEnemies s))))%nat.
Proof.
  intros M b s. exact (proj2 (proj2 (X20_one_removal_per_pass s))).
Defined.
